(** * pkg/archive/compression: detection, peeking buffer, process bridge, dispatch

    A shallow embedding of [compression.go].  Pure code (the matchers,
    [DetectCompression], [Extension]) is embedded as functions on byte
    lists; stateful code (the pooled [bufio.Reader], [bufferedReader],
    [DecompressStream], [CompressStream]) as state passing over an explicit
    store; the goroutine of [cmdStream] as a labelled step function.

    The Go standard library ([bytes], [encoding/binary], [bufio], [sync.Pool],
    [io.Pipe], [os/exec]) is not part of the package: the few operations the
    package calls are modelled after the library's sources and documentation,
    and the codecs (gzip, zstd, bzip2) are taken as parameters. *)

From Stdlib Require Import ZArith Lia List Bool String.
From Stdlib Require Import Strings.Byte.
From stdpp Require Import base gmap list strings.
Import ListNotations.

Open Scope Z_scope.

(* ------------------------------------------------------------------ *)
(** ** Errors *)

(** Go's [error] values the package meets.  Sentinel errors are compared
    by identity ([err == io.EOF]); [ErrorString] is what [fmt.Errorf] and
    the operating system produce. *)
Inductive error : Type :=
| EOF                (* io.EOF *)
| ErrUnexpectedEOF   (* io.ErrUnexpectedEOF *)
| ErrNoProgress      (* io.ErrNoProgress *)
| ErrClosedPipe      (* io.ErrClosedPipe *)
| ErrBufferFull      (* bufio.ErrBufferFull *)
| ErrNegativeCount   (* bufio.ErrNegativeCount *)
| ErrorString (msg : string).

(** [err.Error()] *)
Definition Error (e : error) : string :=
  match e with
  | EOF => "EOF"
  | ErrUnexpectedEOF => "unexpected EOF"
  | ErrNoProgress => "multiple Read calls return no data or error"
  | ErrClosedPipe => "io: read/write on closed pipe"
  | ErrBufferFull => "bufio: buffer full"
  | ErrNegativeCount => "bufio: negative count"
  | ErrorString msg => msg
  end%string.

Definition is_EOF (e : option error) : bool :=
  match e with Some EOF => true | _ => false end.

(** [s] occurs inside [t]. *)
Definition embeds (t s : string) : Prop :=
  exists pre post : string, t = (pre ++ s ++ post)%string.

(* ------------------------------------------------------------------ *)
(** ** The Compression enumeration *)

(** [type Compression int]: any integer is a value of the type, the five
    constants are [iota] 0..4. *)
Abbreviation Compression := Z (only parsing).

Definition Uncompressed : Compression := 0.
Definition Gzip : Compression := 1.
Definition Zstd : Compression := 2.
Definition Bzip2 : Compression := 3.
Definition Xz : Compression := 4.

(** [func (compression *Compression) Extension() string] *)
Definition Extension (compression : Compression) : string :=
  if compression =? Gzip then "gz"
  else if compression =? Zstd then "zst"
  else "".

(* ------------------------------------------------------------------ *)
(** ** Magic numbers and matchers *)

Module Detect.

Definition zstdMagicSkippableStart : Z := 0x184D2A50.
Definition zstdMagicSkippableMask : Z := 0xFFFFFFF0.

Definition gzipMagic : list byte := [x1f; x8b; x08].
Definition zstdMagic : list byte := [x28; xb5; x2f; xfd].
Definition bzip2Magic : list byte := [x42; x5a; x68].
Definition xzMagic : list byte := [xfd; x37; x7a; x58; x5a; x00].

Definition matcher : Type := list byte -> bool.

(** [bytes.Equal] *)
Fixpoint bytes_Equal (a b : list byte) : bool :=
  match a, b with
  | [], [] => true
  | x :: a', y :: b' => Byte.eqb x y && bytes_Equal a' b'
  | _, _ => false
  end.

(** [bytes.HasPrefix(s, prefix)]:
    [len(s) >= len(prefix) && Equal(s[:len(prefix)], prefix)] *)
Definition HasPrefix (s prefix : list byte) : bool :=
  (length prefix <=? length s)%nat && bytes_Equal (take (length prefix) s) prefix.

Definition magicNumberMatcher (m : list byte) : matcher :=
  fun source => HasPrefix source m.

Definition byteZ (b : byte) : Z := Z.of_N (Byte.to_N b).

(** [binary.LittleEndian.Uint32(b)]; indexing [b[3]] panics on a slice
    shorter than four bytes, which is [None] here. *)
Definition Uint32 (b : list byte) : option Z :=
  match b with
  | b0 :: b1 :: b2 :: b3 :: _ =>
      Some (Z.lor (Z.lor (Z.lor (byteZ b0) (Z.shiftl (byteZ b1) 8))
                         (Z.shiftl (byteZ b2) 16))
                  (Z.shiftl (byteZ b3) 24))
  | _ => None
  end.

(** [zstdMatcher]: a Zstandard frame, or a skippable frame. *)
Definition zstdMatcher : matcher :=
  fun source =>
    if HasPrefix source zstdMagic then true
    else if (length source <? 8)%nat then false
    else match Uint32 (take 4 source) with
         | Some v => Z.land v zstdMagicSkippableMask =? zstdMagicSkippableStart
         | None => false
         end.

(** The map literal ranged over by [DetectCompression]. *)
Definition matchers : gmap Z matcher :=
  {[ Gzip := magicNumberMatcher gzipMagic;
     Zstd := zstdMatcher;
     Bzip2 := magicNumberMatcher bzip2Magic;
     Xz := magicNumberMatcher xzMagic ]}.

(** Go leaves the iteration order of [range] over a map unspecified, and
    it may change from one loop to the next.  An iteration order is any
    arrangement of the map's entries. *)
Definition iteration_order (order : list (Z * matcher)) : Prop :=
  order ≡ₚ map_to_list matchers.

(** The body of the [for ... range] loop, run over the entries in the
    order the runtime yields them. *)
Fixpoint range_first (order : list (Z * matcher)) (source : list byte) : Compression :=
  match order with
  | [] => Uncompressed
  | (compression, fn) :: rest =>
      if fn source then compression else range_first rest source
  end.

Definition DetectCompression (order : list (Z * matcher)) (source : list byte)
  : Compression := range_first order source.

(** The keys whose matcher the loop calls before it returns, in order. *)
Fixpoint evaluated (order : list (Z * matcher)) (source : list byte) : list Z :=
  match order with
  | [] => []
  | (compression, fn) :: rest =>
      compression :: (if fn source then [] else evaluated rest source)
  end.

(** The entries in the order the map literal lists them. *)
Definition literal_order : list (Z * matcher) :=
  [ (Gzip, magicNumberMatcher gzipMagic);
    (Zstd, zstdMatcher);
    (Bzip2, magicNumberMatcher bzip2Magic);
    (Xz, magicNumberMatcher xzMagic) ].

(** What the specification calls the little-endian 32-bit value of four
    bytes, and masking off its low four bits, in plain arithmetic. *)
Definition le32_value (b0 b1 b2 b3 : byte) : Z :=
  byteZ b0 + 256 * byteZ b1 + 65536 * byteZ b2 + 16777216 * byteZ b3.

Definition clear_low_nibble (v : Z) : Z := v - v mod 16.

End Detect.

(* ------------------------------------------------------------------ *)
(** ** The store: caller streams, pooled bufio readers, pipes *)

(** What one [Read] on a caller-supplied [io.Reader] hands over: some
    bytes, possibly together with an error.  A stream is the list of what
    its successive reads will deliver; once the list is used up every
    further read reports [io.EOF]. *)
Inductive event : Type :=
| Chunk (bs : list byte) (e : option error).

Definition Source : Type := list event.

(** [rd.Read(p)] with [len(p) = cap]. *)
Definition src_Read (cap : N) (s : Source) : (list byte * option error) * Source :=
  match s with
  | [] => (([], Some EOF), [])
  | Chunk bs e :: rest =>
      if (N.of_nat (length bs) <=? cap)%N then ((bs, e), rest)
      else ((take (N.to_nat cap) bs, None), Chunk (drop (N.to_nat cap) bs) e :: rest)
  end.

(** All the bytes a stream still has to deliver. *)
Fixpoint src_bytes (s : Source) : list byte :=
  match s with
  | [] => []
  | Chunk bs _ :: rest => bs ++ src_bytes rest
  end.

(** [bufio.Reader]: [b_data] is [buf[r:w]], the bytes read from [rd] and
    not yet handed out; [b_size] is [len(buf)]; [b_rd] is [nil] or the
    wrapped stream. *)
Record bufioReader : Type := mkBufio {
  b_size : N;
  b_rd : option nat;
  b_data : list byte;
  b_err : option error
}.

Definition set_data (d : list byte) (b : bufioReader) : bufioReader :=
  mkBufio (b_size b) (b_rd b) d (b_err b).
Definition set_err (e : option error) (b : bufioReader) : bufioReader :=
  mkBufio (b_size b) (b_rd b) (b_data b) e.

(** An external process as the bridge sees it: whether it starts, the
    writes it makes to its standard output, what it leaves on standard
    error, and what [Wait] returns ([None] for exit status zero). *)
Record Process : Type := mkProcess {
  start_error : option error;
  stdout : list (list byte);
  stderr : string;
  wait_error : option error
}.

(** An [io.Pipe] together with the process that feeds it.  [unsent] are
    the writes the process has still to make to its standard output,
    [inflight] the bytes of the [Write] now blocked in the pipe,
    [copy_error] what the goroutine copying standard output into the pipe
    ended with, [werr] the error the write side was closed with ([None]
    while open), [rclosed] whether the read side was closed, and
    [supervising] whether the goroutine started by [cmdStream] still runs. *)
Record Bridge : Type := mkBridge {
  proc : Process;
  unsent : list (list byte);
  inflight : list byte;
  copy_error : option error;
  werr : option error;
  rclosed : bool;
  supervising : bool
}.

Record World : Type := mkWorld {
  srcs : gmap nat Source;          (* caller-supplied readers *)
  sinks : gmap nat (list byte);    (* caller-supplied writers *)
  bufs : gmap nat bufioReader;     (* every *bufio.Reader allocated *)
  pool : list nat;                 (* bufioReader32KPool: idle readers *)
  pool_puts : list nat;            (* every Put so far, latest first *)
  pipes : gmap nat Bridge;         (* pipes of started processes *)
  cancelled : list nat;            (* contexts whose cancel() ran *)
  next_ctx : nat;
  gzip_once : option string        (* initGzip done, and gzipPath *)
}.

Definition set_srcs (x : gmap nat Source) (w : World) : World :=
  mkWorld x (sinks w) (bufs w) (pool w) (pool_puts w) (pipes w)
          (cancelled w) (next_ctx w) (gzip_once w).
Definition set_bufs (x : gmap nat bufioReader) (w : World) : World :=
  mkWorld (srcs w) (sinks w) x (pool w) (pool_puts w) (pipes w)
          (cancelled w) (next_ctx w) (gzip_once w).
Definition set_pool (x : list nat) (w : World) : World :=
  mkWorld (srcs w) (sinks w) (bufs w) x (pool_puts w) (pipes w)
          (cancelled w) (next_ctx w) (gzip_once w).
Definition set_pool_puts (x : list nat) (w : World) : World :=
  mkWorld (srcs w) (sinks w) (bufs w) (pool w) x (pipes w)
          (cancelled w) (next_ctx w) (gzip_once w).
Definition set_pipes (x : gmap nat Bridge) (w : World) : World :=
  mkWorld (srcs w) (sinks w) (bufs w) (pool w) (pool_puts w) x
          (cancelled w) (next_ctx w) (gzip_once w).
Definition set_cancelled (x : list nat) (w : World) : World :=
  mkWorld (srcs w) (sinks w) (bufs w) (pool w) (pool_puts w) (pipes w)
          x (next_ctx w) (gzip_once w).
Definition set_next_ctx (x : nat) (w : World) : World :=
  mkWorld (srcs w) (sinks w) (bufs w) (pool w) (pool_puts w) (pipes w)
          (cancelled w) x (gzip_once w).
Definition set_gzip_once (x : option string) (w : World) : World :=
  mkWorld (srcs w) (sinks w) (bufs w) (pool w) (pool_puts w) (pipes w)
          (cancelled w) (next_ctx w) x.

(** Computations over the store.  [None] is a run-time panic (a nil
    dereference, or [bufio]'s own [panic]). *)
Definition M (A : Type) : Type := World -> option (A * World).

Definition ret {A} (a : A) : M A := fun w => Some (a, w).
Definition bind {A B} (c : M A) (k : A -> M B) : M B :=
  fun w => match c w with
           | Some (a, w') => k a w'
           | None => None
           end.
Definition panic {A} : M A := fun _ => None.
Definition modify (f : World -> World) : M unit := fun w => Some (tt, f w).

Notation "'let*' x ':=' c 'in' k" := (bind c (fun x => k))
  (at level 10, x pattern, c at level 100, k at level 200).
Notation "c ';;' k" := (bind c (fun _ => k))
  (at level 100, k at level 200, right associativity).

(* ------------------------------------------------------------------ *)
(** ** bufio.Reader, after the library's source *)

Module bufio.

Definition maxConsecutiveEmptyReads : nat := 100.

(** A reader's view of the stream it wraps: [None] when [rd] is nil. *)
Definition rd_Read (cap : N) (s : option Source)
  : option ((list byte * option error) * option Source) :=
  match s with
  | None => None
  | Some s => let '(r, s') := src_Read cap s in Some (r, Some s')
  end.

(** The retry loop of [fill]: read new data, giving up after [i] reads
    that brought neither data nor an error. *)
Fixpoint fill_tries (i : nat) (b : bufioReader) (s : option Source)
  : option (bufioReader * option Source) :=
  match i with
  | O => Some (set_err (Some ErrNoProgress) b, s)
  | S i' =>
      match rd_Read (b_size b - N.of_nat (length (b_data b))) s with
      | None => None
      | Some ((bs, e), s') =>
          let b' := set_data (b_data b ++ bs) b in
          match e with
          | Some _ => Some (set_err e b', s')
          | None => if (0 <? length bs)%nat then Some (b', s')
                    else fill_tries i' b' s'
          end
      end
  end.

(** [func (b *Reader) fill()] *)
Definition fill (b : bufioReader) (s : option Source)
  : option (bufioReader * option Source) :=
  if (b_size b <=? N.of_nat (length (b_data b)))%N then None
  else fill_tries maxConsecutiveEmptyReads b s.

(** The condition of the loop in [Peek]. *)
Definition peek_more (n : Z) (b : bufioReader) : bool :=
  (Z.of_nat (length (b_data b)) <? n)
  && (N.of_nat (length (b_data b)) <? b_size b)%N
  && match b_err b with None => true | Some _ => false end.

(** The loop of [Peek].  Every turn but the last adds a byte to a buffer
    of [b_size] bytes, so as many turns as the buffer has free bytes are
    enough: see [peek_loop_spec]. *)
Fixpoint peek_loop (turns : nat) (n : Z) (b : bufioReader) (s : option Source)
  : option (bufioReader * option Source) :=
  match turns with
  | O => Some (b, s)
  | S t =>
      if peek_more n b then
        match fill b s with
        | None => None
        | Some (b', s') => peek_loop t n b' s'
        end
      else Some (b, s)
  end.

(** [b.readErr()] *)
Definition readErr (b : bufioReader) : option error * bufioReader :=
  (b_err b, set_err None b).

(** [func (b *Reader) Peek(n int) ([]byte, error)] *)
Definition Peek (n : Z) (b : bufioReader) (s : option Source)
  : option ((list byte * option error) * (bufioReader * option Source)) :=
  if n <? 0 then Some (([], Some ErrNegativeCount), (b, s))
  else
    match peek_loop (N.to_nat (b_size b) - length (b_data b)) n b s with
    | None => None
    | Some (b, s) =>
        if Z.of_N (b_size b) <? n then
          Some ((b_data b, Some ErrBufferFull), (b, s))
        else if Z.of_nat (length (b_data b)) <? n then
          let '(e, b') := readErr b in
          Some ((b_data b,
                 Some (match e with Some e => e | None => ErrBufferFull end)),
                (b', s))
        else Some ((take (Z.to_nat n) (b_data b), None), (b, s))
    end.

(** [func (b *Reader) Read(p []byte) (n int, err error)], [k = len(p)] *)
Definition Read (k : N) (b : bufioReader) (s : option Source)
  : option ((list byte * option error) * (bufioReader * option Source)) :=
  if (k =? 0)%N then
    if (0 <? length (b_data b))%nat then Some (([], None), (b, s))
    else let '(e, b') := readErr b in Some (([], e), (b', s))
  else if (length (b_data b) =? 0)%nat then
    match b_err b with
    | Some _ => let '(e, b') := readErr b in Some (([], e), (b', s))
    | None =>
        if (b_size b <=? k)%N then
          (* large read, empty buffer: read directly into p *)
          match rd_Read k s with
          | None => None
          | Some ((bs, e), s') =>
              let '(e, b') := readErr (set_err e b) in Some ((bs, e), (b', s'))
          end
        else
          (* one read into the buffer, then copy *)
          match rd_Read (b_size b) s with
          | None => None
          | Some ((bs, e), s') =>
              let b1 := set_err e (set_data [] b) in
              if (length bs =? 0)%nat then
                let '(e, b') := readErr b1 in Some (([], e), (b', s'))
              else
                Some ((take (N.to_nat k) bs, None),
                      (set_data (drop (N.to_nat k) bs) b1, s'))
          end
    end
  else Some ((take (N.to_nat k) (b_data b), None),
             (set_data (drop (N.to_nat k) (b_data b)) b, s)).

(** [func (b *Reader) Reset(r io.Reader)] *)
Definition Reset (r : option nat) (b : bufioReader) : bufioReader :=
  mkBufio (b_size b) r [] None.

(** [bufio.NewReaderSize(nil, size)] *)
Definition NewReaderSize (size : N) : bufioReader :=
  mkBufio (N.max size 16) None [] None.

End bufio.

(** Run a [bufio] method on the reader stored at [id], against the stream
    its [rd] points to, and store both back. *)
Definition on_bufio {A} (id : nat)
    (f : bufioReader -> option Source
         -> option (A * (bufioReader * option Source))) : M A :=
  fun w =>
    match bufs w !! id with
    | None => None
    | Some b =>
        let s := match b_rd b with
                 | Some sid => srcs w !! sid
                 | None => None
                 end in
        match f b s with
        | None => None
        | Some (a, (b', s')) =>
            let w1 := set_bufs (<[id := b']> (bufs w)) w in
            Some (a, match b_rd b, s' with
                     | Some sid, Some s' => set_srcs (<[sid := s']> (srcs w1)) w1
                     | _, _ => w1
                     end)
        end
    end.

(* ------------------------------------------------------------------ *)
(** ** The pool and bufferedReader *)

(** [bufioReader32KPool.Get()]: an idle reader if there is one, else
    [New()].  (The runtime may also drop idle readers; every reader is
    [Reset] on checkout, so which one comes back does not matter.) *)
Definition Pool_Get : M nat :=
  fun w =>
    match pool w with
    | id :: rest => Some (id, set_pool rest w)
    | [] =>
        let id := fresh (dom (bufs w)) in
        Some (id, set_bufs (<[id := bufio.NewReaderSize (32 * 1024)]> (bufs w)) w)
    end.

(** [bufioReader32KPool.Put(x)] *)
Definition Pool_Put (id : nat) : M unit :=
  modify (fun w => set_pool_puts (id :: pool_puts w) (set_pool (id :: pool w) w)).

(** [buf.Reset(r)] on the reader stored at [id]. *)
Definition bufio_Reset (id : nat) (r : option nat) : M unit :=
  fun w =>
    match bufs w !! id with
    | None => None
    | Some b => Some (tt, set_bufs (<[id := bufio.Reset r b]> (bufs w)) w)
    end.

(** [type bufferedReader struct { buf *bufio.Reader }] *)
Record bufferedReader : Type := mkBuffered { buf : option nat }.

Definition newBufferedReader (r : nat) : M bufferedReader :=
  let* id := Pool_Get in
  bufio_Reset id (Some r) ;;
  ret (mkBuffered (Some id)).

(** [func (r *bufferedReader) Read(p []byte) (n int, err error)] *)
Definition bufferedReader_Read (r : bufferedReader) (k : N)
  : M ((list byte * option error) * bufferedReader) :=
  match buf r with
  | None => ret (([], Some EOF), r)
  | Some id =>
      let* res := on_bufio id (bufio.Read k) in
      if is_EOF (snd res) then
        bufio_Reset id None ;;
        Pool_Put id ;;
        ret (res, mkBuffered None)
      else ret (res, r)
  end.

(** [func (r *bufferedReader) Peek(n int) ([]byte, error)] *)
Definition bufferedReader_Peek (r : bufferedReader) (n : Z)
  : M (list byte * option error) :=
  match buf r with
  | None => ret ([], Some EOF)
  | Some id => on_bufio id (bufio.Peek n)
  end.

(** The bytes a reader has still to deliver: what is buffered, then what
    the wrapped stream holds.  This is the logical read position. *)
Definition unread (r : bufferedReader) (w : World) : list byte :=
  match buf r with
  | None => []
  | Some id =>
      match bufs w !! id with
      | None => []
      | Some b =>
          b_data b ++ match b_rd b with
                      | Some sid => match srcs w !! sid with
                                    | Some s => src_bytes s
                                    | None => []
                                    end
                      | None => []
                      end
      end
  end.

(** A reader as [newBufferedReader] leaves it and [Read]/[Peek] keep it:
    its [bufio.Reader] is allocated, wraps an existing stream, and holds
    no more than its buffer can. *)
Definition attached (r : bufferedReader) (w : World) : Prop :=
  match buf r with
  | None => True
  | Some id =>
      exists b sid s,
        bufs w !! id = Some b /\ b_rd b = Some sid /\ srcs w !! sid = Some s
        /\ (N.of_nat (length (b_data b)) <= b_size b)%N
  end.

(** A caller's calls on one reader. *)
Inductive call : Type :=
| CallRead (k : N)
| CallPeek (n : Z).

Definition do_call (c : call) (r : bufferedReader)
  : M ((list byte * option error) * bufferedReader) :=
  match c with
  | CallRead k => bufferedReader_Read r k
  | CallPeek n => let* res := bufferedReader_Peek r n in ret (res, r)
  end.

Fixpoint do_calls (cs : list call) (r : bufferedReader)
  : M (list (list byte * option error) * bufferedReader) :=
  match cs with
  | [] => ret ([], r)
  | c :: cs' =>
      let* (res, r1) := do_call c r in
      let* (ress, r2) := do_calls cs' r1 in
      ret (res :: ress, r2)
  end.

(* ------------------------------------------------------------------ *)
(** ** io.Pipe and os/exec, as far as cmdStream uses them *)

Module Pipe.

Definition idle : Bridge :=
  mkBridge (mkProcess None [] "" None) [] [] None None false false.

(** The pipe's [done] channel is closed. *)
Definition done (p : Bridge) : bool :=
  rclosed p || match werr p with Some _ => true | None => false end.

(** [readCloseError] *)
Definition readCloseError (p : Bridge) : error :=
  match rclosed p, werr p with
  | false, Some e => e
  | _, _ => ErrClosedPipe
  end.

(** [PipeWriter.CloseWithError(err)]: a nil error becomes [io.EOF],
    and an earlier close is never overwritten. *)
Definition CloseWithError (err : option error) (p : Bridge) : Bridge :=
  match werr p with
  | Some _ => p
  | None =>
      mkBridge (proc p) (unsent p) (inflight p) (copy_error p)
               (Some (match err with Some e => e | None => EOF end))
               (rclosed p) (supervising p)
  end.

(** [PipeWriter.Close()] *)
Definition CloseWriter (p : Bridge) : Bridge := CloseWithError None p.

(** [PipeReader.Close()] *)
Definition CloseReader (p : Bridge) : Bridge :=
  mkBridge (proc p) (unsent p) (inflight p) (copy_error p) (werr p)
           true (supervising p).

(** [PipeReader.Read(b)], [k = len(b)]: [None] while it blocks. *)
Definition read_step (k : N) (p : Bridge)
  : option ((list byte * option error) * Bridge) :=
  if done p then Some (([], Some (readCloseError p)), p)
  else match inflight p with
       | [] => None
       | bs => Some ((take (N.to_nat k) bs, None),
                     mkBridge (proc p) (unsent p) (drop (N.to_nat k) bs) (copy_error p)
                              (werr p) (rclosed p) (supervising p))
       end.

(** One turn of the goroutine [os/exec] runs to copy the process's
    standard output into [cmd.Stdout]: its next [Write] enters the pipe,
    or, the pipe being closed, fails and ends the copying.  [None] while
    the previous write is still blocked, or when nothing is left. *)
Definition copy_step (p : Bridge) : option Bridge :=
  match inflight p, unsent p with
  | [], c :: rest =>
      if done p then
        Some (mkBridge (proc p) [] [] (Some ErrClosedPipe) (werr p)
                       (rclosed p) (supervising p))
      else
        Some (mkBridge (proc p) rest c (copy_error p) (werr p)
                       (rclosed p) (supervising p))
  | _ :: _, _ =>
      if done p then
        Some (mkBridge (proc p) [] [] (Some ErrClosedPipe) (werr p)
                       (rclosed p) (supervising p))
      else None
  | [], [] => None
  end.

(** [cmd.Wait()]: blocks ([None]) until the process has exited and its
    output has been copied; then the exit error, or failing that the
    error of the copying. *)
Definition Wait (p : Bridge) : option (option error) :=
  match unsent p, inflight p with
  | [], [] => Some (match wait_error (proc p) with
                    | Some e => Some e
                    | None => copy_error p
                    end)
  | _, _ => None
  end.

(** [fmt.Errorf("%s: %s", err, errBuf.String())] *)
Definition wrap_exit (err : error) (errBuf : string) : error :=
  ErrorString (Error err ++ ": " ++ errBuf).

(** The goroutine of [cmdStream]:
    [if err := cmd.Wait(); err != nil { writer.CloseWithError(...) }
     else { writer.Close() }].  [None] while [Wait] blocks or once the
    goroutine has returned. *)
Definition supervise_step (p : Bridge) : option Bridge :=
  if supervising p then
    match Wait p with
    | None => None
    | Some res =>
        let p' := mkBridge (proc p) (unsent p) (inflight p) (copy_error p)
                           (werr p) (rclosed p) false in
        Some (match res with
              | Some err => CloseWithError (Some (wrap_exit err (stderr (proc p)))) p'
              | None => CloseWriter p'
              end)
    end
  else None.

(** What can happen next on a bridge: the caller reads, or one of the
    two goroutines behind the pipe moves. *)
Inductive label : Type :=
| LRead (k : N)
| LCopy
| LSupervise.

Definition step (l : label) (p : Bridge)
  : option (option (list byte * option error) * Bridge) :=
  match l with
  | LRead k => match read_step k p with
               | Some (r, p') => Some (Some r, p')
               | None => None
               end
  | LCopy => match copy_step p with
             | Some p' => Some (None, p')
             | None => None
             end
  | LSupervise => match supervise_step p with
                  | Some p' => Some (None, p')
                  | None => None
                  end
  end.

(** Run a schedule, skipping the moves that are not enabled, and collect
    what the caller's reads returned. *)
Fixpoint run (sched : list label) (p : Bridge)
  : list (list byte * option error) * Bridge :=
  match sched with
  | [] => ([], p)
  | l :: sched' =>
      match step l p with
      | None => run sched' p
      | Some (o, p') =>
          let '(os, p'') := run sched' p' in
          (match o with Some r => r :: os | None => os end, p'')
      end
  end.

(** The goroutine behind the pipe that can move, if any. *)
Definition background (p : Bridge) : option Bridge :=
  match copy_step p with
  | Some p' => Some p'
  | None => supervise_step p
  end.

(** A blocking [Read]: the goroutines behind the pipe run until the read
    is served.  [None] if the read would block for ever. *)
Fixpoint Read (turns : nat) (k : N) (p : Bridge)
  : option ((list byte * option error) * Bridge) :=
  match read_step k p with
  | Some r => Some r
  | None =>
      match turns with
      | O => None
      | S t => match background p with
               | Some p' => Read t k p'
               | None => None
               end
      end
  end.

(** Read with a [k]-byte buffer until a read reports an error; the bytes
    gathered and that error.  [None] if [n] reads do not get there. *)
Fixpoint ReadAll (n : nat) (k : N) (p : Bridge)
  : option (list byte * error * Bridge) :=
  match n with
  | O => None
  | S n' =>
      match Read (2 + length (unsent p)) k p with
      | None => None
      | Some ((bs, Some e), p') => Some (bs, e, p')
      | Some ((bs, None), p') =>
          match ReadAll n' k p' with
          | Some (rest, e, p'') => Some (bs ++ rest, e, p'')
          | None => None
          end
      end
  end.

(** The bytes the process has still to get through the pipe. *)
Definition pending (p : Bridge) : list byte := inflight p ++ concat (unsent p).

End Pipe.

(** [*exec.Cmd] *)
Record Cmd : Type := mkCmd {
  cmd_ctx : nat;
  cmd_args : list string
}.

(** [exec.CommandContext(ctx, name, arg...)] *)
Definition CommandContext (ctx : nat) (name : string) (arg : list string) : Cmd :=
  mkCmd ctx (name :: arg).

(** The operating system and the Go runtime, as the package meets them. *)
Record Env : Type := mkEnv {
  range_order : list (Z * Detect.matcher);  (* the order [range] yields the matcher map in *)
  Getenv : string -> string;               (* os.Getenv *)
  LookPath : string -> option string;      (* exec.LookPath *)
  spawn : list string -> Process           (* what running a command line does *)
}.

(** [io.Pipe()] *)
Definition io_Pipe : M nat :=
  fun w =>
    let pid := fresh (dom (pipes w)) in
    Some (pid, set_pipes (<[pid := Pipe.idle]> (pipes w)) w).

(** [cmd.Start()], with [cmd.Stdout] the write side of pipe [pid]. *)
Definition cmd_Start (env : Env) (cmd : Cmd) (pid : nat) : M (option error) :=
  fun w =>
    let p := spawn env (cmd_args cmd) in
    match start_error p with
    | Some err => Some (Some err, w)
    | None =>
        Some (None,
              set_pipes (<[pid := mkBridge p (stdout p) [] None None false false]>
                           (pipes w)) w)
    end.

(** The [go func() { ... }()] statement of [cmdStream]. *)
Definition go_supervise (pid : nat) : M unit :=
  fun w =>
    match pipes w !! pid with
    | None => None
    | Some p =>
        Some (tt, set_pipes (<[pid := mkBridge (proc p) (unsent p) (inflight p)
                                          (copy_error p) (werr p) (rclosed p) true]>
                               (pipes w)) w)
    end.

(** [func cmdStream(cmd *exec.Cmd, in io.Reader) (io.ReadCloser, error)].
    The process is an oracle: what it does with [in] is not followed. *)
Definition cmdStream (env : Env) (cmd : Cmd) (input : bufferedReader)
  : M (nat + error) :=
  let* pid := io_Pipe in
  let* started := cmd_Start env cmd pid in
  match started with
  | Some err => ret (inr err)
  | None => go_supervise pid ;; ret (inl pid)
  end.

(** [PipeReader.Close()] on the pipe stored at [pid]. *)
Definition PipeReader_Close (pid : nat) : M (option error) :=
  fun w =>
    match pipes w !! pid with
    | None => None
    | Some p => Some (None, set_pipes (<[pid := Pipe.CloseReader p]> (pipes w)) w)
    end.

(** A blocking [PipeReader.Read] on the pipe stored at [pid]. *)
Definition PipeReader_Read (pid : nat) (k : N) : M (list byte * option error) :=
  fun w =>
    match pipes w !! pid with
    | None => None
    | Some p =>
        match Pipe.Read (2 + length (unsent p)) k p with
        | None => None
        | Some (r, p') => Some (r, set_pipes (<[pid := p']> (pipes w)) w)
        end
    end.

(* ------------------------------------------------------------------ *)
(** ** Stream dispatch *)

(** The codecs are black boxes: [compress/gzip], [compress/bzip2] and
    [klauspost/compress/zstd], each with the type of its reader or writer
    object and the calls the package makes on it. *)
Record Codecs : Type := mkCodecs {
  GzipR : Type;
  ZstdR : Type;
  Bzip2R : Type;
  GzipW : Type;
  ZstdW : Type;
  gzip_NewReader : bufferedReader -> M (GzipR + error);
  gzip_Read : GzipR -> N -> M ((list byte * option error) * GzipR);
  gzip_Close : GzipR -> M (option error);
  zstd_NewReader : bufferedReader -> M (ZstdR + error);
  zstd_Read : ZstdR -> N -> M ((list byte * option error) * ZstdR);
  zstd_Close : ZstdR -> M unit;
  bzip2_NewReader : bufferedReader -> M Bzip2R;
  bzip2_Read : Bzip2R -> N -> M ((list byte * option error) * Bzip2R);
  gzip_NewWriter : nat -> M GzipW;
  zstd_NewWriter : nat -> M (ZstdW + error)
}.

Definition disablePigzEnv : string := "CONTAINERD_DISABLE_PIGZ".
Definition disableIgzipEnv : string := "CONTAINERD_DISABLE_IGZIP".

(** [strconv.ParseBool] *)
Definition ParseBool (str : string) : bool * option error :=
  if existsb (String.eqb str) ["1"; "t"; "T"; "TRUE"; "true"; "True"]%string
  then (true, None)
  else if existsb (String.eqb str) ["0"; "f"; "F"; "FALSE"; "false"; "False"]%string
  then (false, None)
  else (false, Some (ErrorString ("strconv.ParseBool: parsing " ++ str ++ ": invalid syntax"))).

(** [func detectCommand(path, disableEnvName string) string] *)
Definition detectCommand (env : Env) (path disableEnvName : string) : string :=
  let value := Getenv env disableEnvName in
  if negb (String.eqb value "") && fst (ParseBool value) then ""%string
  else match LookPath env path with
       | None => ""%string
       | Some path => path
       end.

(** [initGzip.Do(func() { ... })], then the value of [gzipPath]. *)
Definition initGzip_Do (env : Env) : M string :=
  fun w =>
    match gzip_once w with
    | Some gzipPath => Some (gzipPath, w)
    | None =>
        let igzip := detectCommand env "igzip" disableIgzipEnv in
        let gzipPath :=
          if negb (String.eqb igzip "") then igzip
          else detectCommand env "unpigz" disablePigzEnv in
        Some (gzipPath, set_gzip_once (Some gzipPath) w)
    end.

(** [context.WithCancel(context.Background())] and the [cancel] it returns. *)
Definition WithCancel : M nat :=
  fun w => Some (next_ctx w, set_next_ctx (S (next_ctx w)) w).

Definition cancel (ctx : nat) : M unit :=
  modify (fun w => set_cancelled (ctx :: cancelled w) w).

(** [fmt.Errorf("unsupported compression format %s", ext)] *)
Definition unsupported (ext : string) : error :=
  ErrorString ("unsupported compression format " ++ ext).

Section Dispatch.

Variable C : Codecs.
Variable env : Env.

(** The [io.ReadCloser] a decompressor hands back: a [*gzip.Reader] or
    the read side of a pipe. *)
Inductive ReadCloser : Type :=
| RcGzip (z : GzipR C)
| RcPipe (pid : nat).

Definition ReadCloser_Close (rc : ReadCloser) : M (option error) :=
  match rc with
  | RcGzip z => gzip_Close C z
  | RcPipe pid => PipeReader_Close pid
  end.

(** The readers a [readCloserWrapper] embeds. *)
Inductive Reader : Type :=
| RdBuffered (r : bufferedReader)
| RdCloser (rc : ReadCloser)
| RdZstd (z : ZstdR C)
| RdBzip2 (z : Bzip2R C).

Record readCloserWrapper : Type := mkReadCloserWrapper {
  rcw_Reader : Reader;
  compression : Z;
  closer : option (M (option error))
}.

(** [func (r *readCloserWrapper) Close() error] *)
Definition readCloserWrapper_Close (r : readCloserWrapper) : M (option error) :=
  match closer r with
  | Some f => f
  | None => ret None
  end.

(** [func (r *readCloserWrapper) GetCompression() Compression] *)
Definition GetCompression (r : readCloserWrapper) : Z := compression r.

(** [Read] of the embedded [io.Reader]. *)
Definition readCloserWrapper_Read (r : readCloserWrapper) (k : N)
  : M ((list byte * option error) * readCloserWrapper) :=
  let put rd := mkReadCloserWrapper rd (compression r) (closer r) in
  match rcw_Reader r with
  | RdBuffered b =>
      let* (res, b') := bufferedReader_Read b k in ret (res, put (RdBuffered b'))
  | RdCloser (RcGzip z) =>
      let* (res, z') := gzip_Read C z k in ret (res, put (RdCloser (RcGzip z')))
  | RdCloser (RcPipe pid) =>
      let* res := PipeReader_Read pid k in ret (res, r)
  | RdZstd z =>
      let* (res, z') := zstd_Read C z k in ret (res, put (RdZstd z'))
  | RdBzip2 z =>
      let* (res, z') := bzip2_Read C z k in ret (res, put (RdBzip2 z'))
  end.

(** [func xzDecompress(ctx context.Context, archive io.Reader)] *)
Definition xzDecompress (ctx : nat) (archive : bufferedReader) : M (ReadCloser + error) :=
  let args := ["xz"; "-d"; "-c"; "-q"]%string in
  let* r := cmdStream env (CommandContext ctx (hd ""%string args) (tl args)) archive in
  ret (match r with inl pid => inl (RcPipe pid) | inr err => inr err end).

(** [func gzipDecompress(ctx context.Context, buf io.Reader)] *)
Definition gzipDecompress (ctx : nat) (buf : bufferedReader) : M (ReadCloser + error) :=
  let* gzipPath := initGzip_Do env in
  if String.eqb gzipPath "" then
    let* r := gzip_NewReader C buf in
    ret (match r with inl z => inl (RcGzip z) | inr err => inr err end)
  else
    let* r := cmdStream env (CommandContext ctx gzipPath ["-d"; "-c"]%string) buf in
    ret (match r with inl pid => inl (RcPipe pid) | inr err => inr err end).

(** The [switch] of [DecompressStream]; [err] is the variable the
    [Peek] assigned, which the [Bzip2] case reads again. *)
Definition DecompressStream_switch (err : option error) (compression : Z)
    (buf : bufferedReader) : M (readCloserWrapper + error) :=
  if compression =? Uncompressed then
    ret (inl (mkReadCloserWrapper (RdBuffered buf) compression None))
  else if compression =? Gzip then
    let* ctx := WithCancel in
    let* r := gzipDecompress ctx buf in
    match r with
    | inr err => cancel ctx ;; ret (inr err)
    | inl gzReader =>
        ret (inl (mkReadCloserWrapper (RdCloser gzReader) compression
                    (Some (cancel ctx ;; ReadCloser_Close gzReader))))
    end
  else if compression =? Zstd then
    let* r := zstd_NewReader C buf in
    match r with
    | inr err => ret (inr err)
    | inl zstdReader =>
        ret (inl (mkReadCloserWrapper (RdZstd zstdReader) compression
                    (Some (zstd_Close C zstdReader ;; ret None))))
    end
  else if compression =? Xz then
    let* ctx := WithCancel in
    let* r := xzDecompress ctx buf in
    match r with
    | inr err => cancel ctx ;; ret (inr err)
    | inl xzReader =>
        ret (inl (mkReadCloserWrapper (RdCloser xzReader) compression
                    (Some (cancel ctx ;; ReadCloser_Close xzReader))))
    end
  else if compression =? Bzip2 then
    let* bzip2Reader := bzip2_NewReader C buf in
    match err with
    | Some err => ret (inr err)
    | None =>
        ret (inl (mkReadCloserWrapper (RdBzip2 bzip2Reader) compression
                    (Some (ret None))))
    end
  else ret (inr (unsupported (Extension compression))).

(** [func DecompressStream(archive io.Reader) (DecompressReadCloser, error)] *)
Definition DecompressStream (archive : nat) : M (readCloserWrapper + error) :=
  let* buf := newBufferedReader archive in
  let* (bs, err) := bufferedReader_Peek buf 10 in
  match err with
  | Some e =>
      if negb (is_EOF err) then ret (inr e)
      else DecompressStream_switch err
             (Detect.DetectCompression (range_order env) bs) buf
  | None =>
      DecompressStream_switch err
        (Detect.DetectCompression (range_order env) bs) buf
  end.

(** The [io.WriteCloser]s [CompressStream] hands back. *)
Inductive WriteCloser : Type :=
| WcWrapper (dest : nat) (closer : option (M (option error)))
| WcGzip (z : GzipW C)
| WcZstd (z : ZstdW C).

(** [func (w *writeCloserWrapper) Close() error] *)
Definition writeCloserWrapper_Close (closer : option (M (option error)))
  : M (option error) :=
  match closer with
  | Some f => f ;; ret None
  | None => ret None
  end.

(** [func CompressStream(dest io.Writer, compression Compression)] *)
Definition CompressStream (dest : nat) (compression : Z) : M (WriteCloser + error) :=
  if compression =? Uncompressed then ret (inl (WcWrapper dest None))
  else if compression =? Gzip then
    let* z := gzip_NewWriter C dest in ret (inl (WcGzip z))
  else if compression =? Zstd then
    let* r := zstd_NewWriter C dest in
    ret (match r with inl z => inl (WcZstd z) | inr err => inr err end)
  else ret (inr (unsupported (Extension compression))).

End Dispatch.

Arguments RcGzip {C} z.
Arguments RcPipe {C} pid.
Arguments RdBuffered {C} r.
Arguments RdCloser {C} rc.
Arguments RdZstd {C} z.
Arguments RdBzip2 {C} z.
Arguments mkReadCloserWrapper {C} _ _ _.
Arguments rcw_Reader {C} _.
Arguments compression {C} _.
Arguments closer {C} _.
Arguments readCloserWrapper_Close {C} r.
Arguments GetCompression {C} r.
Arguments WcWrapper {C} dest closer.
Arguments WcGzip {C} z.
Arguments WcZstd {C} z.

(* ------------------------------------------------------------------ *)
(** ** Predicates the statements are written with *)

(** The first byte of a window decides which entry can accept it. *)
Definition opens (c : Z) (b0 : byte) : Prop :=
  (c = Gzip /\ b0 = x1f)
  \/ (c = Zstd /\ (b0 = x28 \/ 0x50 <= Detect.byteZ b0 <= 0x5F))
  \/ (c = Bzip2 /\ b0 = x42)
  \/ (c = Xz /\ b0 = xfd).

(** What a method may do to the reader and its stream: move bytes from
    the head of the stream to the tail of the buffer. *)
Definition refills (b : bufioReader) (s : Source)
    (b' : bufioReader) (s' : Source) : Prop :=
  exists ext : list byte,
    b_data b' = b_data b ++ ext
    /\ src_bytes s = ext ++ src_bytes s'
    /\ b_size b' = b_size b /\ b_rd b' = b_rd b
    /\ (N.of_nat (length (b_data b')) <= b_size b)%N.

(** The reader [r] uses the [bufio.Reader] [b] stored at [id], which
    wraps the stream [s] stored at [sid]. *)
Definition holds (r : bufferedReader) (w : World)
    (id : nat) (b : bufioReader) (sid : nat) (s : Source) : Prop :=
  buf r = Some id /\ bufs w !! id = Some b /\ b_rd b = Some sid
  /\ srcs w !! sid = Some s /\ (N.of_nat (length (b_data b)) <= b_size b)%N.

(** The store after a [bufio] method has run. *)
Definition stored (id : nat) (b : bufioReader) (sid : nat) (s : Source)
    (w : World) : World :=
  set_srcs (<[sid := s]> (srcs w)) (set_bufs (<[id := b]> (bufs w)) w).

(** The call is a [Read] and it reported end-of-data. *)
Definition read_eof (c : call) (res : list byte * option error) : bool :=
  match c with
  | CallRead _ => is_EOF (snd res)
  | CallPeek _ => false
  end.

(** Every idle reader of the pool is allocated, with a buffer of at least
    [bufio]'s minimum size. *)
Definition pool_ok (w : World) : Prop :=
  forall id, id ∈ pool w -> exists b, bufs w !! id = Some b /\ (16 <= b_size b)%N.

(** A stream that delivers its bytes in non-empty reads, without error,
    and then reports end-of-data. *)
Definition clean (s : Source) : Prop :=
  Forall (fun ev => match ev with Chunk bs e => bs <> [] /\ e = None end) s.

(** A stream that delivers fewer than ten bytes before end-of-data. *)
Definition short_stream (s : Source) : Prop :=
  clean s /\ (length (src_bytes s) < 10)%nat.

(** The bridge right after [cmdStream] has returned a reader. *)
Definition started (p : Process) : Bridge :=
  mkBridge p (stdout p) [] None None false true.

(** The error the reader meets once the process's output is used up. *)
Definition terminal (p : Process) : error :=
  match wait_error p with
  | Some err => Pipe.wrap_exit err (stderr p)
  | None => EOF
  end.

(** What a caller may see on a bridge of [p] after [seen]: bytes that
    continue the process's output, and, only once all of it has been
    seen, the terminal error with no bytes. *)
Fixpoint faithful (p : Process) (seen : list byte)
    (obs : list (list byte * option error)) : Prop :=
  match obs with
  | [] => True
  | (bs, None) :: rest =>
      (seen ++ bs) `prefix_of` concat (stdout p) /\ faithful p (seen ++ bs) rest
  | (bs, Some e) :: rest =>
      bs = [] /\ e = terminal p /\ seen = concat (stdout p) /\ faithful p seen rest
  end.

(** What holds of a bridge whose reader only reads. *)
Definition Inv (p : Process) (seen : list byte) (B : Bridge) : Prop :=
  proc B = p /\ rclosed B = false /\ copy_error B = None
  /\ seen ++ Pipe.pending B = concat (stdout p)
  /\ ((werr B = None /\ supervising B = true)
      \/ (werr B = Some (terminal p) /\ supervising B = false
          /\ unsent B = [] /\ inflight B = [])).

Ltac read_done :=
  repeat split; simpl; auto; try congruence; try lia;
  try (rewrite length_drop; lia).

(* ------------------------------------------------------------------ *)
(** ** Further predicates and derived operations *)

(** The values of a disabling variable that [strconv.ParseBool] reads as
    true. *)
Definition disabling : list string := ["1"; "t"; "T"; "TRUE"; "true"; "True"]%string.

(** A [bufio.Reader] over a stream that reads cleanly: the only error it
    can have stored is the end-of-data of a stream that is used up. *)
Definition tidy (b : bufioReader) (s : Source) : Prop :=
  clean s /\ (b_err b = None \/ (b_err b = Some EOF /\ s = [])).

(** Read the handle with a [k]-byte buffer until a [Read] reports an
    error: the bytes gathered, and that error.  A panic when [n] reads do
    not get there. *)
Fixpoint read_to_end (C : Codecs) (n : nat) (k : N) (h : readCloserWrapper C)
  : M (list byte * error) :=
  match n with
  | O => panic
  | S n' =>
      let* (res, h') := readCloserWrapper_Read C h k in
      match snd res with
      | Some e => ret (fst res, e)
      | None =>
          let* (rest, e) := read_to_end C n' k h' in
          ret (fst res ++ rest, e)
      end
  end.

(** A stream that, after fewer than ten bytes read cleanly, fails with
    the error [e]. *)
Definition fails_early (s : Source) (e : error) : Prop :=
  exists pre bs rest,
    s = pre ++ Chunk bs (Some e) :: rest
    /\ clean pre /\ (length (src_bytes pre) + length bs < 10)%nat.

(** The bytes the [Read]s among the calls [cs] returned, in order. *)
Fixpoint delivered (cs : list call) (outs : list (list byte * option error))
  : list byte :=
  match cs, outs with
  | CallRead _ :: cs', res :: outs' => fst res ++ delivered cs' outs'
  | CallPeek _ :: cs', _ :: outs' => delivered cs' outs'
  | _, _ => []
  end.

(** A [Read] into [k] bytes returned no more than [k]. *)
Definition fits (c : call) (res : list byte * option error) : Prop :=
  match c with
  | CallRead k => (N.of_nat (length (fst res)) <= k)%N
  | CallPeek _ => True
  end.


(* ------------------------------------------------------------------ *)
(** ** A concrete machine, for running the definitions *)

Module Sample.

(** Codecs that open without reading and never fail. *)
Definition codecs : Codecs :=
  mkCodecs unit unit unit unit unit
    (fun _ => ret (inl tt))
    (fun z _ => ret (([], Some EOF), z))
    (fun _ => ret None)
    (fun _ => ret (inl tt))
    (fun z _ => ret (([], Some EOF), z))
    (fun _ => ret tt)
    (fun _ => ret tt)
    (fun z _ => ret (([], Some EOF), z))
    (fun _ => ret tt)
    (fun _ => ret (inl tt)).

Definition not_found (name : string) : error :=
  ErrorString ("exec: " ++ name ++ ": executable file not found in $PATH").

(** A machine with no external decoder installed. *)
Definition bare : Env :=
  mkEnv Detect.literal_order
        (fun _ => ""%string)
        (fun _ => None)
        (fun argv => mkProcess (Some (not_found (hd ""%string argv))) [] "" None).

(** A machine whose [xz] writes two chunks and exits with status 1. *)
Definition exit1 : error := ErrorString "exit status 1".

Definition failing_xz : Process :=
  mkProcess None [[x61; x62]; [x63]] "xz: (stdin): File format not recognized"
            (Some exit1).

Definition with_xz : Env :=
  mkEnv (rev Detect.literal_order)
        (fun _ => ""%string)
        (fun name => if String.eqb name "xz" then Some "/usr/bin/xz"%string else None)
        (fun _ => failing_xz).

(** A store holding the stream [s] as reader 0 and nothing else. *)
Definition world (s : Source) : World :=
  mkWorld {[ 0%nat := s ]} ∅ ∅ [] [] ∅ [] 0 None.

(** A reader in mid-use: buffer 0, freshly reset on stream 0. *)
Definition reader : bufferedReader := mkBuffered (Some 0%nat).

Definition reading (s : Source) : World :=
  mkWorld {[ 0%nat := s ]} ∅ {[ 0%nat := mkBufio 32768 (Some 0%nat) [] None ]}
          [] [] ∅ [] 0 None.

(** What two [Peek]s in a row return. *)
Definition peek_twice (s : Source) (n1 n2 : Z)
  : option ((list byte * option error) * (list byte * option error)) :=
  match bufferedReader_Peek reader n1 (reading s) with
  | Some (r1, w1) =>
      match bufferedReader_Peek reader n2 w1 with
      | Some (r2, _) => Some (r1, r2)
      | None => None
      end
  | None => None
  end.

(** A stream whose second read fails once, as a connection with a read
    deadline does, and then goes on. *)
Definition flaky : Source :=
  [ Chunk [x61; x62] None;
    Chunk [] (Some (ErrorString "i/o timeout"));
    Chunk [x63; x64] None ].

(** What [DecompressStream] answers on stream [s]: the algorithm the
    handle reports, or the error. *)
Definition opened (env : Env) (s : Source) : option (Z + error) :=
  match DecompressStream codecs env 0 (world s) with
  | Some (inl h, _) => Some (inl (GetCompression h))
  | Some (inr e, _) => Some (inr e)
  | None => None
  end.

(** The first [Read], into [k] bytes, on the handle opened on [s]. *)
Definition open_then_read (env : Env) (s : Source) (k : N)
  : option (list byte * option error) :=
  match DecompressStream codecs env 0 (world s) with
  | Some (inl h, w) =>
      match readCloserWrapper_Read codecs h k w with
      | Some ((res, _), _) => Some res
      | None => None
      end
  | _ => None
  end.

End Sample.

(** Further streams, machines and stores. *)
Module Cases.

(** A decoder process that writes two chunks and exits with status 0. *)
Definition decoded : Process := mkProcess None [[x68; x69]; [x0a]] "" None.

(** A machine where igzip is switched off, the variable for unpigz holds
    a value that does not parse, and every command is found. *)
Definition tooled : Env :=
  mkEnv Detect.literal_order
        (fun name => if String.eqb name disableIgzipEnv then "1"
                     else if String.eqb name disablePigzEnv then "yes"
                     else "")%string
        (fun name => Some ("/usr/bin/" ++ name)%string)
        (fun _ => decoded).

(** A store holding the stream [s] as reader 0, in a program that has
    already settled on unpigz. *)
Definition settled (s : Source) : World :=
  mkWorld {[ 0%nat := s ]} ∅ ∅ [] [] ∅ [] 0 (Some "/usr/bin/unpigz"%string).

(** Thirteen bytes of text, in two reads. *)
Definition text : Source :=
  [ Chunk [x68; x65; x6c; x6c; x6f] None;
    Chunk [x20; x77; x6f; x72; x6c; x64; x21; x0a] None ].

Definition xz_stream : Source :=
  [ Chunk [xfd; x37; x7a; x58; x5a; x00; x00; x04] None;
    Chunk [xe6; xd6; xb4; x46] None ].

Definition gzip_stream : Source := [ Chunk [x1f; x8b; x08; x00] None ].

Definition zstd_stream : Source := [ Chunk [x28; xb5; x2f; xfd; x04] None ].

Definition bzip2_short : Source := [ Chunk [x42; x5a; x68] None ].

End Cases.

(* ================================================================== *)
(** * Properties *)

Module DetectFacts.
Import Detect.

Lemma bytes_Equal_eq (a b : list byte) : bytes_Equal a b = true <-> a = b.
Proof.
  revert b; induction a as [|x a IH]; intros [|y b]; simpl; split;
    try congruence; try reflexivity.
  - intros H. apply andb_prop in H as [Hxy Hab].
    apply byte_dec_bl in Hxy. apply IH in Hab. congruence.
  - intros H. injection H as -> ->.
    rewrite (byte_dec_lb eq_refl). simpl. apply IH. reflexivity.
Qed.

Lemma HasPrefix_spec (s p : list byte) : HasPrefix s p = true <-> p `prefix_of` s.
Proof.
  unfold HasPrefix. rewrite andb_true_iff, bytes_Equal_eq, Nat.leb_le. split.
  - intros [_ H]. rewrite <- H. apply prefix_take.
  - intros [t ->]. rewrite length_app, take_app_length. split; [lia | reflexivity].
Qed.

Lemma HasPrefix_false (s p : list byte) : HasPrefix s p = false <-> ~ p `prefix_of` s.
Proof.
  rewrite <- HasPrefix_spec. destruct (HasPrefix s p); split; congruence.
Qed.

Lemma byteZ_range (b : byte) : 0 <= byteZ b < 256.
Proof. unfold byteZ. pose proof (to_N_bounded b). lia. Qed.

Lemma lor_shiftl_add (a b n : Z) :
  0 <= n -> 0 <= a < 2 ^ n -> Z.lor a (Z.shiftl b n) = a + b * 2 ^ n.
Proof.
  intros Hn Ha. rewrite <- Z.shiftl_mul_pow2 by lia.
  symmetry. apply Z.add_nocarry_lor. apply Z.bits_inj'. intros i Hi.
  rewrite Z.land_spec, Z.bits_0.
  destruct (Z.lt_ge_cases i n) as [Hlt | Hge].
  - rewrite Z.shiftl_spec_low by lia. apply andb_false_r.
  - replace a with (a mod 2 ^ n) by (apply Z.mod_small; lia).
    rewrite Z.mod_pow2_bits_high by lia. reflexivity.
Qed.

Lemma Uint32_le32 (b0 b1 b2 b3 : byte) (rest : list byte) :
  Uint32 (b0 :: b1 :: b2 :: b3 :: rest) = Some (le32_value b0 b1 b2 b3).
Proof.
  unfold Uint32, le32_value.
  pose proof (byteZ_range b0). pose proof (byteZ_range b1).
  pose proof (byteZ_range b2). pose proof (byteZ_range b3).
  rewrite (lor_shiftl_add (byteZ b0) (byteZ b1) 8) by lia.
  rewrite (lor_shiftl_add _ (byteZ b2) 16) by lia.
  rewrite (lor_shiftl_add _ (byteZ b3) 24) by lia.
  f_equal. lia.
Qed.

Lemma le32_range (b0 b1 b2 b3 : byte) : 0 <= le32_value b0 b1 b2 b3 < 2 ^ 32.
Proof.
  unfold le32_value.
  pose proof (byteZ_range b0). pose proof (byteZ_range b1).
  pose proof (byteZ_range b2). pose proof (byteZ_range b3). lia.
Qed.

Lemma mask_clears_low_nibble (v : Z) :
  0 <= v < 2 ^ 32 -> Z.land v zstdMagicSkippableMask = clear_low_nibble v.
Proof.
  intros Hv. unfold clear_low_nibble, zstdMagicSkippableMask.
  replace (v - v mod 16) with (Z.shiftl (Z.shiftr v 4) 4).
  2:{ rewrite Z.shiftl_mul_pow2, Z.shiftr_div_pow2 by lia.
      change (2 ^ 4) with 16. pose proof (Z.div_mod v 16). lia. }
  apply Z.bits_inj'. intros i Hi.
  rewrite Z.land_spec.
  change 0xFFFFFFF0 with (Z.shiftl (Z.ones 28) 4).
  destruct (Z.lt_ge_cases i 4) as [Hlt | Hge].
  - rewrite !Z.shiftl_spec_low by lia. apply andb_false_r.
  - rewrite !Z.shiftl_spec by lia. rewrite Z.shiftr_spec by lia.
    replace (i - 4 + 4) with i by lia.
    destruct (Z.lt_ge_cases i 32) as [Hlt | Hge'].
    + rewrite Z.ones_spec_low by lia. apply andb_true_r.
    + rewrite Z.ones_spec_high by lia. rewrite andb_false_r.
      replace v with (v mod 2 ^ 32) by (apply Z.mod_small; lia).
      rewrite Z.mod_pow2_bits_high by lia. reflexivity.
Qed.

Lemma zstdMatcher_long (b0 b1 b2 b3 : byte) (rest : list byte) :
  (8 <= length (b0 :: b1 :: b2 :: b3 :: rest))%nat ->
  zstdMatcher (b0 :: b1 :: b2 :: b3 :: rest) =
    HasPrefix (b0 :: b1 :: b2 :: b3 :: rest) zstdMagic
    || (clear_low_nibble (le32_value b0 b1 b2 b3) =? zstdMagicSkippableStart).
Proof.
  intros Hlen. unfold zstdMatcher.
  destruct (HasPrefix _ zstdMagic); [reflexivity|].
  destruct (Nat.ltb_spec (length (b0 :: b1 :: b2 :: b3 :: rest)) 8) as [Hlt|_]; [lia|].
  change (take 4 (b0 :: b1 :: b2 :: b3 :: rest)) with [b0; b1; b2; b3].
  rewrite Uint32_le32, mask_clears_low_nibble by apply le32_range.
  reflexivity.
Qed.

Lemma zstdMatcher_short (source : list byte) :
  (length source < 8)%nat -> zstdMatcher source = HasPrefix source zstdMagic.
Proof.
  intros Hlen. unfold zstdMatcher.
  destruct (HasPrefix source zstdMagic); [reflexivity|].
  destruct (Nat.ltb_spec (length source) 8); [reflexivity | lia].
Qed.

(** The first byte of a window each matcher accepts. *)
Lemma magic_first (m0 : byte) (m s : list byte) :
  magicNumberMatcher (m0 :: m) s = true -> exists t, s = m0 :: t.
Proof.
  unfold magicNumberMatcher. rewrite HasPrefix_spec. intros [t ->].
  simpl. eauto.
Qed.

Lemma skippable_first (b0 b1 b2 b3 : byte) :
  clear_low_nibble (le32_value b0 b1 b2 b3) = zstdMagicSkippableStart ->
  0x50 <= byteZ b0 <= 0x5F.
Proof.
  unfold clear_low_nibble, le32_value, zstdMagicSkippableStart.
  pose proof (byteZ_range b0). pose proof (byteZ_range b1).
  pose proof (byteZ_range b2). pose proof (byteZ_range b3).
  intros Heq. Z.div_mod_to_equations. lia.
Qed.

Lemma zstd_first (s : list byte) :
  zstdMatcher s = true ->
  exists b0 t, s = b0 :: t /\ (b0 = x28 \/ 0x50 <= byteZ b0 <= 0x5F).
Proof.
  intros H. destruct (Nat.lt_ge_cases (length s) 8) as [Hlt | Hge].
  - rewrite zstdMatcher_short in H by assumption.
    apply HasPrefix_spec in H as [t ->]. simpl. eauto.
  - destruct s as [|b0 [|b1 [|b2 [|b3 rest]]]]; simpl in Hge; try lia.
    rewrite zstdMatcher_long in H by (simpl; lia).
    apply orb_true_iff in H as [H | H].
    + apply HasPrefix_spec in H as [t Ht]. injection Ht as -> _ _ _ _. eauto.
    + apply Z.eqb_eq, skippable_first in H. eauto.
Qed.

Lemma entry_first (s : list byte) (c : Z) (fn : matcher) :
  (c, fn) ∈ literal_order -> fn s = true ->
  exists b0 t, s = b0 :: t /\ opens c b0.
Proof.
  unfold literal_order, opens. intros Hin Hs.
  repeat (apply elem_of_cons in Hin as [Hin | Hin]);
    try (apply elem_of_nil in Hin; contradiction);
    injection Hin as -> ->.
  - apply magic_first in Hs as [t ->]. eauto 10.
  - apply zstd_first in Hs as (b0 & t & -> & Hb). eauto 10.
  - apply magic_first in Hs as [t ->]. eauto 10.
  - apply magic_first in Hs as [t ->]. eauto 10.
Qed.

Lemma opens_functional (c c' : Z) (b0 : byte) : opens c b0 -> opens c' b0 -> c = c'.
Proof.
  unfold opens.
  intros [[-> H] | [[-> H] | [[-> H] | [-> H]]]]
         [[-> H'] | [[-> H'] | [[-> H'] | [-> H']]]];
    try reflexivity; exfalso;
    repeat match goal with
           | H : _ \/ _ |- _ => destruct H
           end; subst; try discriminate;
    vm_compute in *; intuition congruence.
Qed.

(** The four signatures are pairwise disjoint. *)
Lemma signatures_disjoint (s : list byte) (c c' : Z) (fn fn' : matcher) :
  (c, fn) ∈ literal_order -> (c', fn') ∈ literal_order ->
  fn s = true -> fn' s = true -> c = c'.
Proof.
  intros Hin Hin' Hs Hs'.
  destruct (entry_first s c fn Hin Hs) as (b0 & t & -> & Ho).
  destruct (entry_first _ c' fn' Hin' Hs') as (b0' & t' & Heq & Ho').
  injection Heq as <- _. eapply opens_functional; eassumption.
Qed.

Lemma literal_is_order : iteration_order literal_order.
Proof.
  unfold iteration_order, matchers, literal_order.
  rewrite !map_to_list_insert, map_to_list_singleton; [reflexivity | | |];
    vm_compute; reflexivity.
Qed.

Lemma order_literal (order : list (Z * matcher)) :
  iteration_order order -> order ≡ₚ literal_order.
Proof.
  unfold iteration_order. intros ->. symmetry. apply literal_is_order.
Qed.

(** Where at most one key can match, the loop's result does not depend
    on the order of the entries. *)
Lemma range_first_Permutation (s : list byte) (l1 l2 : list (Z * matcher)) :
  l1 ≡ₚ l2 ->
  (forall c c' fn fn', (c, fn) ∈ l1 -> (c', fn') ∈ l1 ->
                       fn s = true -> fn' s = true -> c = c') ->
  range_first l1 s = range_first l2 s.
Proof.
  induction 1 as [| [c fn] l l' Hp IH | [c fn] [c' fn'] l | l l' l'' Hp IH Hp' IH'];
    intros Huniq.
  - reflexivity.
  - simpl. destruct (fn s); [reflexivity|]. apply IH.
    intros ? ? ? ? ? ?. apply Huniq; apply elem_of_cons; auto.
  - simpl. destruct (fn s) eqn:Hfn, (fn' s) eqn:Hfn'; try reflexivity.
    apply (Huniq c' c fn' fn); auto; set_solver.
  - rewrite IH by assumption. apply IH'.
    intros ? ? ? ? Hin Hin'. rewrite <- Hp in Hin, Hin'. eauto.
Qed.

Lemma DetectCompression_literal (order : list (Z * matcher)) (s : list byte) :
  iteration_order order ->
  DetectCompression order s = DetectCompression literal_order s.
Proof.
  intros Ho. apply order_literal in Ho. unfold DetectCompression.
  apply range_first_Permutation; [assumption|].
  intros c c' fn fn' Hin Hin'. rewrite Ho in Hin, Hin'.
  apply signatures_disjoint; assumption.
Qed.

Lemma range_first_find (l : list (Z * matcher)) (s : list byte) :
  range_first l s =
    match find (fun e => snd e s) l with
    | Some e => fst e
    | None => Uncompressed
    end.
Proof.
  induction l as [| [c fn] l IH]; simpl; [reflexivity|].
  destruct (fn s); [reflexivity | exact IH].
Qed.

Lemma range_first_hit (l : list (Z * matcher)) (s : list byte) (c : Z) (fn : matcher) :
  (c, fn) ∈ l -> fn s = true ->
  (forall c' fn', (c', fn') ∈ l -> fn' s = true -> c' = c) ->
  range_first l s = c.
Proof.
  induction l as [| [c0 f0] l IH]; intros Hin Hs Huniq.
  - apply elem_of_nil in Hin. contradiction.
  - simpl. destruct (f0 s) eqn:Hf0.
    + apply (Huniq c0 f0); [apply list_elem_of_here | assumption].
    + apply elem_of_cons in Hin as [Heq | Hin]; [congruence|].
      apply IH; [assumption | assumption |].
      intros c' fn' Hin'. apply Huniq. apply list_elem_of_further, Hin'.
Qed.

Lemma range_first_none (l : list (Z * matcher)) (s : list byte) :
  (forall c fn, (c, fn) ∈ l -> fn s = false) -> range_first l s = Uncompressed.
Proof.
  induction l as [| [c0 f0] l IH]; intros Hnone; [reflexivity|].
  simpl. rewrite (Hnone c0 f0) by apply list_elem_of_here.
  apply IH. intros c fn Hin. apply (Hnone c fn), list_elem_of_further, Hin.
Qed.

Lemma DetectCompression_hit (order : list (Z * matcher)) (s : list byte)
    (c : Z) (fn : matcher) :
  iteration_order order -> (c, fn) ∈ literal_order -> fn s = true ->
  DetectCompression order s = c.
Proof.
  intros Ho Hin Hs. rewrite DetectCompression_literal by assumption.
  apply (range_first_hit _ _ c fn); [assumption | assumption |].
  intros c' fn' Hin' Hs'. apply (signatures_disjoint s c' c fn' fn); assumption.
Qed.

Lemma magic_accepts (m t : list byte) : magicNumberMatcher m (m ++ t) = true.
Proof. apply HasPrefix_spec. apply prefix_app_r. reflexivity. Qed.

Lemma zstd_accepts_magic (t : list byte) : zstdMatcher (zstdMagic ++ t) = true.
Proof.
  unfold zstdMatcher.
  replace (HasPrefix (zstdMagic ++ t) zstdMagic) with true; [reflexivity|].
  symmetry. apply HasPrefix_spec, prefix_app_r. reflexivity.
Qed.

Lemma short_window_rejected (s : list byte) (c : Z) (fn : matcher) :
  (length s < 3)%nat -> (c, fn) ∈ literal_order -> fn s = false.
Proof.
  intros Hlen Hin. unfold literal_order in Hin.
  repeat (apply elem_of_cons in Hin as [Hin | Hin]);
    try (apply elem_of_nil in Hin; contradiction);
    injection Hin as -> ->;
    try rewrite zstdMatcher_short by lia;
    apply HasPrefix_false; intros Hp; apply prefix_length in Hp;
    simpl in Hp; lia.
Qed.

Lemma DetectCompression_short (order : list (Z * matcher)) (s : list byte) :
  iteration_order order -> (length s < 3)%nat ->
  DetectCompression order s = Uncompressed.
Proof.
  intros Ho Hlen. rewrite DetectCompression_literal by assumption.
  apply range_first_none. intros c fn. apply short_window_rejected, Hlen.
Qed.

(** C4.  [zstdMatcher] answers true exactly for a window that starts with
    the magic 28 B5 2F FD, or that has at least 8 bytes and whose first
    four bytes, read as a little-endian 32-bit number with the low four
    bits cleared, give 0x184D2A50; with fewer than 8 bytes and no magic
    prefix the answer is false. *)
Theorem zstdMatcher_two_shapes (source : list byte) :
  (zstdMatcher source = true <->
     [x28; xb5; x2f; xfd] `prefix_of` source
     \/ ((8 <= length source)%nat
         /\ exists b0 b1 b2 b3 rest,
              source = b0 :: b1 :: b2 :: b3 :: rest
              /\ clear_low_nibble (le32_value b0 b1 b2 b3) = 0x184D2A50))
  /\ ((length source < 8)%nat -> ~ [x28; xb5; x2f; xfd] `prefix_of` source ->
      zstdMatcher source = false).
Proof.
  split.
  - destruct (Nat.lt_ge_cases (length source) 8) as [Hlt | Hge].
    + rewrite zstdMatcher_short by assumption.
      change [x28; xb5; x2f; xfd] with zstdMagic. rewrite HasPrefix_spec.
      split; [auto | intros [H | [H _]]; [assumption | lia]].
    + destruct source as [|b0 [|b1 [|b2 [|b3 rest]]]]; simpl in Hge; try lia.
      rewrite zstdMatcher_long by (simpl; lia).
      rewrite orb_true_iff, HasPrefix_spec, Z.eqb_eq. split.
      * intros [H | H]; [left; exact H | right].
        split; [simpl; lia | exists b0, b1, b2, b3, rest; auto].
      * intros [H | [_ (c0 & c1 & c2 & c3 & r & Heq & H)]]; [left; exact H | right].
        injection Heq as -> -> -> -> _. exact H.
  - intros Hlt Hno. rewrite zstdMatcher_short by assumption.
    apply HasPrefix_false. exact Hno.
Qed.

Lemma zstdMatcher_two_shapes_witness :
  zstdMatcher [x5f; x2a; x4d; x18; x00; x00; x00; x00] = true
  /\ zstdMatcher [x5f; x2a; x4d; x18] = false.
Proof.
  split.
  - apply (proj1 (zstdMatcher_two_shapes _)). right.
    split; [simpl; lia|]. exists x5f, x2a, x4d, x18, [x00; x00; x00; x00].
    split; reflexivity.
  - apply (proj2 (zstdMatcher_two_shapes _)); [simpl; lia|].
    intros [t Ht]. discriminate Ht.
Defined.

(** C3, as the code has it.  The matchers sit in a map, so the order in
    which they are tried is the runtime's choice; the four signatures
    being pairwise disjoint, every order gives the same algorithm: the
    first of Gzip, Zstd, Bzip2, Xz whose matcher accepts the window, or
    Uncompressed when none does. *)
Theorem DetectCompression_order_independent
    (o1 o2 : list (Z * matcher)) (window : list byte) :
  iteration_order o1 -> iteration_order o2 ->
  DetectCompression o1 window = DetectCompression o2 window
  /\ DetectCompression o1 window =
       match find (fun e => snd e window) literal_order with
       | Some e => fst e
       | None => Uncompressed
       end.
Proof.
  intros H1 H2. split.
  - rewrite (DetectCompression_literal o1), (DetectCompression_literal o2);
      auto.
  - rewrite (DetectCompression_literal o1) by assumption.
    apply range_first_find.
Qed.

Lemma rev_literal_is_order : iteration_order (rev literal_order).
Proof.
  unfold iteration_order. etransitivity; [| apply literal_is_order].
  symmetry. apply Permutation_rev.
Qed.

Lemma DetectCompression_order_independent_witness :
  DetectCompression literal_order [x42; x5a; x68; x39]
  = DetectCompression (rev literal_order) [x42; x5a; x68; x39].
Proof.
  exact (proj1 (DetectCompression_order_independent literal_order
                  (rev literal_order) [x42; x5a; x68; x39]
                  literal_is_order rev_literal_is_order)).
Defined.

(** C3, as stated, fails: no fixed priority list is followed.  On the
    empty window one admissible order tries Gzip, Zstd, Bzip2, Xz and
    another tries Xz, Bzip2, Zstd, Gzip. *)
Lemma evaluation_order_not_fixed :
  iteration_order literal_order
  /\ iteration_order (rev literal_order)
  /\ evaluated literal_order [] = [Gzip; Zstd; Bzip2; Xz]
  /\ evaluated (rev literal_order) [] = [Xz; Bzip2; Zstd; Gzip]
  /\ ~ (exists prio : list Z,
         forall order window, iteration_order order ->
                              evaluated order window `prefix_of` prio).
Proof.
  split; [apply literal_is_order|]. split; [apply rev_literal_is_order|].
  split; [reflexivity|]. split; [reflexivity|].
  intros [prio Hprio].
  destruct (Hprio literal_order [] literal_is_order) as [k Hk].
  destruct (Hprio (rev literal_order) [] rev_literal_is_order) as [k' Hk'].
  rewrite Hk in Hk'. discriminate Hk'.
Qed.

(** C5.  Whatever order the map is ranged in, a window that starts with
    1F 8B 08 is Gzip, with 42 5A 68 Bzip2, with FD 37 7A 58 5A 00 Xz, with
    28 B5 2F FD Zstd; the empty window, a window too short for any
    signature and a window no matcher accepts are Uncompressed. *)
Theorem DetectCompression_by_magic (order : list (Z * matcher)) :
  iteration_order order ->
  (forall t, DetectCompression order ([x1f; x8b; x08] ++ t) = Gzip)
  /\ (forall t, DetectCompression order ([x42; x5a; x68] ++ t) = Bzip2)
  /\ (forall t, DetectCompression order ([xfd; x37; x7a; x58; x5a; x00] ++ t) = Xz)
  /\ (forall t, DetectCompression order ([x28; xb5; x2f; xfd] ++ t) = Zstd)
  /\ DetectCompression order [] = Uncompressed
  /\ (forall s, (length s < 3)%nat -> DetectCompression order s = Uncompressed)
  /\ (forall s, (forall c fn, (c, fn) ∈ order -> fn s = false) ->
                DetectCompression order s = Uncompressed).
Proof.
  intros Ho.
  assert (Hshort : forall s, (length s < 3)%nat ->
                             DetectCompression order s = Uncompressed).
  { intros s Hlen. apply DetectCompression_short; assumption. }
  repeat split.
  - intros t. apply (DetectCompression_hit _ _ _ (magicNumberMatcher gzipMagic) Ho).
    + unfold literal_order. set_solver.
    + apply (magic_accepts gzipMagic).
  - intros t. apply (DetectCompression_hit _ _ _ (magicNumberMatcher bzip2Magic) Ho).
    + unfold literal_order. set_solver.
    + apply (magic_accepts bzip2Magic).
  - intros t. apply (DetectCompression_hit _ _ _ (magicNumberMatcher xzMagic) Ho).
    + unfold literal_order. set_solver.
    + apply (magic_accepts xzMagic).
  - intros t. apply (DetectCompression_hit _ _ _ zstdMatcher Ho).
    + unfold literal_order. set_solver.
    + apply (zstd_accepts_magic t).
  - apply Hshort. simpl. lia.
  - exact Hshort.
  - intros s Hnone. apply range_first_none. exact Hnone.
Qed.

Lemma DetectCompression_by_magic_witness :
  DetectCompression (rev literal_order) ([x1f; x8b; x08] ++ [x00; x00]) = Gzip.
Proof.
  exact (proj1 (DetectCompression_by_magic (rev literal_order) rev_literal_is_order)
           [x00; x00]).
Defined.
End DetectFacts.

Module BufioFacts.
Import bufio.

Lemma src_Read_bytes (cap : N) (s : Source) :
  src_bytes s = fst (fst (src_Read cap s)) ++ src_bytes (snd (src_Read cap s))
  /\ (N.of_nat (length (fst (fst (src_Read cap s)))) <= cap)%N.
Proof.
  destruct s as [| [bs e] rest]; simpl; [split; [reflexivity | lia]|].
  destruct (N.leb_spec (N.of_nat (length bs)) cap) as [Hle | Hgt]; simpl.
  - split; [reflexivity | assumption].
  - rewrite app_assoc, take_drop. split; [reflexivity|].
    rewrite length_take. lia.
Qed.

Lemma refills_refl (b : bufioReader) (s : Source) :
  (N.of_nat (length (b_data b)) <= b_size b)%N -> refills b s b s.
Proof.
  intros H. exists []. rewrite app_nil_r. auto.
Qed.

Lemma refills_trans (b1 b2 b3 : bufioReader) (s1 s2 s3 : Source) :
  refills b1 s1 b2 s2 -> refills b2 s2 b3 s3 -> refills b1 s1 b3 s3.
Proof.
  intros (e1 & Hd1 & Hs1 & Hz1 & Hr1 & Hl1) (e2 & Hd2 & Hs2 & Hz2 & Hr2 & Hl2).
  exists (e1 ++ e2). rewrite Hs1, Hs2, !app_assoc.
  split; [rewrite Hd2, Hd1; reflexivity|].
  split; [reflexivity|]. split; [congruence|]. split; [congruence|].
  rewrite <- Hz1. exact Hl2.
Qed.

Lemma refills_set_err (b b' : bufioReader) (s s' : Source) (e : option error) :
  refills b s b' s' -> refills b s (set_err e b') s'.
Proof. intros (ext & H). exists ext. exact H. Qed.

Lemma fill_tries_spec (i : nat) (b : bufioReader) (s : Source) :
  (N.of_nat (length (b_data b)) <= b_size b)%N ->
  exists b' s',
    fill_tries i b (Some s) = Some (b', Some s')
    /\ refills b s b' s'
    /\ (b_err b' <> None \/ (b_err b' = b_err b /\ length (b_data b) < length (b_data b'))%nat).
Proof.
  revert b s. induction i as [| i IH]; intros b s Hlen; simpl.
  - exists (set_err (Some ErrNoProgress) b), s.
    split; [reflexivity|]. split; [| left; discriminate].
    apply refills_set_err, refills_refl, Hlen.
  - pose proof (src_Read_bytes (b_size b - N.of_nat (length (b_data b))) s) as [Hb Hc].
    destruct (src_Read _ s) as [[bs e] s1]. simpl in Hb, Hc.
    set (b1 := set_data (b_data b ++ bs) b).
    assert (Hr1 : refills b s b1 s1).
    { exists bs. simpl. rewrite length_app. repeat split; auto. lia. }
    destruct e as [e|].
    + exists (set_err (Some e) b1), s1. split; [reflexivity|].
      split; [apply refills_set_err, Hr1 | left; discriminate].
    + destruct (Nat.ltb_spec 0 (length bs)) as [Hpos | Hzero].
      * exists b1, s1. split; [reflexivity|]. split; [exact Hr1|].
        right. simpl. rewrite length_app. split; [reflexivity | lia].
      * destruct (IH b1 s1) as (b' & s' & Hf & Hr & Hp).
        { destruct Hr1 as (? & _ & _ & _ & _ & Hle). exact Hle. }
        exists b', s'. split; [exact Hf|].
        split; [eapply refills_trans; eassumption|].
        destruct Hp as [Hp | [He Hp]]; [left; exact Hp | right].
        split; [exact He|]. simpl in Hp. rewrite length_app in Hp. lia.
Qed.

Lemma peek_more_false (n : Z) (b : bufioReader) :
  peek_more n b = false ->
  n <= Z.of_nat (length (b_data b))
  \/ (b_size b <= N.of_nat (length (b_data b)))%N
  \/ b_err b <> None.
Proof.
  unfold peek_more. rewrite !andb_false_iff, Z.ltb_ge, N.ltb_ge.
  intros [[H | H] | H]; auto. right. right. destruct (b_err b); congruence.
Qed.

Lemma peek_loop_spec (turns : nat) (n : Z) (b : bufioReader) (s : Source) :
  (N.of_nat (length (b_data b)) <= b_size b)%N ->
  exists b' s',
    peek_loop turns n b (Some s) = Some (b', Some s')
    /\ refills b s b' s'
    /\ (peek_more n b = false -> b' = b /\ s' = s)
    /\ ((N.to_nat (b_size b) - length (b_data b) <= turns)%nat ->
        peek_more n b' = false).
Proof.
  revert b s. induction turns as [| t IH]; intros b s Hlen; simpl.
  - exists b, s. split; [reflexivity|]. split; [apply refills_refl, Hlen|].
    split; [auto|]. intros Hfull. unfold peek_more.
    destruct (N.ltb_spec (N.of_nat (length (b_data b))) (b_size b)); [lia|].
    rewrite andb_false_r. reflexivity.
  - destruct (peek_more n b) eqn:Hmore.
    + unfold fill.
      assert (Hroom : (N.of_nat (length (b_data b)) < b_size b)%N).
      { unfold peek_more in Hmore. apply andb_prop in Hmore as [Hm _].
        apply andb_prop in Hm as [_ Hm]. apply N.ltb_lt in Hm. exact Hm. }
      assert (Herr : b_err b = None).
      { unfold peek_more in Hmore. apply andb_prop in Hmore as [_ Hm].
        destruct (b_err b); [discriminate | reflexivity]. }
      destruct (N.leb_spec (b_size b) (N.of_nat (length (b_data b)))) as [Hfull|_];
        [lia|].
      destruct (fill_tries_spec maxConsecutiveEmptyReads b s Hlen)
        as (b1 & s1 & Hf & Hr1 & Hp).
      rewrite Hf.
      assert (Hlen1 : (N.of_nat (length (b_data b1)) <= b_size b1)%N).
      { destruct Hr1 as (? & _ & _ & Hz & _ & Hle). rewrite Hz. exact Hle. }
      destruct (IH b1 s1 Hlen1) as (b' & s' & Hl & Hr & Hstay & Hexit).
      exists b', s'. split; [exact Hl|].
      split; [eapply refills_trans; eassumption|].
      split; [discriminate|].
      intros Hturns.
      destruct Hp as [Hp | [_ Hp]].
      * assert (Hm1 : peek_more n b1 = false).
        { unfold peek_more. destruct (b_err b1); [| congruence].
          apply andb_false_r. }
        destruct (Hstay Hm1) as [-> _]. exact Hm1.
      * apply Hexit. destruct Hr1 as (? & _ & _ & Hz & _ & _). rewrite Hz. lia.
    + exists b, s. split; [reflexivity|]. split; [apply refills_refl, Hlen|].
      split; [auto | intros _; exact Hmore].
Qed.


Lemma Peek_spec (n : Z) (b : bufioReader) (s : Source) :
  (N.of_nat (length (b_data b)) <= b_size b)%N ->
  exists e b' s',
    Peek n b (Some s) = Some ((take (Z.to_nat n) (b_data b'), e), (b', Some s'))
    /\ refills b s b' s'
    /\ (n <= Z.of_nat (length (b_data b)) -> b_data b' = b_data b /\ s' = s).
Proof.
  intros Hlen. unfold Peek.
  destruct (Z.ltb_spec n 0) as [Hneg | Hpos].
  - exists (Some ErrNegativeCount), b, s.
    replace (Z.to_nat n) with O by lia. rewrite take_0.
    split; [reflexivity|]. split; [apply refills_refl, Hlen | auto].
  - destruct (peek_loop_spec (N.to_nat (b_size b) - length (b_data b)) n b s Hlen)
      as (b1 & s1 & Hl & Hr & Hstay & _).
    rewrite Hl.
    assert (Hkeep : n <= Z.of_nat (length (b_data b)) -> b1 = b /\ s1 = s).
    { intros Hn. apply Hstay. unfold peek_more.
      destruct (Z.ltb_spec (Z.of_nat (length (b_data b))) n); [lia | reflexivity]. }
    pose proof Hr as (ext & Hd & Hs & Hz & Hrd & Hle).
    destruct (Z.ltb_spec (Z.of_N (b_size b1)) n) as [Hbig | Hfit].
    + exists (Some ErrBufferFull), b1, s1.
      rewrite take_ge by lia.
      split; [reflexivity|]. split; [exact Hr|].
      intros Hn. destruct (Hkeep Hn) as [-> ->]. auto.
    + destruct (Z.ltb_spec (Z.of_nat (length (b_data b1))) n) as [Hshort | Hfull].
      * exists (Some (match b_err b1 with Some e => e | None => ErrBufferFull end)),
          (set_err None b1), s1.
        simpl. rewrite take_ge by lia.
        split; [reflexivity|]. split; [apply refills_set_err, Hr|].
        intros Hn. destruct (Hkeep Hn) as [-> ->]. auto.
      * exists None, b1, s1.
        split; [reflexivity|]. split; [exact Hr|].
        intros Hn. destruct (Hkeep Hn) as [-> ->]. auto.
Qed.

Lemma Read_spec (k : N) (b : bufioReader) (s : Source) :
  (N.of_nat (length (b_data b)) <= b_size b)%N ->
  exists out e b' s',
    Read k b (Some s) = Some ((out, e), (b', Some s'))
    /\ b_data b ++ src_bytes s = out ++ b_data b' ++ src_bytes s'
    /\ (b_data b <> [] -> out = take (N.to_nat k) (b_data b))
    /\ b_size b' = b_size b /\ b_rd b' = b_rd b
    /\ (N.of_nat (length (b_data b')) <= b_size b)%N.
Proof.
  intros Hlen. unfold Read.
  destruct (N.eqb_spec k 0) as [-> | Hk].
  { destruct (Nat.ltb_spec 0 (length (b_data b))) as [Hne | He].
    - exists [], None, b, s. read_done.
    - exists [], (b_err b), (set_err None b), s. read_done. }
  destruct (Nat.eqb_spec (length (b_data b)) 0) as [Hempty | Hne].
  - apply length_zero_iff_nil in Hempty.
    destruct (b_err b) as [e0|] eqn:He0.
    + exists [], (Some e0), (set_err None b), s. simpl. rewrite He0. read_done.
    + destruct (N.leb_spec (b_size b) k) as [Hlarge | Hsmall]; simpl.
      * pose proof (src_Read_bytes k s) as [Hb _].
        destruct (src_Read k s) as [[bs e] s1]. simpl in Hb |- *.
        exists bs, e, (set_err None (set_err e b)), s1. simpl.
        rewrite Hempty. read_done.
      * pose proof (src_Read_bytes (b_size b) s) as [Hb Hc].
        destruct (src_Read (b_size b) s) as [[bs e] s1]. simpl in Hb, Hc |- *.
        destruct (Nat.eqb_spec (length bs) 0) as [Hz | Hnz].
        -- apply length_zero_iff_nil in Hz. subst bs.
           exists [], e, (set_err None (set_err e (set_data [] b))), s1. simpl.
           rewrite Hempty. read_done.
        -- exists (take (N.to_nat k) bs), None,
             (set_data (drop (N.to_nat k) bs) (set_err e (set_data [] b))), s1.
           simpl. rewrite Hempty. simpl.
           rewrite app_assoc, take_drop. read_done.
  - exists (take (N.to_nat k) (b_data b)), None,
      (set_data (drop (N.to_nat k) (b_data b)) b), s. simpl.
    rewrite !app_assoc, take_drop. read_done.
Qed.

(** A released reader's buffer is left empty by [Read] reporting
    end-of-data. *)
Lemma Read_EOF_empty (k : N) (b b' : bufioReader) (s s' : option Source)
    (out : list byte) :
  Read k b s = Some ((out, Some EOF), (b', s')) -> b_data b' = [].
Proof.
  unfold Read. intros H.
  destruct (k =? 0)%N.
  { destruct (Nat.ltb_spec 0 (length (b_data b))); simpl in H; [congruence|].
    injection H as _ _ <- _. simpl. apply length_zero_iff_nil. lia. }
  destruct (Nat.eqb_spec (length (b_data b)) 0) as [Hempty|]; [|congruence].
  apply length_zero_iff_nil in Hempty.
  destruct (b_err b).
  { simpl in H. injection H as _ _ <- _. exact Hempty. }
  destruct (b_size b <=? k)%N.
  - destruct (rd_Read k s) as [[[bs e] s1]|]; [|discriminate].
    simpl in H. injection H as _ _ <- _. exact Hempty.
  - destruct (rd_Read (b_size b) s) as [[[bs e] s1]|]; [|discriminate].
    destruct (length bs =? 0)%nat; simpl in H; [|congruence].
    injection H as _ _ <- _. reflexivity.
Qed.

End BufioFacts.

Module ReaderFacts.
Import BufioFacts.

Lemma attached_holds (r : bufferedReader) (w : World) (id : nat) :
  attached r w -> buf r = Some id -> exists b sid s, holds r w id b sid s.
Proof.
  unfold attached, holds. intros Ha Hb. rewrite Hb in Ha.
  destruct Ha as (b & sid & s & H1 & H2 & H3 & H4). eauto 10.
Qed.

Lemma holds_attached (r : bufferedReader) (w : World) id b sid s :
  holds r w id b sid s -> attached r w.
Proof.
  unfold attached, holds. intros (-> & H). eauto 10.
Qed.

Lemma holds_stored (r : bufferedReader) (w : World) id b sid s b' s' :
  holds r w id b sid s -> b_rd b' = Some sid ->
  (N.of_nat (length (b_data b')) <= b_size b')%N ->
  holds r (stored id b' sid s' w) id b' sid s'.
Proof.
  unfold holds, stored. intros (Hb & _) Hrd Hlen. simpl.
  rewrite !lookup_insert_eq. auto.
Qed.

Lemma unread_holds (r : bufferedReader) (w : World) id b sid s :
  holds r w id b sid s -> unread r w = b_data b ++ src_bytes s.
Proof.
  unfold holds, unread. intros (-> & -> & -> & -> & _). reflexivity.
Qed.

Lemma on_bufio_run {A : Type} (w : World) (id : nat)
    (f : bufioReader -> option Source -> option (A * (bufioReader * option Source)))
    (r : bufferedReader) b sid s a b' s' :
  holds r w id b sid s ->
  f b (Some s) = Some (a, (b', Some s')) ->
  on_bufio id f w = Some (a, stored id b' sid s' w).
Proof.
  unfold holds, on_bufio, stored. intros (_ & -> & -> & -> & _) ->. reflexivity.
Qed.

Lemma refills_holds (r : bufferedReader) (w : World) id b sid s b' s' :
  holds r w id b sid s -> refills b s b' s' ->
  holds r (stored id b' sid s' w) id b' sid s'
  /\ unread r (stored id b' sid s' w) = unread r w.
Proof.
  intros Hh (ext & Hd & Hs & Hz & Hrd & Hle).
  assert (Hh' : holds r (stored id b' sid s' w) id b' sid s').
  { eapply holds_stored; [exact Hh | | rewrite Hz; exact Hle].
    destruct Hh as (_ & _ & H & _). congruence. }
  split; [exact Hh'|].
  rewrite (unread_holds _ _ _ _ _ _ Hh'), (unread_holds _ _ _ _ _ _ Hh).
  rewrite Hd, Hs, app_assoc. reflexivity.
Qed.

(** [Peek] on a reader in use. *)
Lemma Peek_holds (r : bufferedReader) (w : World) (n : Z) id b sid s :
  holds r w id b sid s ->
  exists e b' s',
    bufferedReader_Peek r n w
      = Some ((take (Z.to_nat n) (b_data b'), e), stored id b' sid s' w)
    /\ holds r (stored id b' sid s' w) id b' sid s'
    /\ unread r (stored id b' sid s' w) = unread r w
    /\ (n <= Z.of_nat (length (b_data b)) -> b_data b' = b_data b)
    /\ (exists ext, b_data b' = b_data b ++ ext).
Proof.
  intros Hh. pose proof Hh as (Hb & _ & _ & _ & Hlen).
  destruct (Peek_spec n b s Hlen) as (e & b' & s' & Hp & Hr & Hkeep).
  exists e, b', s'. unfold bufferedReader_Peek. rewrite Hb.
  rewrite (on_bufio_run w id (bufio.Peek n) r b sid s _ b' s' Hh Hp).
  destruct (refills_holds _ _ _ _ _ _ _ _ Hh Hr) as [Hh' Hu].
  split; [reflexivity|]. split; [exact Hh'|]. split; [exact Hu|].
  split; [intros Hn; apply Hkeep, Hn|].
  destruct Hr as (ext & Hd & _). eauto.
Qed.

(** [Read] on a reader in use. *)
Lemma Read_holds (r : bufferedReader) (w : World) (k : N) id b sid s :
  holds r w id b sid s ->
  exists out e r' w',
    bufferedReader_Read r k w = Some (((out, e), r'), w')
    /\ out `prefix_of` unread r w
    /\ (b_data b <> [] -> out = take (N.to_nat k) (b_data b))
    /\ (e = Some EOF ->
        buf r' = None /\ pool_puts w' = id :: pool_puts w
        /\ pool w' = id :: pool w
        /\ exists b0, bufs w' !! id = Some (bufio.Reset None b0))
    /\ (e <> Some EOF ->
        r' = r /\ pool_puts w' = pool_puts w /\ pool w' = pool w
        /\ attached r w').
Proof.
  intros Hh. pose proof Hh as (Hb & _ & Hrd & _ & Hlen).
  destruct (Read_spec k b s Hlen) as (out & e & b' & s' & HR & Hcons & Hout & Hz & Hrd' & Hle).
  assert (Hh' : holds r (stored id b' sid s' w) id b' sid s').
  { eapply holds_stored; [exact Hh | congruence | rewrite Hz; exact Hle]. }
  assert (Hpre : out `prefix_of` unread r w).
  { rewrite (unread_holds _ _ _ _ _ _ Hh), Hcons. apply prefix_app_r. reflexivity. }
  unfold bufferedReader_Read. rewrite Hb. unfold bind at 1.
  rewrite (on_bufio_run w id (bufio.Read k) r b sid s _ b' s' Hh HR). cbn [snd].
  destruct (is_EOF e) eqn:He.
  - destruct e as [[]|]; try discriminate.
    destruct Hh' as (_ & Hl & _).
    unfold bind, bufio_Reset, Pool_Put, modify, ret. rewrite Hl. simpl.
    eexists out, (Some EOF), _, _. split; [reflexivity|].
    split; [exact Hpre|]. split; [exact Hout|].
    split; [| congruence].
    intros _. repeat split. exists b'. unfold stored. simpl.
    apply lookup_insert_eq.
  - unfold ret. exists out, e, r, (stored id b' sid s' w).
    split; [reflexivity|]. split; [exact Hpre|]. split; [exact Hout|].
    split; [intros ->; discriminate|].
    intros _. repeat split; auto. eapply holds_attached, Hh'.
Qed.

(** A released reader answers end-of-data and touches nothing. *)
Lemma released_call (c : call) (r : bufferedReader) (w : World) :
  buf r = None -> do_call c r w = Some ((([], Some EOF), r), w).
Proof.
  intros Hb. destruct c; unfold do_call, bufferedReader_Read,
    bufferedReader_Peek, bind, ret; rewrite Hb; reflexivity.
Qed.

Lemma released_calls (cs : list call) (r : bufferedReader) (w : World) :
  buf r = None ->
  do_calls cs r w = Some ((map (fun _ => ([], Some EOF)) cs, r), w).
Proof.
  intros Hb. induction cs as [| c cs IH]; [reflexivity|].
  simpl. unfold bind. rewrite (released_call c r w Hb). rewrite IH. reflexivity.
Qed.


Lemma take_prefix_mono {A : Type} (n : nat) (l1 l2 : list A) :
  l1 `prefix_of` l2 -> take n l1 `prefix_of` take n l2.
Proof.
  intros [k ->]. revert n. induction l1 as [| x l1 IH]; intros n.
  - rewrite take_nil. apply prefix_nil.
  - destruct n as [| n]; [apply prefix_nil|].
    simpl. apply prefix_cons, IH.
Qed.

(** C6, as the code has it.  [Peek] leaves the read position where it
    was.  With no [Read] in between, a second [Peek] of no more bytes
    returns the first [n2] bytes of the first one's result whenever the
    first returned that many (the same sequence for the same [n] after a
    [Peek] that was not cut short); after a [Peek] that was cut short it
    returns at least those bytes.  The [Read] that follows delivers the
    peeked bytes from that same position. *)
Theorem Peek_keeps_position (r : bufferedReader) (w : World) (n1 n2 : Z) (k : N) :
  attached r w -> n2 <= n1 ->
  exists bs1 e1 w1 bs2 e2 w2 out e3 r3 w3,
    bufferedReader_Peek r n1 w = Some ((bs1, e1), w1)
    /\ bufferedReader_Peek r n2 w1 = Some ((bs2, e2), w2)
    /\ bufferedReader_Read r k w2 = Some (((out, e3), r3), w3)
    /\ unread r w1 = unread r w /\ unread r w2 = unread r w
    /\ bs1 `prefix_of` unread r w /\ bs2 `prefix_of` unread r w
    /\ take (Z.to_nat n2) bs1 `prefix_of` bs2
    /\ (n2 <= Z.of_nat (length bs1) -> bs2 = take (Z.to_nat n2) bs1)
    /\ (Z.of_nat (length bs1) = n1 -> n2 = n1 -> bs2 = bs1)
    /\ take (N.to_nat k) bs2 `prefix_of` out
    /\ out `prefix_of` unread r w.
Proof.
  intros Ha Hn. destruct (buf r) as [id|] eqn:Hb.
  2:{ exists [], (Some EOF), w, [], (Some EOF), w, [], (Some EOF), r, w.
      unfold bufferedReader_Peek, bufferedReader_Read, ret. rewrite Hb.
      rewrite !take_nil. repeat split; auto; try apply prefix_nil. }
  destruct (attached_holds r w id Ha Hb) as (b & sid & s & Hh).
  destruct (Peek_holds r w n1 id b sid s Hh)
    as (e1 & b1 & s1 & HP1 & Hh1 & Hu1 & _ & _).
  destruct (Peek_holds r _ n2 id b1 sid s1 Hh1)
    as (e2 & b2 & s2 & HP2 & Hh2 & Hu2 & Hkeep & (ext & Hext)).
  destruct (Read_holds r _ k id b2 sid s2 Hh2)
    as (out & e3 & r3 & w3 & HR & Hpre & Hout & _ & _).
  set (w1 := stored id b1 sid s1 w) in *.
  set (w2 := stored id b2 sid s2 w1) in *.
  assert (Hlen1 : (length (take (Z.to_nat n1) (b_data b1)) <= length (b_data b1))%nat).
  { rewrite length_take. lia. }
  assert (Hshort : n2 <= Z.of_nat (length (take (Z.to_nat n1) (b_data b1))) ->
                   take (Z.to_nat n2) (b_data b2)
                   = take (Z.to_nat n2) (take (Z.to_nat n1) (b_data b1))).
  { intros Hle. rewrite Hkeep by lia. rewrite take_take. f_equal. lia. }
  exists (take (Z.to_nat n1) (b_data b1)), e1, w1,
         (take (Z.to_nat n2) (b_data b2)), e2, w2, out, e3, r3, w3.
  split; [exact HP1|]. split; [exact HP2|]. split; [exact HR|].
  split; [exact Hu1|]. split; [rewrite Hu2; exact Hu1|].
  split.
  { rewrite <- Hu1, (unread_holds _ _ _ _ _ _ Hh1).
    etransitivity; [apply prefix_take | apply prefix_app_r; reflexivity]. }
  split.
  { rewrite <- Hu1, <- Hu2, (unread_holds _ _ _ _ _ _ Hh2).
    etransitivity; [apply prefix_take | apply prefix_app_r; reflexivity]. }
  split.
  { rewrite take_take. replace (Z.to_nat n2 `min` Z.to_nat n1)%nat
      with (Z.to_nat n2) by lia.
    apply take_prefix_mono. rewrite Hext. apply prefix_app_r. reflexivity. }
  split; [exact Hshort|].
  split.
  { intros Hfull ->. rewrite Hshort by lia. apply take_idemp. }
  split; [| rewrite <- Hu1, <- Hu2; exact Hpre].
  destruct (b_data b2) as [| x d] eqn:Hd.
  - rewrite !take_nil. apply prefix_nil.
  - rewrite Hout by discriminate. apply take_prefix_mono, prefix_take.
Qed.


Lemma do_calls_cons (c : call) (cs : list call) (r r1 r2 : bufferedReader)
    (w w1 w2 : World) res ress :
  do_call c r w = Some ((res, r1), w1) ->
  do_calls cs r1 w1 = Some ((ress, r2), w2) ->
  do_calls (c :: cs) r w = Some ((res :: ress, r2), w2).
Proof.
  intros H1 H2. simpl. unfold bind. rewrite H1, H2. reflexivity.
Qed.

(** C7.  Over any run of [Read] and [Peek] calls on a reader holding
    buffer [id]: as long as no [Read] has reported end-of-data the buffer
    stays with the reader and the pool is not touched; the [Read] that
    reports end-of-data resets the buffer and puts it in the pool, once;
    every later call reports end-of-data with no bytes and leaves the
    whole store, pool and buffer included, as it is. *)
Theorem pool_return_once (cs : list call) (r : bufferedReader) (w : World) (id : nat) :
  attached r w -> buf r = Some id ->
  exists outs r' w',
    do_calls cs r w = Some ((outs, r'), w')
    /\ ((buf r' = Some id /\ pool_puts w' = pool_puts w /\ pool w' = pool w
         /\ Forall2 (fun c res => read_eof c res = false) cs outs)
        \/ (exists cs1 k cs2 outs1 bs r1 w1 b0,
              cs = cs1 ++ CallRead k :: cs2
              /\ outs = outs1 ++ (bs, Some EOF) :: map (fun _ => ([], Some EOF)) cs2
              /\ do_calls cs1 r w = Some ((outs1, r1), w1)
              /\ Forall2 (fun c res => read_eof c res = false) cs1 outs1
              /\ pool_puts w1 = pool_puts w
              /\ bufferedReader_Read r1 k w1 = Some (((bs, Some EOF), r'), w')
              /\ buf r' = None
              /\ pool_puts w' = id :: pool_puts w
              /\ bufs w' !! id = Some (bufio.Reset None b0)
              /\ do_calls cs2 r' w'
                 = Some ((map (fun _ => ([], Some EOF)) cs2, r'), w'))).
Proof.
  revert r w. induction cs as [| c cs IH]; intros r w Ha Hb.
  { exists [], r, w. split; [reflexivity|]. left. repeat split; auto. }
  destruct (attached_holds r w id Ha Hb) as (b & sid & s & Hh).
  destruct c as [k | n].
  - destruct (Read_holds r w k id b sid s Hh)
      as (out & e & r1 & w1 & HR & _ & _ & Heof & Hmore).
    assert (Hdec : e = Some EOF \/ e <> Some EOF)
      by (destruct e as [[]|]; auto; right; discriminate).
    destruct Hdec as [-> | Hne].
    + destruct (Heof eq_refl) as (Hb1 & Hputs & _ & b0 & Hreset).
      exists ((out, Some EOF) :: map (fun _ => ([], Some EOF)) cs), r1, w1.
      split.
      { eapply do_calls_cons; [exact HR | apply released_calls, Hb1]. }
      right. exists [], k, cs, [], out, r, w, b0.
      repeat split; auto. apply released_calls, Hb1.
    + destruct (Hmore Hne) as (-> & Hputs & Hpool & Ha1).
      destruct (IH r w1 Ha1 Hb) as (outs & r' & w' & Hrun & Hcase).
      exists ((out, e) :: outs), r', w'.
      split; [eapply do_calls_cons; [exact HR | exact Hrun]|].
      assert (Hhead : read_eof (CallRead k) (out, e) = false).
      { simpl. destruct e as [[]|]; try reflexivity. congruence. }
      destruct Hcase as [(Hb' & Hp' & Hq' & Hall) | Hcase].
      * left. repeat split; [exact Hb' | congruence | congruence |].
        constructor; assumption.
      * right.
        destruct Hcase as (cs1 & k' & cs2 & outs1 & bs & r2 & w2 & b0 &
                           -> & -> & Hrun1 & Hall & Hp1 & HR' & Hb' & Hp' & Hreset & Hrest).
        exists (CallRead k :: cs1), k', cs2, ((out, e) :: outs1), bs, r2, w2, b0.
        split; [reflexivity|]. split; [reflexivity|].
        split; [eapply do_calls_cons; [exact HR | exact Hrun1]|].
        split; [constructor; assumption|].
        split; [congruence|]. split; [exact HR'|]. split; [exact Hb'|].
        split; [congruence|]. split; [exact Hreset | exact Hrest].
  - destruct (Peek_holds r w n id b sid s Hh)
      as (e & b1 & s1 & HP & Hh1 & _ & _ & _).
    set (w1 := stored id b1 sid s1 w) in *.
    assert (Hcall : do_call (CallPeek n) r w
                    = Some (((take (Z.to_nat n) (b_data b1), e), r), w1)).
    { unfold do_call, bind. rewrite HP. reflexivity. }
    destruct (IH r w1 (holds_attached _ _ _ _ _ _ Hh1) Hb)
      as (outs & r' & w' & Hrun & Hcase).
    exists ((take (Z.to_nat n) (b_data b1), e) :: outs), r', w'.
    split; [eapply do_calls_cons; [exact Hcall | exact Hrun]|].
    destruct Hcase as [(Hb' & Hp' & Hq' & Hall) | Hcase].
    + left. repeat split; [exact Hb' | exact Hp' | exact Hq' |].
      constructor; [reflexivity | assumption].
    + right.
      destruct Hcase as (cs1 & k' & cs2 & outs1 & bs & r2 & w2 & b0 &
                         -> & -> & Hrun1 & Hall & Hp1 & HR' & Hb' & Hp' & Hreset & Hrest).
      exists (CallPeek n :: cs1), k', cs2,
        ((take (Z.to_nat n) (b_data b1), e) :: outs1), bs, r2, w2, b0.
      split; [reflexivity|]. split; [reflexivity|].
      split; [eapply do_calls_cons; [exact Hcall | exact Hrun1]|].
      split; [constructor; [reflexivity | assumption]|].
      split; [exact Hp1|]. split; [exact HR'|]. split; [exact Hb'|].
      split; [exact Hp'|]. split; [exact Hreset | exact Hrest].
Qed.

End ReaderFacts.

Module OpenFacts.
Import BufioFacts ReaderFacts DetectFacts.

Lemma clean_length (s : Source) : clean s -> (length s <= length (src_bytes s))%nat.
Proof.
  induction 1 as [| [bs e] s [Hne _] _ IH]; simpl; [lia|].
  rewrite length_app. destruct bs; [congruence | simpl; lia].
Qed.

Lemma newBufferedReader_spec (sid : nat) (s : Source) (w : World) :
  srcs w !! sid = Some s -> pool_ok w ->
  exists id b0 w',
    newBufferedReader sid w = Some (mkBuffered (Some id), w')
    /\ holds (mkBuffered (Some id)) w' id (bufio.Reset (Some sid) b0) sid s
    /\ (16 <= b_size b0)%N
    /\ srcs w' = srcs w /\ pool_puts w' = pool_puts w.
Proof.
  intros Hs Hok. unfold newBufferedReader, bind, Pool_Get, bufio_Reset, ret.
  destruct (pool w) as [| id rest] eqn:Hpool.
  - set (id := fresh (dom (bufs w))).
    exists id, (bufio.NewReaderSize (32 * 1024)),
      (set_bufs (<[id := bufio.Reset (Some sid) (bufio.NewReaderSize (32 * 1024))]>
                   (<[id := bufio.NewReaderSize (32 * 1024)]> (bufs w))) w).
    simpl. rewrite lookup_insert_eq.
    split; [reflexivity|]. split; [| split; [vm_compute; discriminate | auto]].
    unfold holds. simpl. rewrite lookup_insert_eq. repeat split; auto. lia.
  - destruct (Hok id) as (b0 & Hb0 & Hsz); [rewrite Hpool; apply list_elem_of_here|].
    exists id, b0, (set_bufs (<[id := bufio.Reset (Some sid) b0]> (bufs w)) (set_pool rest w)).
    simpl. rewrite Hb0.
    split; [reflexivity|]. split; [| auto].
    unfold holds. simpl. rewrite lookup_insert_eq. repeat split; auto. lia.
Qed.

Lemma peek_more_err (n : Z) (b : bufioReader) (e : error) :
  b_err b = Some e -> bufio.peek_more n b = false.
Proof. unfold bufio.peek_more. intros ->. apply andb_false_r. Qed.

Lemma fill_tries_S (i : nat) (b : bufioReader) (s : option Source) :
  bufio.fill_tries (S i) b s =
    match bufio.rd_Read (b_size b - N.of_nat (length (b_data b))) s with
    | None => None
    | Some ((bs, e), s') =>
        let b' := set_data (b_data b ++ bs) b in
        match e with
        | Some _ => Some (set_err e b', s')
        | None => if (0 <? length bs)%nat then Some (b', s')
                  else bufio.fill_tries i b' s'
        end
    end.
Proof. reflexivity. Qed.

Lemma fill_at_end (b : bufioReader) :
  (N.of_nat (length (b_data b)) < b_size b)%N ->
  bufio.fill b (Some [])
  = Some (set_err (Some EOF) (set_data (b_data b ++ []) b), Some []).
Proof.
  intros Hroom. unfold bufio.fill.
  destruct (N.leb_spec (b_size b) (N.of_nat (length (b_data b)))); [lia|].
  change bufio.maxConsecutiveEmptyReads with (S 99).
  rewrite fill_tries_S. reflexivity.
Qed.

Lemma fill_chunk (b : bufioReader) (bs : list byte) (rest : Source) :
  bs <> [] ->
  (N.of_nat (length (b_data b) + length bs) < b_size b)%N ->
  bufio.fill b (Some (Chunk bs None :: rest))
  = Some (set_data (b_data b ++ bs) b, Some rest).
Proof.
  intros Hne Hroom. unfold bufio.fill.
  destruct (N.leb_spec (b_size b) (N.of_nat (length (b_data b)))); [lia|].
  change bufio.maxConsecutiveEmptyReads with (S 99).
  rewrite fill_tries_S. unfold bufio.rd_Read, src_Read.
  destruct (N.leb_spec (N.of_nat (length bs)) (b_size b - N.of_nat (length (b_data b))));
    [|lia].
  destruct (Nat.ltb_spec 0 (length bs)) as [_ | Hz]; [reflexivity|].
  destruct bs; [congruence | simpl in Hz; lia].
Qed.

Lemma peek_more_room (n : Z) (b : bufioReader) :
  b_err b = None -> Z.of_nat (length (b_data b)) < n ->
  (N.of_nat (length (b_data b)) < b_size b)%N ->
  bufio.peek_more n b = true.
Proof.
  intros Herr Hn Hsz. unfold bufio.peek_more. rewrite Herr.
  destruct (Z.ltb_spec (Z.of_nat (length (b_data b))) n); [|lia].
  destruct (N.ltb_spec (N.of_nat (length (b_data b))) (b_size b)); [|lia].
  reflexivity.
Qed.

Lemma peek_loop_S (t : nat) (n : Z) (b : bufioReader) (s : option Source) :
  bufio.peek_loop (S t) n b s =
    if bufio.peek_more n b then
      match bufio.fill b s with
      | None => None
      | Some (b', s') => bufio.peek_loop t n b' s'
      end
    else Some (b, s).
Proof. reflexivity. Qed.

Lemma peek_loop_clean (s : Source) (turns : nat) (n : Z) (b : bufioReader) :
  clean s -> b_err b = None ->
  Z.of_nat (length (b_data b) + length (src_bytes s)) < n ->
  (N.of_nat (length (b_data b) + length (src_bytes s)) < b_size b)%N ->
  (length s < turns)%nat ->
  bufio.peek_loop turns n b (Some s)
  = Some (set_err (Some EOF) (set_data (b_data b ++ src_bytes s) b), Some []).
Proof.
  intros Hc. revert turns b.
  induction Hc as [| [bs e] s [Hne ->] _ IH]; intros turns b Herr Hn Hsz Ht;
    (destruct turns as [| t]; [simpl in Ht; lia|]);
    cbn [src_bytes length] in Hn, Hsz, Ht |- *; rewrite peek_loop_S.
  - rewrite peek_more_room by (assumption || lia).
    rewrite fill_at_end by lia.
    destruct t as [| t]; [reflexivity|].
    rewrite peek_loop_S, (peek_more_err _ _ EOF) by reflexivity. reflexivity.
  - rewrite length_app in Hn, Hsz.
    rewrite peek_more_room by (assumption || lia).
    rewrite fill_chunk by (assumption || lia).
    rewrite IH; cbn [b_data b_err b_size set_data]; rewrite ?length_app;
      try lia; try assumption.
    unfold set_err, set_data. cbn [b_data b_size b_rd b_err].
    rewrite <- app_assoc. reflexivity.
Qed.

(** The classification peek on a short stream: all its bytes, and
    [io.EOF]. *)
Lemma Peek_short (b : bufioReader) (s : Source) :
  short_stream s -> b_data b = [] -> b_err b = None -> (16 <= b_size b)%N ->
  bufio.Peek 10 b (Some s)
  = Some ((src_bytes s, Some EOF), (set_data (src_bytes s) b, Some [])).
Proof.
  intros [Hc Hlen] Hd He Hsz. unfold bufio.Peek.
  pose proof (clean_length s Hc) as Hcl.
  change (10 <? 0) with false. cbv iota.
  rewrite (peek_loop_clean s _ 10 b Hc He); rewrite ?Hd; simpl; try lia.
  destruct (Z.ltb_spec (Z.of_N (b_size b)) 10); [lia|].
  destruct (Z.ltb_spec (Z.of_nat (length (src_bytes s))) 10); [|lia].
  unfold set_err, set_data. simpl. rewrite He. reflexivity.
Qed.


Lemma Read_at_end (k : N) (b : bufioReader) :
  b_data b = [] -> b_err b = None -> (0 < k)%N ->
  exists b', bufio.Read k b (Some []) = Some (([], Some EOF), (b', Some []))
             /\ b_rd b' = b_rd b /\ b_data b' = [] /\ b_size b' = b_size b.
Proof.
  intros Hd He Hk. unfold bufio.Read.
  destruct (N.eqb_spec k 0); [lia|]. rewrite Hd, He. simpl.
  destruct (b_size b <=? k)%N; simpl; eexists; (split; [reflexivity|]); simpl; auto.
Qed.

Lemma Read_run (r : bufferedReader) (w : World) (k : N) id b sid s out b' s' :
  holds r w id b sid s ->
  bufio.Read k b (Some s) = Some ((out, Some EOF), (b', Some s')) ->
  bufferedReader_Read r k w
  = Some (((out, Some EOF), mkBuffered None),
          set_pool_puts (id :: pool_puts w)
            (set_pool (id :: pool w)
               (set_bufs (<[id := bufio.Reset None b']> (<[id := b']> (bufs w)))
                  (stored id b' sid s' w)))).
Proof.
  intros Hh HR. pose proof Hh as (Hb & _).
  unfold bufferedReader_Read. rewrite Hb. unfold bind at 1.
  rewrite (on_bufio_run w id (bufio.Read k) r b sid s _ b' s' Hh HR). cbn [snd is_EOF].
  unfold bind, bufio_Reset, Pool_Put, modify, ret, stored. simpl.
  rewrite lookup_insert_eq. reflexivity.
Qed.

Section Open.

Variable C : Codecs.
Variable env : Env.

(** C1, as the code has it.  On a stream of fewer than ten bytes the
    classification [Peek] hands over all of them together with [io.EOF],
    and [DecompressStream] goes on to dispatch on what they classify as:
    end-of-data during the peek is not by itself a failure.  When the
    bytes match no signature, which is so whenever there are fewer than
    three, the result is a handle reporting Uncompressed over the
    buffered reader; for a zero-length stream the first [Read] into a
    non-empty buffer returns end-of-data and no bytes. *)
Theorem DecompressStream_short (w : World) (archive : nat) (s : Source) :
  srcs w !! archive = Some s -> pool_ok w -> short_stream s ->
  Detect.iteration_order (range_order env) ->
  let compression := Detect.DetectCompression (range_order env) (src_bytes s) in
  exists buf w0 w1,
    newBufferedReader archive w = Some (buf, w0)
    /\ bufferedReader_Peek buf 10 w0 = Some ((src_bytes s, Some EOF), w1)
    /\ DecompressStream C env archive w
       = DecompressStream_switch C env (Some EOF) compression buf w1
    /\ ((length (src_bytes s) < 3)%nat -> compression = Uncompressed)
    /\ (compression = Uncompressed ->
        DecompressStream C env archive w
        = Some (inl (mkReadCloserWrapper (RdBuffered buf) Uncompressed None), w1))
    /\ (src_bytes s = [] ->
        forall k, (0 < k)%N ->
        exists h' w2,
          readCloserWrapper_Read C
            (mkReadCloserWrapper (RdBuffered buf) Uncompressed None) k w1
          = Some ((([], Some EOF), h'), w2)).
Proof.
  intros Hs Hok Hshort Ho compression.
  destruct (newBufferedReader_spec archive s w Hs Hok)
    as (id & b0 & w0 & Hnew & Hh & Hsz & _ & _).
  set (buf := mkBuffered (Some id)) in *.
  set (b := bufio.Reset (Some archive) b0) in *.
  pose proof (Peek_short b s Hshort eq_refl eq_refl Hsz) as Hpure.
  pose proof (on_bufio_run w0 id (bufio.Peek 10) buf b archive s _ _ _ Hh Hpure) as Hpeek.
  set (b1 := set_data (src_bytes s) b) in *.
  set (w1 := stored id b1 archive [] w0) in *.
  assert (HP : bufferedReader_Peek buf 10 w0 = Some ((src_bytes s, Some EOF), w1))
    by exact Hpeek.
  assert (Hopen : DecompressStream C env archive w
                  = DecompressStream_switch C env (Some EOF) compression buf w1).
  { unfold DecompressStream, bind. rewrite Hnew, HP. reflexivity. }
  exists buf, w0, w1.
  split; [exact Hnew|]. split; [exact HP|]. split; [exact Hopen|].
  split; [apply DetectCompression_short, Ho|].
  split.
  { intros Hu. rewrite Hopen, Hu. reflexivity. }
  intros Hnil k Hk.
  assert (Hh1 : holds buf w1 id b1 archive []).
  { destruct Hshort as [_ Hlen].
    eapply holds_stored; [exact Hh | reflexivity |].
    subst b1. simpl. lia. }
  assert (Hclean : s = []).
  { destruct Hshort as [Hc _]. destruct Hc as [| [bs e] s' [Hne _] _]; [reflexivity|].
    simpl in Hnil. apply app_eq_nil in Hnil as [-> _]. congruence. }
  destruct (Read_at_end k b1) as (b2 & HR & _); [exact Hnil | reflexivity | exact Hk |].
  unfold readCloserWrapper_Read. simpl. unfold bind.
  rewrite (Read_run buf w1 k id b1 archive [] [] b2 [] Hh1 HR).
  eexists _, _. reflexivity.
Qed.

End Open.

End OpenFacts.

Module PipeFacts.
Import Pipe.

Lemma Inv_started (p : Process) : Inv p [] (started p).
Proof. unfold Inv, started, pending. simpl. auto 10. Qed.

Lemma read_step_Inv (p : Process) (seen : list byte) (B : Bridge) (k : N) res B' :
  Inv p seen B -> read_step k B = Some (res, B') ->
  (exists bs, res = (bs, None) /\ bs = take (N.to_nat k) (inflight B)
              /\ inflight B <> [] /\ Inv p (seen ++ bs) B')
  \/ (res = ([], Some (terminal p)) /\ seen = concat (stdout p) /\ B' = B).
Proof.
  intros (Hp & Hr & Hc & Hcons & Hst) H. unfold read_step, done, readCloseError in H.
  rewrite Hr in H. simpl in H.
  destruct Hst as [[Hw Hs] | (Hw & Hs & Hu & Hi)]; rewrite Hw in H.
  - destruct (inflight B) as [| x d] eqn:Hin; [discriminate|].
    injection H as <- <-. left. eexists. split; [reflexivity|].
    split; [reflexivity|]. split; [discriminate|].
    unfold Inv, pending in *. simpl. rewrite Hin in Hcons.
    repeat split; auto.
    rewrite <- Hcons, <- !app_assoc. f_equal.
    rewrite app_assoc, take_drop. reflexivity.
  - injection H as <- <-. right. split; [reflexivity|]. split; [| reflexivity].
    unfold pending in Hcons. rewrite Hu, Hi in Hcons. simpl in Hcons.
    rewrite app_nil_r in Hcons. exact Hcons.
Qed.

Lemma copy_step_Inv (p : Process) (seen : list byte) (B B' : Bridge) :
  Inv p seen B -> copy_step B = Some B' ->
  Inv p seen B' /\ (length (unsent B') < length (unsent B))%nat
  /\ werr B' = None.
Proof.
  intros (Hp & Hr & Hc & Hcons & Hst) H. unfold copy_step, done in H.
  rewrite Hr in H. simpl in H.
  destruct Hst as [[Hw Hs] | (Hw & Hs & Hu & Hi)].
  - rewrite Hw in H.
    destruct (inflight B) as [| x d] eqn:Hin; [| discriminate].
    destruct (unsent B) as [| c rest] eqn:Hun; [discriminate|].
    injection H as <-. unfold Inv, pending in *. simpl in *.
    repeat split; auto. rewrite Hin, Hun in Hcons. exact Hcons.
  - rewrite Hu, Hi in H. discriminate.
Qed.

Lemma supervise_step_Inv (p : Process) (seen : list byte) (B B' : Bridge) :
  Inv p seen B -> supervise_step B = Some B' ->
  Inv p seen B' /\ werr B' = Some (terminal p).
Proof.
  intros (Hp & Hr & Hc & Hcons & Hst) H. unfold supervise_step, Wait in H.
  destruct Hst as [[Hw Hs] | (Hw & Hs & Hu & Hi)]; rewrite Hs in H; [| discriminate].
  destruct (unsent B) as [| c rest] eqn:Hun; [| discriminate].
  destruct (inflight B) as [| x d] eqn:Hin; [| discriminate].
  rewrite Hc, Hp in H. unfold pending in Hcons. rewrite Hin, Hun in Hcons.
  assert (Hterm : Some (terminal p)
                  = Some (match wait_error p with
                          | Some err => wrap_exit err (stderr p)
                          | None => EOF
                          end)) by reflexivity.
  destruct (wait_error p) as [err|]; injection H as <-;
    unfold Inv, CloseWriter, CloseWithError, pending; simpl; rewrite Hw; simpl;
    rewrite ?Hun, ?Hin, Hterm; auto 10.
Qed.

Lemma faithful_seen (p : Process) (seen : list byte) (B : Bridge) :
  Inv p seen B -> seen `prefix_of` concat (stdout p).
Proof. intros (_ & _ & _ & <- & _). apply prefix_app_r. reflexivity. Qed.

(** Safety: whatever the schedule, the caller sees the process's output
    in order, and an error only at its end. *)
Lemma run_faithful (p : Process) (sched : list label) (seen : list byte) (B : Bridge) :
  Inv p seen B -> faithful p seen (fst (run sched B)).
Proof.
  revert seen B. induction sched as [| l sched IH]; intros seen B HI; simpl; [exact I|].
  destruct l as [k | | ]; simpl.
  - destruct (read_step k B) as [[res B']|] eqn:Hstep; [| apply IH, HI].
    destruct (read_step_Inv p seen B k res B' HI Hstep)
      as [(bs & -> & _ & _ & HI') | (-> & Hall & ->)].
    + specialize (IH _ _ HI'). destruct (run sched B') as [os B'']. simpl in *.
      split; [eapply faithful_seen, HI' | exact IH].
    + specialize (IH _ _ HI). destruct (run sched B) as [os B'']. simpl in *.
      auto.
  - destruct (copy_step B) as [B'|] eqn:Hstep; [| apply IH, HI].
    destruct (copy_step_Inv p seen B B' HI Hstep) as (HI' & _).
    specialize (IH _ _ HI'). destruct (run sched B') as [os B'']. exact IH.
  - destruct (supervise_step B) as [B'|] eqn:Hstep; [| apply IH, HI].
    destruct (supervise_step_Inv p seen B B' HI Hstep) as (HI' & _).
    specialize (IH _ _ HI'). destruct (run sched B') as [os B'']. exact IH.
Qed.

(** Progress: a blocking read with a non-empty buffer returns bytes, or
    the terminal error once everything has been seen. *)
Lemma Read_progress (p : Process) (k : N) (turns : nat) (seen : list byte) (B : Bridge) :
  (0 < k)%N -> Inv p seen B -> (2 + length (unsent B) <= turns)%nat ->
  exists res B',
    Read turns k B = Some (res, B')
    /\ ((exists bs, res = (bs, None) /\ bs <> [] /\ Inv p (seen ++ bs) B'
                    /\ (length (pending B') < length (pending B))%nat)
        \/ (res = ([], Some (terminal p)) /\ seen = concat (stdout p)
            /\ Inv p seen B')).
Proof.
  intros Hk. revert seen B.
  induction turns as [| t IH]; intros seen B HI Ht; [lia|].
  simpl. destruct (read_step k B) as [[res B']|] eqn:Hstep.
  - exists res, B'. split; [reflexivity|].
    destruct (read_step_Inv p seen B k res B' HI Hstep)
      as [(bs & -> & Hbs & Hne & HI') | (-> & Hall & ->)].
    + left. exists bs. split; [reflexivity|].
      assert (Hpos : bs <> []).
      { subst bs. destruct (inflight B); [congruence|].
        destruct (N.to_nat k) eqn:Hn; [lia | discriminate]. }
      split; [exact Hpos|]. split; [exact HI'|].
      destruct HI as (_ & _ & _ & Hc & _). destruct HI' as (_ & _ & _ & Hc' & _).
      rewrite <- Hc in Hc'. rewrite <- app_assoc in Hc'.
      apply app_inv_head in Hc'. rewrite <- Hc', length_app.
      destruct bs; [congruence | simpl; lia].
    + right. auto.
  - unfold background.
    destruct (copy_step B) as [B1|] eqn:Hcopy.
    + destruct (copy_step_Inv p seen B B1 HI Hcopy) as (HI1 & Hlt & _).
      destruct (IH seen B1 HI1) as (res & B' & HR & Hcase); [lia|].
      exists res, B'. split; [exact HR|].
      assert (Hpend : pending B1 = pending B).
      { destruct HI as (_ & _ & _ & Hc & _). destruct HI1 as (_ & _ & _ & Hc1 & _).
        rewrite <- Hc in Hc1. apply app_inv_head in Hc1. exact Hc1. }
      rewrite <- Hpend. exact Hcase.
    + destruct (supervise_step B) as [B1|] eqn:Hsup.
      * destruct (supervise_step_Inv p seen B B1 HI Hsup) as (HI1 & Hw1).
        destruct t as [| t]; [lia|]. simpl.
        pose proof HI1 as (_ & Hr1 & _ & Hc1 & Hst1).
        assert (Hread : read_step k B1 = Some (([], Some (terminal p)), B1)).
        { unfold read_step, done, readCloseError. rewrite Hr1, Hw1. reflexivity. }
        rewrite Hread. exists ([], Some (terminal p)), B1. split; [reflexivity|].
        right. split; [reflexivity|]. split; [| exact HI1].
        destruct Hst1 as [[Hw _] | (_ & _ & Hu & Hi)]; [congruence|].
        unfold pending in Hc1. rewrite Hu, Hi in Hc1. simpl in Hc1.
        rewrite app_nil_r in Hc1. exact Hc1.
      * exfalso.
        pose proof HI as (Hp & Hr & Hc & Hcons & Hst).
        unfold read_step, done in Hstep. rewrite Hr in Hstep. simpl in Hstep.
        unfold copy_step, done in Hcopy. rewrite Hr in Hcopy. simpl in Hcopy.
        unfold supervise_step, Wait in Hsup.
        destruct Hst as [[Hw Hs] | (Hw & Hs & Hu & Hi)].
        -- rewrite Hw in Hstep, Hcopy. rewrite Hs in Hsup.
           destruct (inflight B); [| discriminate].
           destruct (unsent B); [| discriminate]. destruct (wait_error (proc B));
             discriminate.
        -- rewrite Hw in Hstep. discriminate.
Qed.

(** Liveness: reading on delivers the whole output and then the terminal
    error. *)
Lemma ReadAll_delivers (p : Process) (k : N) (n : nat) (seen : list byte) (B : Bridge) :
  (0 < k)%N -> Inv p seen B -> (length (pending B) < n)%nat ->
  exists B', ReadAll n k B = Some (pending B, terminal p, B').
Proof.
  intros Hk. revert seen B. induction n as [| n IH]; intros seen B HI Hn; [lia|].
  simpl.
  destruct (Read_progress p k (2 + length (unsent B)) seen B Hk HI)
    as (res & B1 & HR & [(bs & -> & Hne & HI1 & Hlt) | (-> & Hall & HI1)]); [lia| |].
  - simpl in HR. rewrite HR.
    destruct (IH _ B1 HI1) as (B' & HA); [lia|]. rewrite HA.
    exists B'. do 3 f_equal.
    destruct HI as (_ & _ & _ & Hc & _). destruct HI1 as (_ & _ & _ & Hc1 & _).
    rewrite <- Hc in Hc1. rewrite <- app_assoc in Hc1.
    apply app_inv_head in Hc1. exact Hc1.
  - simpl in HR. rewrite HR. exists B1. do 3 f_equal.
    destruct HI as (_ & _ & _ & Hc & _). rewrite Hall in Hc.
    rewrite <- (app_nil_r (concat (stdout p))) in Hc at 2.
    apply app_inv_head in Hc. rewrite Hc. reflexivity.
Qed.

Lemma embeds_left (a b : string) : embeds (a ++ b) a.
Proof. exists ""%string, b. reflexivity. Qed.

Lemma embeds_right (a b : string) : embeds (a ++ b) b.
Proof.
  exists a, ""%string.
  assert (H : forall s : string, (s ++ "")%string = s).
  { induction s as [| c s IH]; [reflexivity|].
    change (String c (s ++ "") = String c s)%string. f_equal. exact IH. }
  rewrite (H b). reflexivity.
Qed.

End PipeFacts.

Module DispatchFacts.
Import PipeFacts.

Lemma cmdStream_fails (env : Env) (cmd : Cmd) (input : bufferedReader)
    (w : World) (err : error) :
  start_error (spawn env (cmd_args cmd)) = Some err ->
  exists w', cmdStream env cmd input w = Some (inr err, w').
Proof.
  intros Hs. unfold cmdStream, bind, io_Pipe, cmd_Start, ret. rewrite Hs.
  eexists. reflexivity.
Qed.

Lemma cmdStream_starts (env : Env) (cmd : Cmd) (input : bufferedReader) (w : World) :
  start_error (spawn env (cmd_args cmd)) = None ->
  exists pid w', cmdStream env cmd input w = Some (inl pid, w')
                 /\ pipes w' !! pid = Some (started (spawn env (cmd_args cmd))).
Proof.
  intros Hs. unfold cmdStream, bind, io_Pipe, cmd_Start, go_supervise, ret.
  rewrite Hs. simpl. rewrite lookup_insert_eq. simpl.
  eexists _, _. split; [reflexivity|]. simpl. apply lookup_insert_eq.
Qed.

Lemma switch_Xz_fails (C : Codecs) (env : Env) (peek_err : option error)
    (buf : bufferedReader) (w : World) (err : error) :
  start_error (spawn env ["xz"; "-d"; "-c"; "-q"]%string) = Some err ->
  exists w', DecompressStream_switch C env peek_err Xz buf w = Some (inr err, w').
Proof.
  intros Hs. unfold DecompressStream_switch. simpl.
  unfold bind at 1. unfold WithCancel. unfold bind at 1. unfold xzDecompress.
  unfold bind at 1.
  destruct (cmdStream_fails env (CommandContext (next_ctx w) "xz" ["-d"; "-c"; "-q"]%string)
              buf (set_next_ctx (S (next_ctx w)) w) err Hs) as (w' & Hc).
  simpl in Hc |- *. rewrite Hc. unfold ret, bind, cancel, modify.
  eexists. reflexivity.
Qed.

(** C2.  If the process does not start, [cmdStream] returns the error and
    no reader (so [DecompressStream] fails at once on an Xz stream when
    [xz] cannot be started).  If it starts, the reader sees, under every
    schedule, the process's output in order and an error only at its end;
    reading on delivers all the output and then that error, which is
    [io.EOF] after exit status zero and otherwise a message holding both
    the exit failure and the captured standard error. *)
Theorem cmdStream_outcomes (env : Env) (cmd : Cmd) (input : bufferedReader) (w : World) :
  let p := spawn env (cmd_args cmd) in
  (forall err, start_error p = Some err ->
     (exists w', cmdStream env cmd input w = Some (inr err, w'))
     /\ (cmd_args cmd = ["xz"; "-d"; "-c"; "-q"]%string ->
         forall (C : Codecs) peek_err buf w0,
         exists w', DecompressStream_switch C env peek_err Xz buf w0
                    = Some (inr err, w')))
  /\ (start_error p = None ->
      exists pid w',
        cmdStream env cmd input w = Some (inl pid, w')
        /\ pipes w' !! pid = Some (started p)
        /\ (forall sched, faithful p [] (fst (Pipe.run sched (started p))))
        /\ (forall k, (0 < k)%N ->
            exists B', Pipe.ReadAll (S (length (concat (stdout p)))) k (started p)
                       = Some (concat (stdout p), terminal p, B'))
        /\ (wait_error p = None -> terminal p = EOF)
        /\ (forall err, wait_error p = Some err ->
            terminal p = Pipe.wrap_exit err (stderr p)
            /\ embeds (Error (terminal p)) (Error err)
            /\ embeds (Error (terminal p)) (stderr p))).
Proof.
  intros p. split.
  - intros err Hs. split; [apply cmdStream_fails, Hs|].
    intros Hargs C peek_err buf w0. apply switch_Xz_fails.
    rewrite <- Hargs. exact Hs.
  - intros Hs. destruct (cmdStream_starts env cmd input w Hs) as (pid & w' & Hc & Hl).
    exists pid, w'. split; [exact Hc|]. split; [exact Hl|].
    split; [intros sched; apply run_faithful, Inv_started|].
    split.
    { intros k Hk.
      destruct (ReadAll_delivers p k (S (length (concat (stdout p)))) []
                  (started p) Hk (Inv_started p)) as (B' & H).
      - unfold Pipe.pending, started. simpl. lia.
      - exists B'. exact H. }
    split; [intros Hw; unfold terminal; rewrite Hw; reflexivity|].
    intros err Hw. unfold terminal. rewrite Hw.
    split; [reflexivity|]. unfold Pipe.wrap_exit. simpl. split.
    + apply embeds_left.
    + change (Error err ++ ": " ++ stderr p)%string
        with (Error err ++ (": " ++ stderr p))%string.
      destruct (embeds_right ": " (stderr p)) as (pre & post & Heq).
      exists (Error err ++ pre)%string, post. rewrite Heq.
      clear. induction (Error err) as [| c s IH]; [reflexivity|].
      change (String c (s ++ pre ++ stderr p ++ post)
              = String c ((s ++ pre) ++ stderr p ++ post))%string.
      f_equal. exact IH.
Qed.


Lemma Extension_other (compression : Z) :
  compression <> Gzip -> compression <> Zstd -> Extension compression = ""%string.
Proof.
  intros Hg Hz. unfold Extension.
  destruct (Z.eqb_spec compression Gzip); [contradiction|].
  destruct (Z.eqb_spec compression Zstd); [contradiction|]. reflexivity.
Qed.

Lemma CompressStream_default (C : Codecs) (dest : nat) (compression : Z) (w : World) :
  compression <> Uncompressed -> compression <> Gzip -> compression <> Zstd ->
  CompressStream C dest compression w
  = Some (inr (unsupported (Extension compression)), w).
Proof.
  intros Hu Hg Hz. unfold CompressStream.
  destruct (Z.eqb_spec compression Uncompressed); [contradiction|].
  destruct (Z.eqb_spec compression Gzip); [contradiction|].
  destruct (Z.eqb_spec compression Zstd); [contradiction|]. reflexivity.
Qed.

Lemma switch_default (C : Codecs) (env : Env) (peek_err : option error)
    (compression : Z) (buf : bufferedReader) (w : World) :
  compression <> Uncompressed -> compression <> Gzip -> compression <> Zstd ->
  compression <> Bzip2 -> compression <> Xz ->
  DecompressStream_switch C env peek_err compression buf w
  = Some (inr (unsupported (Extension compression)), w).
Proof.
  intros Hu Hg Hz Hb Hx. unfold DecompressStream_switch.
  destruct (Z.eqb_spec compression Uncompressed); [contradiction|].
  destruct (Z.eqb_spec compression Gzip); [contradiction|].
  destruct (Z.eqb_spec compression Zstd); [contradiction|].
  destruct (Z.eqb_spec compression Xz); [contradiction|].
  destruct (Z.eqb_spec compression Bzip2); [contradiction|]. reflexivity.
Qed.

(** C8.  [CompressStream] hands back a writer for Uncompressed, Gzip and
    Zstd (for the last two, whatever the codec's constructor gives); for
    every other value, Bzip2 and Xz among them, it returns the
    unsupported-format error naming the value's extension and leaves the
    store, the destination included, as it was.  The [default] case of
    [DecompressStream] builds the same error. *)
Theorem CompressStream_supported (C : Codecs) (dest : nat) (w : World) :
  CompressStream C dest Uncompressed w = Some (inl (WcWrapper dest None), w)
  /\ (forall r w', CompressStream C dest Gzip w = Some (r, w') ->
      exists z, gzip_NewWriter C dest w = Some (z, w') /\ r = inl (WcGzip z))
  /\ (forall r w', CompressStream C dest Zstd w = Some (r, w') ->
      exists zr, zstd_NewWriter C dest w = Some (zr, w')
                 /\ r = match zr with
                        | inl z => inl (WcZstd z)
                        | inr err => inr err
                        end)
  /\ CompressStream C dest Bzip2 w = Some (inr (unsupported (Extension Bzip2)), w)
  /\ CompressStream C dest Xz w = Some (inr (unsupported (Extension Xz)), w)
  /\ (forall compression,
      compression <> Uncompressed -> compression <> Gzip -> compression <> Zstd ->
      CompressStream C dest compression w
      = Some (inr (unsupported (Extension compression)), w)
      /\ (compression <> Bzip2 -> compression <> Xz ->
          forall env peek_err buf,
            DecompressStream_switch C env peek_err compression buf w
            = Some (inr (unsupported (Extension compression)), w))).
Proof.
  split; [reflexivity|].
  split.
  { intros r w' H. unfold CompressStream in H. simpl in H. unfold bind, ret in H.
    destruct (gzip_NewWriter C dest w) as [[z w1]|]; [| discriminate].
    injection H as <- <-. exists z. auto. }
  split.
  { intros r w' H. unfold CompressStream in H. simpl in H. unfold bind, ret in H.
    destruct (zstd_NewWriter C dest w) as [[zr w1]|]; [| discriminate].
    injection H as <- <-. exists zr. auto. }
  split; [reflexivity|]. split; [reflexivity|].
  intros compression Hu Hg Hz.
  split; [apply CompressStream_default; assumption|].
  intros Hb Hx env peek_err buf. apply switch_default; assumption.
Qed.

(** C9.  [Extension] is gz for Gzip, zst for Zstd and empty for every
    other value; so the unsupported-format error of [CompressStream] for
    Bzip2 and Xz, and of [DecompressStream]'s [default] case, names an
    empty extension. *)
Theorem Extension_values (C : Codecs) (env : Env) (dest : nat)
    (buf : bufferedReader) (peek_err : option error) (w : World) :
  Extension Gzip = "gz"%string
  /\ Extension Zstd = "zst"%string
  /\ Extension Uncompressed = ""%string
  /\ Extension Bzip2 = ""%string
  /\ Extension Xz = ""%string
  /\ (forall compression, compression <> Gzip -> compression <> Zstd ->
      Extension compression = ""%string)
  /\ CompressStream C dest Bzip2 w
     = Some (inr (ErrorString "unsupported compression format "), w)
  /\ CompressStream C dest Xz w
     = Some (inr (ErrorString "unsupported compression format "), w)
  /\ (forall compression, compression < 0 \/ 4 < compression ->
      DecompressStream_switch C env peek_err compression buf w
      = Some (inr (ErrorString "unsupported compression format "), w)).
Proof.
  repeat split; try reflexivity.
  - apply Extension_other.
  - intros compression Hout.
    rewrite switch_default by (unfold Uncompressed, Gzip, Zstd, Bzip2, Xz; lia).
    rewrite Extension_other by (unfold Gzip, Zstd; lia). reflexivity.
Qed.

(** C10.  Provided the codecs' own [Close] leaves the caller's streams
    alone, closing a handle made by [DecompressStream] does too.  For
    Uncompressed the closer is nil and for Bzip2 it does nothing: [Close]
    returns nil with the store untouched.  For Gzip and Xz the closer is
    [cancel] followed by the decoder's [Close], for Zstd the decoder's
    [Close] followed by nil. *)
Theorem Close_leaves_source (C : Codecs) (env : Env) :
  (forall z w e w', gzip_Close C z w = Some (e, w') -> srcs w' = srcs w) ->
  (forall z w u w', zstd_Close C z w = Some (u, w') -> srcs w' = srcs w) ->
  forall peek_err compression buf w h w1,
    DecompressStream_switch C env peek_err compression buf w = Some (inl h, w1) ->
    (forall w2 e w3, readCloserWrapper_Close h w2 = Some (e, w3) ->
                     srcs w3 = srcs w2)
    /\ (compression = Uncompressed ->
        closer h = None
        /\ forall w2, readCloserWrapper_Close h w2 = Some (None, w2))
    /\ (compression = Bzip2 ->
        forall w2, readCloserWrapper_Close h w2 = Some (None, w2))
    /\ (compression = Gzip \/ compression = Xz ->
        exists ctx rc, closer h = Some (cancel ctx ;; ReadCloser_Close C rc))
    /\ (compression = Zstd ->
        exists z, closer h = Some (zstd_Close C z ;; ret None)).
Proof.
  intros Hgz Hzs peek_err compression buf w h w1 Hopen.
  assert (Hrc : forall ctx rc w2 e w3,
             (cancel ctx ;; ReadCloser_Close C rc) w2 = Some (e, w3) ->
             srcs w3 = srcs w2).
  { intros ctx rc w2 e w3 H. unfold bind, cancel, modify in H.
    destruct rc as [z | pid]; simpl in H.
    - apply Hgz in H. exact H.
    - unfold PipeReader_Close in H. simpl in H.
      destruct (pipes w2 !! pid); [| discriminate].
      injection H as _ <-. reflexivity. }
  unfold DecompressStream_switch in Hopen.
  destruct (Z.eqb_spec compression Uncompressed) as [-> | Hu].
  { injection Hopen as <- <-. unfold readCloserWrapper_Close. simpl.
    split; [intros w2 e w3 H; injection H as _ <-; reflexivity|].
    split; [auto|]. split; [discriminate|].
    split; [intros [H | H]; discriminate H | discriminate]. }
  destruct (Z.eqb_spec compression Gzip) as [-> | Hg].
  { unfold bind at 1 in Hopen. unfold WithCancel in Hopen.
    unfold bind at 1 in Hopen.
    destruct (gzipDecompress C env (next_ctx w) buf _) as [[[rc | err] w']|];
      [| | discriminate].
    2:{ unfold bind, cancel, modify, ret in Hopen. discriminate. }
    injection Hopen as <- <-. unfold readCloserWrapper_Close. simpl.
    split; [intros w2 e w3 H; eapply Hrc, H|].
    split; [discriminate|]. split; [discriminate|].
    split; [intros _; eauto | discriminate]. }
  destruct (Z.eqb_spec compression Zstd) as [-> | Hz].
  { unfold bind at 1 in Hopen.
    destruct (zstd_NewReader C buf w) as [[[z | err] w']|]; [| discriminate..].
    injection Hopen as <- <-. unfold readCloserWrapper_Close. simpl.
    split.
    { intros w2 e w3 H. unfold bind, ret in H.
      destruct (zstd_Close C z w2) as [[u w4]|] eqn:Hc; [| discriminate].
      injection H as _ <-. eapply Hzs, Hc. }
    split; [discriminate|]. split; [discriminate|].
    split; [intros [H | H]; discriminate H | intros _; eauto]. }
  destruct (Z.eqb_spec compression Xz) as [-> | Hx].
  { unfold bind at 1 in Hopen. unfold WithCancel in Hopen.
    unfold bind at 1 in Hopen.
    destruct (xzDecompress C env (next_ctx w) buf _) as [[[rc | err] w']|];
      [| | discriminate].
    2:{ unfold bind, cancel, modify, ret in Hopen. discriminate. }
    injection Hopen as <- <-. unfold readCloserWrapper_Close. simpl.
    split; [intros w2 e w3 H; eapply Hrc, H|].
    split; [discriminate|]. split; [discriminate|].
    split; [intros _; eauto | discriminate]. }
  destruct (Z.eqb_spec compression Bzip2) as [-> | Hb].
  { unfold bind at 1 in Hopen.
    destruct (bzip2_NewReader C buf w) as [[z w']|]; [| discriminate].
    destruct peek_err as [e0|]; [discriminate|].
    injection Hopen as <- <-. unfold readCloserWrapper_Close. simpl.
    split; [intros w2 e w3 H; injection H as _ <-; reflexivity|].
    split; [discriminate|]. split; [auto|].
    split; [intros [H | H]; discriminate H | discriminate]. }
  discriminate.
Qed.

End DispatchFacts.

Module Runs.
Import DetectFacts BufioFacts ReaderFacts OpenFacts PipeFacts DispatchFacts.

Lemma reading_attached (s : Source) : attached Sample.reader (Sample.reading s).
Proof.
  exists (mkBufio 32768 (Some 0%nat) [] None), 0%nat, s.
  repeat split; try reflexivity. simpl. lia.
Qed.

Lemma world_pool_ok (s : Source) : pool_ok (Sample.world s).
Proof. intros id Hin. simpl in Hin. apply elem_of_nil in Hin. contradiction. Qed.

Lemma empty_short : short_stream [].
Proof. split; [constructor | simpl; lia]. Qed.

(** A zero-length stream on a machine with no decoders opens as
    Uncompressed. *)
Lemma DecompressStream_short_witness :
  Sample.opened Sample.bare [] = Some (inl Uncompressed).
Proof.
  destruct (DecompressStream_short Sample.codecs Sample.bare (Sample.world []) 0%nat []
              eq_refl (world_pool_ok []) empty_short literal_is_order)
    as (buf & w0 & w1 & _ & _ & _ & Hlt & Hopen & _).
  unfold Sample.opened. rewrite Hopen; [reflexivity|].
  apply Hlt. simpl. lia.
Defined.

(** C1, as stated, fails.  A six-byte stream holding the Xz magic is
    short, and on a machine where [xz] cannot be started
    [DecompressStream] returns the spawn error, not a handle.  And on the
    handle opened on a zero-length stream a [Read] into a zero-length
    buffer returns no bytes and no error. *)
Lemma short_xz_without_decoder_fails :
  short_stream [Chunk [xfd; x37; x7a; x58; x5a; x00] None]
  /\ Sample.opened Sample.bare [Chunk [xfd; x37; x7a; x58; x5a; x00] None]
     = Some (inr (ErrorString "exec: xz: executable file not found in $PATH"))
  /\ Sample.opened Sample.bare [] = Some (inl Uncompressed)
  /\ Sample.open_then_read Sample.bare [] 0 = Some ([], None).
Proof.
  split.
  { split; [| simpl; lia]. repeat constructor. discriminate. }
  split; [vm_compute; reflexivity|]. split; vm_compute; reflexivity.
Qed.

(** The [Bzip2] case tests the [err] left by the classification peek:
    a stream of the three magic bytes alone is answered with that
    [io.EOF]. *)
Example short_bzip2_reports_peek_EOF :
  Sample.opened Sample.bare [Chunk [x42; x5a; x68] None] = Some (inr EOF).
Proof. vm_compute. reflexivity. Qed.

(** An [xz] that writes three bytes and exits with status 1: reading on
    gives the three bytes, then the exit failure with its standard
    error. *)
Lemma cmdStream_outcomes_witness :
  exists B',
    Pipe.ReadAll 4 1 (started Sample.failing_xz)
    = Some ([x61; x62; x63],
            ErrorString "exit status 1: xz: (stdin): File format not recognized", B').
Proof.
  destruct (cmdStream_outcomes Sample.with_xz
              (CommandContext 0 "xz" ["-d"; "-c"; "-q"]%string)
              Sample.reader (Sample.world [])) as [_ Hrun].
  destruct (Hrun eq_refl) as (pid & w' & _ & _ & _ & Hall & _).
  destruct (Hall 1%N eq_refl) as (B' & HB). exists B'. exact HB.
Defined.

(** Two peeks on a stream whose second read fails once. *)
Lemma Peek_keeps_position_witness :
  exists bs1 e1 w1 bs2 e2 w2,
    bufferedReader_Peek Sample.reader 4 (Sample.reading Sample.flaky)
    = Some ((bs1, e1), w1)
    /\ bufferedReader_Peek Sample.reader 3 w1 = Some ((bs2, e2), w2)
    /\ take 3 bs1 `prefix_of` bs2.
Proof.
  destruct (Peek_keeps_position Sample.reader (Sample.reading Sample.flaky) 4 3 2
              (reading_attached Sample.flaky) ltac:(lia))
    as (bs1 & e1 & w1 & bs2 & e2 & w2 & out & e3 & r3 & w3 &
        H1 & H2 & _ & _ & _ & _ & _ & Hpre & _).
  exists bs1, e1, w1, bs2, e2, w2. auto.
Defined.

(** C6, as stated, fails.  After a [Peek] cut short by an error of the
    stream the same [Peek] again returns more bytes; and a [Peek] of
    fewer bytes returns fewer. *)
Lemma Peek_twice_differs :
  attached Sample.reader (Sample.reading Sample.flaky)
  /\ Sample.peek_twice Sample.flaky 4 4
     = Some (([x61; x62], Some (ErrorString "i/o timeout")),
             ([x61; x62; x63; x64], None))
  /\ Sample.peek_twice [Chunk [x61; x62; x63] None] 3 2
     = Some (([x61; x62; x63], None), ([x61; x62], None)).
Proof.
  split; [apply reading_attached|]. split; vm_compute; reflexivity.
Qed.

(** A run of calls on a two-byte stream. *)
Lemma pool_return_once_witness :
  exists outs r' w',
    do_calls [CallPeek 10; CallRead 4; CallRead 4; CallPeek 1; CallRead 4]
      Sample.reader (Sample.reading [Chunk [x61; x62] None])
    = Some ((outs, r'), w').
Proof.
  destruct (pool_return_once
              [CallPeek 10; CallRead 4; CallRead 4; CallPeek 1; CallRead 4]
              Sample.reader (Sample.reading [Chunk [x61; x62] None]) 0%nat
              (reading_attached _) eq_refl) as (outs & r' & w' & Hrun & _).
  exists outs, r', w'. exact Hrun.
Defined.

(** The same run, evaluated: the second [Read] reports end-of-data and
    buffer 0 goes to the pool, once; the calls after it change nothing. *)
Example pool_return_once_run :
  match do_calls [CallPeek 10; CallRead 4; CallRead 4; CallPeek 1; CallRead 4]
          Sample.reader (Sample.reading [Chunk [x61; x62] None]) with
  | Some ((outs, r'), w') => Some (outs, buf r', pool w', pool_puts w')
  | None => None
  end
  = Some ([([x61; x62], Some EOF); ([x61; x62], None); ([], Some EOF);
           ([], Some EOF); ([], Some EOF)],
          None, [0%nat], [0%nat]).
Proof. vm_compute. reflexivity. Qed.

(** Closing an Uncompressed handle returns nil and changes nothing. *)
Lemma Close_leaves_source_witness :
  readCloserWrapper_Close
    (mkReadCloserWrapper (C := Sample.codecs) (RdBuffered Sample.reader) Uncompressed None)
    (Sample.reading [])
  = Some (None, Sample.reading []).
Proof.
  refine (proj2 (proj1 (proj2
    (Close_leaves_source Sample.codecs Sample.bare _ _ None Uncompressed
       Sample.reader (Sample.world []) _ _ eq_refl)) eq_refl) _).
  - intros z w e w' H. injection H as _ <-. reflexivity.
  - intros z w u w' H. injection H as _ <-. reflexivity.
Defined.

End Runs.

Module DetectMore.
Import Detect DetectFacts.

Lemma matchers_literal (c : Z) (fn : matcher) :
  matchers !! c = Some fn -> (c, fn) ∈ literal_order.
Proof.
  intros H. apply elem_of_map_to_list in H.
  pose proof literal_is_order as Hp. unfold iteration_order in Hp.
  rewrite Hp. exact H.
Qed.

(** X1.  No window is accepted by the matchers of two different
    algorithms. *)
Theorem at_most_one_matcher (window : list byte) (c c' : Z) (fn fn' : matcher) :
  matchers !! c = Some fn -> matchers !! c' = Some fn' ->
  fn window = true -> fn' window = true -> c = c'.
Proof.
  intros H H' Hw Hw'.
  apply (signatures_disjoint window c c' fn fn'); auto using matchers_literal.
Qed.

Lemma matchers_Zstd : matchers !! Zstd = Some zstdMatcher.
Proof.
  unfold matchers. rewrite lookup_insert_ne by discriminate.
  apply lookup_insert_eq.
Qed.

Lemma at_most_one_matcher_witness : Zstd = Zstd.
Proof.
  apply (at_most_one_matcher [x28; xb5; x2f; xfd; x00] Zstd Zstd zstdMatcher zstdMatcher
           matchers_Zstd matchers_Zstd); reflexivity.
Defined.

Lemma skippable_value (b0 : byte) :
  0x50 <= byteZ b0 <= 0x5F ->
  clear_low_nibble (le32_value b0 x2a x4d x18) = zstdMagicSkippableStart.
Proof.
  intros Hb. unfold clear_low_nibble, le32_value, zstdMagicSkippableStart.
  change (byteZ x2a) with 42. change (byteZ x4d) with 77. change (byteZ x18) with 24.
  Z.div_mod_to_equations. lia.
Qed.

Lemma skippable_not_magic (b0 : byte) :
  0x50 <= byteZ b0 <= 0x5F -> b0 <> x1f /\ b0 <> x28 /\ b0 <> x42 /\ b0 <> xfd.
Proof.
  intros Hb. repeat split; intros ->; vm_compute in Hb; destruct Hb as [Ha Hc];
    try (apply Ha; reflexivity); apply Hc; reflexivity.
Qed.

(** X2.  A window of at least eight bytes that starts with a skippable-
    frame magic (5x 2A 4D 18, any low nibble) is Zstd whatever follows;
    the same four bytes followed by fewer than four more are
    Uncompressed. *)
Theorem skippable_frame_needs_eight_bytes (order : list (Z * matcher)) (b0 : byte) :
  iteration_order order -> 0x50 <= byteZ b0 <= 0x5F ->
  (forall b4 b5 b6 b7 rest,
     DetectCompression order (b0 :: x2a :: x4d :: x18 :: b4 :: b5 :: b6 :: b7 :: rest)
     = Zstd)
  /\ (forall tail, (length tail < 4)%nat ->
      DetectCompression order (b0 :: x2a :: x4d :: x18 :: tail) = Uncompressed).
Proof.
  intros Ho Hb. split.
  - intros b4 b5 b6 b7 rest.
    apply (DetectCompression_hit order _ Zstd zstdMatcher Ho).
    + unfold literal_order. apply list_elem_of_further, list_elem_of_here.
    + rewrite zstdMatcher_long by (simpl; lia).
      rewrite (skippable_value b0 Hb), Z.eqb_refl. apply orb_true_r.
  - intros tail Hlen. rewrite DetectCompression_literal by assumption.
    apply range_first_none. intros c fn Hin.
    destruct (fn (b0 :: x2a :: x4d :: x18 :: tail)) eqn:Hfn; [exfalso | reflexivity].
    destruct (skippable_not_magic b0 Hb) as (N1 & N2 & N3 & N4).
    unfold literal_order in Hin.
    repeat (apply elem_of_cons in Hin as [Hin | Hin]);
      try (apply elem_of_nil in Hin; contradiction);
      injection Hin as -> ->.
    + apply magic_first in Hfn as [t Ht]. injection Ht as Ht _. auto.
    + rewrite zstdMatcher_short in Hfn by (simpl; lia).
      apply HasPrefix_spec in Hfn as [k Hk]. injection Hk as Hk _. auto.
    + apply magic_first in Hfn as [t Ht]. injection Ht as Ht _. auto.
    + apply magic_first in Hfn as [t Ht]. injection Ht as Ht _. auto.
Qed.

Lemma skippable_frame_needs_eight_bytes_witness :
  DetectCompression (rev literal_order) [x5f; x2a; x4d; x18; x01; x00; x00; x00; xaa] = Zstd
  /\ DetectCompression (rev literal_order) [x5f; x2a; x4d; x18; x01; x00; x00] = Uncompressed.
Proof.
  destruct (skippable_frame_needs_eight_bytes (rev literal_order) x5f
              rev_literal_is_order ltac:(vm_compute; split; discriminate)) as [H8 H4].
  split; [apply H8 | apply H4; simpl; lia].
Defined.

End DetectMore.

Module ToolFacts.

Lemma ParseBool_true (v : string) : fst (ParseBool v) = true <-> In v disabling.
Proof.
  unfold ParseBool, disabling.
  destruct (existsb (String.eqb v) ["1"; "t"; "T"; "TRUE"; "true"; "True"]%string) eqn:H.
  - simpl. split; [intros _ | reflexivity].
    apply existsb_exists in H as (x & Hin & Heq). apply String.eqb_eq in Heq.
    subst x. exact Hin.
  - assert (Hno : ~ In v ["1"; "t"; "T"; "TRUE"; "true"; "True"]%string).
    { intros Hin. apply not_true_iff_false in H. apply H.
      apply existsb_exists. exists v. split; [exact Hin | apply String.eqb_refl]. }
    match goal with
    | |- fst ?e = true <-> _ =>
        assert (Hf : fst e = false)
          by (destruct (existsb (String.eqb v) ("0" :: _)%string); reflexivity);
        rewrite Hf
    end.
    split; [discriminate | intros Hin; contradiction].
Qed.

(** X3.  [detectCommand] gives no path exactly when the disabling
    variable holds one of 1, t, T, TRUE, true, True, or the command is
    not found; any other value of the variable (unset, a false value, or
    one that does not parse) leaves the answer to [exec.LookPath]. *)
Theorem detectCommand_toggle (env : Env) (path disableEnvName : string) :
  (In (Getenv env disableEnvName) disabling ->
   detectCommand env path disableEnvName = ""%string)
  /\ (~ In (Getenv env disableEnvName) disabling ->
      detectCommand env path disableEnvName
      = match LookPath env path with Some p => p | None => ""%string end).
Proof.
  unfold detectCommand. split; intros H.
  - pose proof (proj2 (ParseBool_true _) H) as Hp. rewrite Hp.
    destruct (String.eqb_spec (Getenv env disableEnvName) "") as [He | _];
      [| reflexivity].
    rewrite He in H. unfold disabling in H. simpl in H.
    repeat (destruct H as [H | H]; [discriminate H|]). contradiction.
  - assert (Hp : fst (ParseBool (Getenv env disableEnvName)) = false).
    { destruct (fst (ParseBool _)) eqn:Hf; [| reflexivity].
      apply ParseBool_true in Hf. contradiction. }
    rewrite Hp, andb_false_r. reflexivity.
Qed.


(** X4.  The gzip accelerator is looked for once.  The first
    [initGzip.Do] prefers igzip to unpigz and remembers the answer; from
    then on neither the environment nor the search path is consulted,
    and [gzipDecompress] opens the built-in decoder when the remembered
    path is empty and otherwise pipes through [path -d -c]. *)
Theorem gzip_tool_chosen_once (C : Codecs) (env env' : Env) (w : World)
    (ctx : nat) (buf : bufferedReader) :
  gzip_once w = None ->
  exists gzipPath w1,
    initGzip_Do env w = Some (gzipPath, w1)
    /\ gzip_once w1 = Some gzipPath
    /\ (detectCommand env "igzip" disableIgzipEnv <> ""%string ->
        gzipPath = detectCommand env "igzip" disableIgzipEnv)
    /\ (detectCommand env "igzip" disableIgzipEnv = ""%string ->
        gzipPath = detectCommand env "unpigz" disablePigzEnv)
    /\ initGzip_Do env' w1 = Some (gzipPath, w1)
    /\ (gzipPath = ""%string ->
        gzipDecompress C env' ctx buf w1
        = (let* r := gzip_NewReader C buf in
           ret (match r with inl z => inl (RcGzip z) | inr err => inr err end)) w1)
    /\ (gzipPath <> ""%string ->
        gzipDecompress C env' ctx buf w1
        = (let* r := cmdStream env' (CommandContext ctx gzipPath ["-d"; "-c"]%string) buf in
           ret (match r with inl pid => inl (RcPipe pid) | inr err => inr err end)) w1).
Proof.
  intros Hnone. unfold initGzip_Do at 1. rewrite Hnone.
  set (igzip := detectCommand env "igzip" disableIgzipEnv).
  set (p := if negb (String.eqb igzip "") then igzip
            else detectCommand env "unpigz" disablePigzEnv).
  exists p, (set_gzip_once (Some p) w).
  split; [reflexivity|]. split; [reflexivity|].
  split.
  { intros Hne. subst p. destruct (String.eqb_spec igzip ""); [contradiction | reflexivity]. }
  split.
  { intros He. subst p. rewrite He. reflexivity. }
  split; [reflexivity|].
  split.
  - intros Hp. unfold gzipDecompress, bind at 1. unfold initGzip_Do. simpl gzip_once.
    cbv iota beta. rewrite Hp. reflexivity.
  - intros Hp. unfold gzipDecompress, bind at 1. unfold initGzip_Do. simpl gzip_once.
    cbv iota beta. destruct (String.eqb_spec p ""); [contradiction | reflexivity].
Qed.

End ToolFacts.

Module CancelFacts.

(** X5.  When the Gzip or Xz decoder cannot be opened, the context made
    for it has been cancelled by the time [DecompressStream] returns the
    error; when the Xz decoder starts, no context is cancelled. *)
Theorem failed_open_cancels (C : Codecs) (env : Env) (peek_err : option error)
    (buf : bufferedReader) (w : World) :
  (forall compression err w',
     compression = Gzip \/ compression = Xz ->
     DecompressStream_switch C env peek_err compression buf w = Some (inr err, w') ->
     exists rest, cancelled w' = next_ctx w :: rest)
  /\ (forall h w',
      DecompressStream_switch C env peek_err Xz buf w = Some (inl h, w') ->
      cancelled w' = cancelled w).
Proof.
  split.
  - intros compression err w' Hc H. unfold DecompressStream_switch in H.
    destruct Hc as [-> | ->]; simpl in H;
      unfold bind at 1 in H; unfold WithCancel in H; unfold bind at 1 in H.
    + destruct (gzipDecompress C env (next_ctx w) buf _) as [[[rc | e] w1]|];
        [discriminate | | discriminate].
      unfold bind, cancel, modify, ret in H. injection H as _ <-.
      simpl. eauto.
    + destruct (xzDecompress C env (next_ctx w) buf _) as [[[rc | e] w1]|];
        [discriminate | | discriminate].
      unfold bind, cancel, modify, ret in H. injection H as _ <-.
      simpl. eauto.
  - intros h w' H. unfold DecompressStream_switch in H. simpl in H.
    unfold bind at 1 in H. unfold WithCancel in H. unfold bind at 1 in H.
    unfold xzDecompress, bind at 1, cmdStream, bind at 1, io_Pipe in H.
    unfold bind at 1, cmd_Start in H. simpl in H.
    destruct (start_error (spawn env _)).
    + unfold ret, bind, cancel, modify in H. discriminate.
    + unfold bind, go_supervise, ret in H. simpl in H.
      rewrite lookup_insert_eq in H. simpl in H. injection H as _ <-. reflexivity.
Qed.

End CancelFacts.

Module TidyFacts.
Import BufioFacts ReaderFacts OpenFacts.

Lemma src_Read_clean (cap : N) (s : Source) :
  clean s -> (0 < cap)%N ->
  (s = [] /\ src_Read cap s = (([], Some EOF), []))
  \/ (exists out s', src_Read cap s = ((out, None), s') /\ out <> [] /\ clean s'
                     /\ src_bytes s = out ++ src_bytes s'
                     /\ (N.of_nat (length out) <= cap)%N).
Proof.
  intros Hc Hcap. destruct Hc as [| [bs e] rest [Hne ->] Hrest]; [left; auto|].
  right. simpl.
  destruct (N.leb_spec (N.of_nat (length bs)) cap) as [Hle | Hgt].
  - exists bs, rest. repeat split; auto.
  - exists (take (N.to_nat cap) bs), (Chunk (drop (N.to_nat cap) bs) None :: rest).
    split; [reflexivity|]. split.
    { intros Hnil. apply (f_equal length) in Hnil. rewrite length_take in Hnil.
      simpl in Hnil. lia. }
    split.
    { constructor; [| exact Hrest]. split; [| reflexivity].
      intros Hnil. apply (f_equal length) in Hnil. rewrite length_drop in Hnil.
      simpl in Hnil. lia. }
    split; [simpl; rewrite app_assoc, take_drop; reflexivity|].
    rewrite length_take. lia.
Qed.

Lemma fill_tidy (b : bufioReader) (s : Source) :
  tidy b s -> b_err b = None ->
  (N.of_nat (length (b_data b)) < b_size b)%N ->
  exists b' s',
    bufio.fill b (Some s) = Some (b', Some s')
    /\ tidy b' s' /\ refills b s b' s'.
Proof.
  intros [Hc _] Herr Hroom. unfold bufio.fill.
  destruct (N.leb_spec (b_size b) (N.of_nat (length (b_data b)))); [lia|].
  change bufio.maxConsecutiveEmptyReads with (S 99). rewrite fill_tries_S.
  unfold bufio.rd_Read.
  destruct (src_Read_clean (b_size b - N.of_nat (length (b_data b))) s Hc)
    as [[-> Hr] | (out & s' & Hr & Hne & Hc' & Hb & Hle)]; [lia | |]; rewrite Hr.
  - exists (set_err (Some EOF) (set_data (b_data b ++ []) b)), [].
    split; [reflexivity|]. split; [split; [constructor | right; auto]|].
    exists []. simpl. rewrite app_nil_r. repeat split; auto. lia.
  - cbv zeta.
    destruct (Nat.ltb_spec 0 (length out)) as [_ | Hz];
      [| destruct out; [congruence | simpl in Hz; lia]].
    exists (set_data (b_data b ++ out) b), s'.
    split; [reflexivity|]. split; [split; [exact Hc' | left; exact Herr]|].
    exists out. simpl. rewrite length_app. repeat split; auto. lia.
Qed.

Lemma peek_loop_keeps_tidy (turns : nat) (n : Z) (b : bufioReader) (s : Source)
    (b' : bufioReader) (s' : option Source) :
  tidy b s -> (N.of_nat (length (b_data b)) <= b_size b)%N ->
  bufio.peek_loop turns n b (Some s) = Some (b', s') ->
  exists s1, s' = Some s1 /\ tidy b' s1.
Proof.
  revert b s. induction turns as [| t IH]; intros b s Ht Hlen H.
  - injection H as <- <-. eauto.
  - rewrite peek_loop_S in H. destruct (bufio.peek_more n b) eqn:Hmore.
    + unfold bufio.peek_more in Hmore.
      apply andb_prop in Hmore as [Hm He]. apply andb_prop in Hm as [_ Hm].
      apply N.ltb_lt in Hm.
      assert (Herr : b_err b = None) by (destruct (b_err b); [discriminate | reflexivity]).
      destruct (fill_tidy b s Ht Herr Hm) as (b1 & s1 & Hf & Ht1 & Hr1).
      rewrite Hf in H. apply (IH b1 s1 Ht1); [| exact H].
      destruct Hr1 as (? & _ & _ & Hz & _ & Hle). rewrite Hz. exact Hle.
    + injection H as <- <-. eauto.
Qed.

(** The classification peek on a stream that reads cleanly: the first
    ten bytes of what is unread (all of it, with [io.EOF], when there are
    fewer), and nothing is lost. *)
Lemma Peek10_tidy (b : bufioReader) (s : Source) :
  tidy b s -> (N.of_nat (length (b_data b)) <= b_size b)%N -> (16 <= b_size b)%N ->
  exists e b' s',
    bufio.Peek 10 b (Some s)
    = Some ((take 10 (b_data b ++ src_bytes s), e), (b', Some s'))
    /\ tidy b' s' /\ refills b s b' s'
    /\ ((e = None /\ (10 <= length (b_data b ++ src_bytes s))%nat)
        \/ (e = Some EOF /\ (length (b_data b ++ src_bytes s) < 10)%nat)).
Proof.
  intros Ht Hlen Hsz. unfold bufio.Peek. change (10 <? 0) with false. cbv iota.
  destruct (peek_loop_spec (N.to_nat (b_size b) - length (b_data b)) 10 b s Hlen)
    as (b1 & s1 & Hl & Hr & _ & Hexit).
  rewrite Hl.
  destruct (peek_loop_keeps_tidy _ _ _ _ _ _ Ht Hlen Hl) as (s1' & Heq & Ht1).
  injection Heq as <-.
  pose proof Hr as (ext & Hd & Hs & Hz & Hrd & Hle).
  assert (Hall : b_data b ++ src_bytes s = b_data b1 ++ src_bytes s1)
    by (rewrite Hd, Hs, app_assoc; reflexivity).
  rewrite Hall.
  destruct (Z.ltb_spec (Z.of_N (b_size b1)) 10); [lia|].
  destruct (Z.ltb_spec (Z.of_nat (length (b_data b1))) 10) as [Hshort | Hfull].
  - specialize (Hexit ltac:(lia)). apply peek_more_false in Hexit.
    destruct Hexit as [Hx | [Hx | Hx]]; [lia | lia |].
    destruct Ht1 as [Hc1 [He1 | [He1 ->]]]; [congruence|].
    exists (Some EOF), (set_err None b1), []. simpl. rewrite He1, app_nil_r.
    rewrite take_ge by lia.
    split; [reflexivity|]. split; [split; [constructor | left; reflexivity]|].
    split; [apply refills_set_err, Hr|]. right. split; [reflexivity | lia].
  - exists None, b1, s1. rewrite take_app_le by lia.
    split; [reflexivity|]. split; [exact Ht1|]. split; [exact Hr|].
    left. split; [reflexivity|]. rewrite length_app. lia.
Qed.

(** One [Read] into a non-empty buffer on a stream that reads cleanly:
    some bytes, taken from the head of what was unread, or end-of-data
    when nothing was. *)
Lemma Read_tidy (k : N) (b : bufioReader) (s : Source) :
  tidy b s -> (N.of_nat (length (b_data b)) <= b_size b)%N ->
  (0 < k)%N -> (0 < b_size b)%N ->
  exists out e b' s',
    bufio.Read k b (Some s) = Some ((out, e), (b', Some s'))
    /\ ((e = None /\ out <> [] /\ tidy b' s'
         /\ b_data b ++ src_bytes s = out ++ b_data b' ++ src_bytes s'
         /\ b_size b' = b_size b /\ b_rd b' = b_rd b
         /\ (N.of_nat (length (b_data b')) <= b_size b)%N)
        \/ (e = Some EOF /\ out = [] /\ b_data b ++ src_bytes s = [])).
Proof.
  intros [Hc Herr] Hlen Hk Hsz. unfold bufio.Read.
  destruct (N.eqb_spec k 0); [lia|].
  destruct (Nat.eqb_spec (length (b_data b)) 0) as [Hempty | Hne].
  - apply length_zero_iff_nil in Hempty.
    destruct Herr as [He | [He ->]]; rewrite He.
    + destruct (N.leb_spec (b_size b) k) as [Hlarge | Hsmall]; unfold bufio.rd_Read.
      * destruct (src_Read_clean k s Hc Hk)
          as [[-> Hr] | (out & s' & Hr & Hne & Hc' & Hb & Hle)]; rewrite Hr.
        -- eexists [], (Some EOF), _, []. split; [reflexivity|]. right.
           rewrite Hempty. auto.
        -- eexists out, None, _, s'. split; [reflexivity|]. left.
           simpl. rewrite Hempty. simpl.
           repeat split; auto; try lia.
      * destruct (src_Read_clean (b_size b) s Hc Hsz)
          as [[-> Hr] | (out & s' & Hr & Hne & Hc' & Hb & Hle)]; rewrite Hr.
        -- eexists [], (Some EOF), _, []. split; [reflexivity|]. right.
           rewrite Hempty. auto.
        -- destruct (Nat.eqb_spec (length out) 0) as [Hz | _];
             [destruct out; [congruence | discriminate Hz]|].
           eexists (take (N.to_nat k) out), None, _, s'.
           split; [reflexivity|]. left. simpl. rewrite Hempty. simpl.
           split; [reflexivity|]. split.
           { intros Hnil. apply (f_equal length) in Hnil.
             rewrite length_take in Hnil. simpl in Hnil.
             destruct out; [congruence | simpl in Hnil; lia]. }
           split; [split; [exact Hc' | left; reflexivity]|].
           split; [rewrite app_assoc, take_drop; exact Hb|].
           repeat split; auto. rewrite length_drop. lia.
    + simpl. eexists [], (Some EOF), _, []. rewrite He. split; [reflexivity|].
      right. rewrite Hempty. auto.
  - eexists (take (N.to_nat k) (b_data b)), None, _, s.
    split; [reflexivity|]. left. simpl.
    split; [reflexivity|]. split.
    { intros Hnil. apply (f_equal length) in Hnil. rewrite length_take in Hnil.
      simpl in Hnil. lia. }
    split; [split; [exact Hc | exact Herr]|].
    split; [rewrite !app_assoc, take_drop; reflexivity|].
    repeat split; auto. rewrite length_drop. lia.
Qed.


Lemma Read_tidy_holds (r : bufferedReader) (w : World) (k : N) id b sid s :
  holds r w id b sid s -> tidy b s -> (0 < k)%N -> (0 < b_size b)%N ->
  (exists out b' s',
     bufferedReader_Read r k w = Some (((out, None), r), stored id b' sid s' w)
     /\ out <> [] /\ holds r (stored id b' sid s' w) id b' sid s'
     /\ tidy b' s' /\ b_size b' = b_size b
     /\ unread r w = out ++ unread r (stored id b' sid s' w))
  \/ (exists w',
        bufferedReader_Read r k w = Some ((([], Some EOF), mkBuffered None), w')
        /\ unread r w = []).
Proof.
  intros Hh Ht Hk Hsz. pose proof Hh as (Hb & _ & Hrd & _ & Hlen).
  destruct (Read_tidy k b s Ht Hlen Hk Hsz)
    as (out & e & b' & s' & HR &
        [(-> & Hne & Ht' & Hcons & Hz & Hrd' & Hle) | (-> & -> & Hnil)]).
  - left. exists out, b', s'.
    assert (Hh' : holds r (stored id b' sid s' w) id b' sid s').
    { eapply holds_stored; [exact Hh | congruence | rewrite Hz; exact Hle]. }
    split.
    { unfold bufferedReader_Read. rewrite Hb. unfold bind.
      rewrite (on_bufio_run w id (bufio.Read k) r b sid s _ b' s' Hh HR).
      reflexivity. }
    split; [exact Hne|]. split; [exact Hh'|]. split; [exact Ht'|].
    split; [exact Hz|].
    rewrite (unread_holds _ _ _ _ _ _ Hh), (unread_holds _ _ _ _ _ _ Hh').
    exact Hcons.
  - right. eexists. split; [eapply Read_run; eassumption|].
    rewrite (unread_holds _ _ _ _ _ _ Hh). exact Hnil.
Qed.

(** Checking a reader out of the pool touches neither the remembered
    gzip tool nor the contexts. *)
Lemma newBufferedReader_frame (sid : nat) (w : World) (r : bufferedReader) (w' : World) :
  newBufferedReader sid w = Some (r, w') ->
  gzip_once w' = gzip_once w /\ next_ctx w' = next_ctx w
  /\ cancelled w' = cancelled w.
Proof.
  unfold newBufferedReader, bind, Pool_Get, bufio_Reset, ret. intros H.
  destruct (pool w) as [| id rest]; simpl in H.
  - rewrite lookup_insert_eq in H. injection H as _ <-. auto.
  - destruct (bufs w !! id); [| discriminate]. injection H as _ <-. auto.
Qed.

Section Through.

Variable C : Codecs.
Variable env : Env.

Lemma read_to_end_buffered (n : nat) (k : N) (r : bufferedReader) (w : World)
    id b sid s (c : Z) (cl : option (M (option error))) :
  holds r w id b sid s -> tidy b s -> (0 < k)%N -> (0 < b_size b)%N ->
  (length (unread r w) < n)%nat ->
  exists w',
    read_to_end C n k (mkReadCloserWrapper (RdBuffered r) c cl) w
    = Some ((unread r w, EOF), w').
Proof.
  intros Hh Ht Hk. revert w b s Hh Ht.
  induction n as [| n IH]; intros w b s Hh Ht Hsz Hn; [lia|].
  cbn [read_to_end]. unfold bind at 1. unfold readCloserWrapper_Read.
  cbn [rcw_Reader compression closer]. unfold bind at 1.
  destruct (Read_tidy_holds r w k id b sid s Hh Ht Hk Hsz)
    as [(out & b' & s' & HR & Hne & Hh' & Ht' & Hz & Hu) | (w' & HR & Hu)];
    rewrite HR; unfold ret at 1; cbn [snd fst].
  - destruct (IH _ b' s' Hh' Ht') as (w' & Hrest).
    + rewrite Hz. exact Hsz.
    + rewrite Hu, length_app in Hn. destruct out; [congruence | simpl in Hn; lia].
    + unfold bind. rewrite Hrest. unfold ret. rewrite Hu. eauto.
  - unfold ret. rewrite Hu. eauto.
Qed.

(** On a stream that reads cleanly [DecompressStream] dispatches on the
    first ten bytes (all of them when there are fewer), with the reader
    still holding every byte of the stream. *)
Lemma DecompressStream_clean (w : World) (archive : nat) (s : Source) :
  srcs w !! archive = Some s -> pool_ok w -> clean s ->
  exists e buf w1 id b1 s1,
    DecompressStream C env archive w
    = DecompressStream_switch C env e
        (Detect.DetectCompression (range_order env) (take 10 (src_bytes s))) buf w1
    /\ ((e = None /\ (10 <= length (src_bytes s))%nat)
        \/ (e = Some EOF /\ (length (src_bytes s) < 10)%nat))
    /\ holds buf w1 id b1 archive s1 /\ tidy b1 s1 /\ (16 <= b_size b1)%N
    /\ unread buf w1 = src_bytes s
    /\ gzip_once w1 = gzip_once w /\ next_ctx w1 = next_ctx w
    /\ cancelled w1 = cancelled w.
Proof.
  intros Hs Hok Hc.
  destruct (newBufferedReader_spec archive s w Hs Hok)
    as (id & b0 & w0 & Hnew & Hh & Hsz & _ & _).
  destruct (newBufferedReader_frame _ _ _ _ Hnew) as (Fg & Fn & Fc).
  set (buf := mkBuffered (Some id)) in *.
  set (b := bufio.Reset (Some archive) b0) in *.
  assert (Ht : tidy b s) by (split; [exact Hc | left; reflexivity]).
  pose proof Hh as (_ & _ & _ & _ & Hlen).
  destruct (Peek10_tidy b s Ht Hlen Hsz) as (e & b1 & s1 & HP & Ht1 & Hr & He).
  pose proof (on_bufio_run w0 id (bufio.Peek 10) buf b archive s _ _ _ Hh HP) as Hpeek.
  destruct (refills_holds _ _ _ _ _ _ _ _ Hh Hr) as [Hh1 Hu].
  exists e, buf, (stored id b1 archive s1 w0), id, b1, s1.
  split.
  { unfold DecompressStream, bind. rewrite Hnew.
    change (bufferedReader_Peek buf 10 w0) with (on_bufio id (bufio.Peek 10) w0).
    rewrite Hpeek. simpl.
    destruct He as [[-> _] | [-> _]]; reflexivity. }
  split; [exact He|]. split; [exact Hh1|]. split; [exact Ht1|].
  split; [destruct Hr as (? & _ & _ & Hz & _); rewrite Hz; exact Hsz|].
  split; [rewrite Hu, (unread_holds _ _ _ _ _ _ Hh); reflexivity|].
  unfold stored. simpl. auto.
Qed.

Lemma switch_reports (peek_err : option error) (compression : Z)
    (buf : bufferedReader) (w : World) (h : readCloserWrapper C) (w' : World) :
  DecompressStream_switch C env peek_err compression buf w = Some (inl h, w') ->
  GetCompression h = compression /\ 0 <= compression <= 4.
Proof.
  unfold DecompressStream_switch. intros H.
  destruct (Z.eqb_spec compression Uncompressed) as [-> | _].
  { injection H as <- _. split; [reflexivity | unfold Uncompressed; lia]. }
  destruct (Z.eqb_spec compression Gzip) as [-> | _].
  { unfold bind at 1 in H. unfold WithCancel in H. unfold bind at 1 in H.
    destruct (gzipDecompress C env _ buf _) as [[[rc | e] w1]|]; [| | discriminate].
    - injection H as <- _. split; [reflexivity | unfold Gzip; lia].
    - unfold bind, cancel, modify, ret in H. discriminate. }
  destruct (Z.eqb_spec compression Zstd) as [-> | _].
  { unfold bind at 1 in H.
    destruct (zstd_NewReader C buf w) as [[[z | e] w1]|]; [| discriminate..].
    injection H as <- _. split; [reflexivity | unfold Zstd; lia]. }
  destruct (Z.eqb_spec compression Xz) as [-> | _].
  { unfold bind at 1 in H. unfold WithCancel in H. unfold bind at 1 in H.
    destruct (xzDecompress C env _ buf _) as [[[rc | e] w1]|]; [| | discriminate].
    - injection H as <- _. split; [reflexivity | unfold Xz; lia].
    - unfold bind, cancel, modify, ret in H. discriminate. }
  destruct (Z.eqb_spec compression Bzip2) as [-> | _]; [| discriminate].
  unfold bind at 1 in H.
  destruct (bzip2_NewReader C buf w) as [[z w1]|]; [| discriminate].
  destruct peek_err; [discriminate|].
  injection H as <- _. split; [reflexivity | unfold Bzip2; lia].
Qed.

(** X6.  Detection consumes nothing.  On a stream that reads cleanly and
    whose first ten bytes match no signature, [DecompressStream] returns
    a handle reporting Uncompressed, and reading that handle to the end
    yields every byte of the stream, in order, and then end-of-data. *)
Theorem uncompressed_passes_through (w : World) (archive : nat) (s : Source) :
  srcs w !! archive = Some s -> pool_ok w -> clean s ->
  Detect.DetectCompression (range_order env) (take 10 (src_bytes s)) = Uncompressed ->
  exists h w1,
    DecompressStream C env archive w = Some (inl h, w1)
    /\ GetCompression h = Uncompressed
    /\ forall k, (0 < k)%N ->
       exists w2, read_to_end C (S (length (src_bytes s))) k h w1
                  = Some ((src_bytes s, EOF), w2).
Proof.
  intros Hs Hok Hc Hu.
  destruct (DecompressStream_clean w archive s Hs Hok Hc)
    as (e & buf & w1 & id & b1 & s1 & Hopen & _ & Hh & Ht & Hsz & Hun & _).
  rewrite Hu in Hopen.
  exists (mkReadCloserWrapper (RdBuffered buf) Uncompressed None), w1.
  split; [exact Hopen|]. split; [reflexivity|].
  intros k Hk.
  destruct (read_to_end_buffered (S (length (src_bytes s))) k buf w1 id b1 archive s1
              Uncompressed None Hh Ht Hk) as (w2 & HR); [lia | rewrite Hun; lia |].
  exists w2. rewrite HR, Hun. reflexivity.
Qed.

(** X7.  A handle [DecompressStream] returns on a stream that reads
    cleanly reports the algorithm detected in the stream's first ten
    bytes, one of the five constants. *)
Theorem handle_reports_detected (w : World) (archive : nat) (s : Source)
    (h : readCloserWrapper C) (w' : World) :
  srcs w !! archive = Some s -> pool_ok w -> clean s ->
  DecompressStream C env archive w = Some (inl h, w') ->
  GetCompression h
  = Detect.DetectCompression (range_order env) (take 10 (src_bytes s))
  /\ 0 <= GetCompression h <= 4.
Proof.
  intros Hs Hok Hc Hopen.
  destruct (DecompressStream_clean w archive s Hs Hok Hc)
    as (e & buf & w1 & id & b1 & s1 & Heq & _).
  rewrite Heq in Hopen. apply switch_reports in Hopen as [Hg Hr].
  rewrite Hg. auto.
Qed.

End Through.

End TidyFacts.

Module PeekErrorFacts.
Import BufioFacts ReaderFacts OpenFacts.

Lemma fill_failing (b : bufioReader) (bs : list byte) (e : error) (rest : Source) :
  (N.of_nat (length (b_data b) + length bs) < b_size b)%N ->
  bufio.fill b (Some (Chunk bs (Some e) :: rest))
  = Some (set_err (Some e) (set_data (b_data b ++ bs) b), Some rest).
Proof.
  intros Hroom. unfold bufio.fill.
  destruct (N.leb_spec (b_size b) (N.of_nat (length (b_data b)))); [lia|].
  change bufio.maxConsecutiveEmptyReads with (S 99).
  rewrite fill_tries_S. unfold bufio.rd_Read, src_Read.
  destruct (N.leb_spec (N.of_nat (length bs)) (b_size b - N.of_nat (length (b_data b))));
    [reflexivity | lia].
Qed.

Lemma peek_loop_failing (pre : Source) (bs : list byte) (e : error) (rest : Source)
    (turns : nat) (n : Z) (b : bufioReader) :
  clean pre -> b_err b = None ->
  Z.of_nat (length (b_data b) + length (src_bytes pre) + length bs) < n ->
  (N.of_nat (length (b_data b) + length (src_bytes pre) + length bs) < b_size b)%N ->
  (length pre < turns)%nat ->
  bufio.peek_loop turns n b (Some (pre ++ Chunk bs (Some e) :: rest))
  = Some (set_err (Some e) (set_data (b_data b ++ src_bytes pre ++ bs) b), Some rest).
Proof.
  intros Hc. revert turns b.
  induction Hc as [| [cs ce] pre [Hne ->] _ IH]; intros turns b Herr Hn Hsz Ht;
    (destruct turns as [| t]; [simpl in Ht; lia|]);
    cbn [src_bytes length app] in Hn, Hsz, Ht |- *; rewrite peek_loop_S.
  - rewrite peek_more_room by (assumption || lia).
    rewrite fill_failing by lia.
    destruct t as [| t]; [reflexivity|].
    rewrite peek_loop_S, (peek_more_err _ _ e) by reflexivity. reflexivity.
  - rewrite length_app in Hn, Hsz.
    rewrite peek_more_room by (assumption || lia).
    rewrite fill_chunk by (assumption || lia).
    rewrite IH; cbn [b_data b_err b_size set_data]; rewrite ?length_app;
      try lia; try assumption.
    unfold set_err, set_data. cbn [b_data b_size b_rd b_err].
    rewrite <- !app_assoc. reflexivity.
Qed.

Lemma Peek_failing (b : bufioReader) (pre : Source) (bs : list byte) (e : error)
    (rest : Source) :
  clean pre -> (length (src_bytes pre) + length bs < 10)%nat ->
  b_data b = [] -> b_err b = None -> (16 <= b_size b)%N ->
  bufio.Peek 10 b (Some (pre ++ Chunk bs (Some e) :: rest))
  = Some ((src_bytes pre ++ bs, Some e),
          (set_data (src_bytes pre ++ bs) b, Some rest)).
Proof.
  intros Hc Hlen Hd He Hsz. unfold bufio.Peek.
  pose proof (clean_length pre Hc) as Hcl.
  change (10 <? 0) with false. cbv iota.
  rewrite (peek_loop_failing pre bs e rest _ 10 b Hc He); rewrite ?Hd; simpl; try lia.
  destruct (Z.ltb_spec (Z.of_N (b_size b)) 10); [lia|].
  destruct (Z.ltb_spec (Z.of_nat (length (src_bytes pre ++ bs))) 10) as [_ | Hge];
    [| rewrite length_app in Hge; lia].
  unfold set_err, set_data. simpl. rewrite He. reflexivity.
Qed.

(** X8.  An error other than end-of-data that the stream raises before
    ten bytes have been read is what [DecompressStream] returns: no
    handle, no classification of the bytes read so far. *)
Theorem early_read_error_is_returned (C : Codecs) (env : Env) (w : World)
    (archive : nat) (s : Source) (e : error) :
  srcs w !! archive = Some s -> pool_ok w -> fails_early s e -> e <> EOF ->
  exists w1, DecompressStream C env archive w = Some (inr e, w1).
Proof.
  intros Hs Hok (pre & bs & rest & -> & Hc & Hlen) Hne.
  destruct (newBufferedReader_spec archive _ w Hs Hok)
    as (id & b0 & w0 & Hnew & Hh & Hsz & _ & _).
  pose proof (Peek_failing (bufio.Reset (Some archive) b0) pre bs e rest
                Hc Hlen eq_refl eq_refl Hsz) as HP.
  pose proof (on_bufio_run w0 id (bufio.Peek 10) _ _ archive _ _ _ _ Hh HP) as Hpeek.
  eexists. unfold DecompressStream, bind. rewrite Hnew.
  change (bufferedReader_Peek (mkBuffered (Some id)) 10 w0)
    with (on_bufio id (bufio.Peek 10) w0).
  rewrite Hpeek. simpl. destruct e; try reflexivity. congruence.
Qed.

End PeekErrorFacts.

Module FlowFacts.
Import BufioFacts ReaderFacts.

Lemma src_Read_length (cap : N) (s : Source) :
  (N.of_nat (length (fst (fst (src_Read cap s)))) <= cap)%N.
Proof.
  destruct s as [| [bs e] rest]; simpl; [lia|].
  destruct (N.leb_spec (N.of_nat (length bs)) cap); simpl; [assumption|].
  rewrite length_take. lia.
Qed.

Lemma Read_length (k : N) (b b' : bufioReader) (s : Source) (s' : option Source)
    (out : list byte) (e : option error) :
  bufio.Read k b (Some s) = Some ((out, e), (b', s')) ->
  (N.of_nat (length out) <= k)%N.
Proof.
  unfold bufio.Read. intros H.
  destruct (k =? 0)%N.
  { destruct (0 <? length (b_data b))%nat; simpl in H; injection H as <- _ _ _;
      simpl; lia. }
  destruct (length (b_data b) =? 0)%nat.
  2:{ injection H as <- _ _ _. rewrite length_take. lia. }
  destruct (b_err b).
  { simpl in H. injection H as <- _ _ _. simpl. lia. }
  destruct (b_size b <=? k)%N; simpl in H.
  - pose proof (src_Read_length k s) as Hl.
    destruct (src_Read k s) as [[bs e1] s1]. simpl in H, Hl.
    injection H as <- _ _ _. exact Hl.
  - destruct (src_Read (b_size b) s) as [[bs e1] s1]. simpl in H.
    destruct (length bs =? 0)%nat; simpl in H; injection H as <- _ _ _.
    + simpl. lia.
    + rewrite length_take. lia.
Qed.

Lemma Read_accounts (r : bufferedReader) (w : World) (k : N) id b sid s :
  holds r w id b sid s ->
  exists out e r' w',
    bufferedReader_Read r k w = Some (((out, e), r'), w')
    /\ (N.of_nat (length out) <= k)%N
    /\ out `prefix_of` unread r w
    /\ (e = Some EOF -> buf r' = None)
    /\ (e <> Some EOF ->
        r' = r /\ attached r w' /\ unread r w = out ++ unread r w').
Proof.
  intros Hh. pose proof Hh as (Hb & _ & Hrd & _ & Hlen).
  destruct (Read_spec k b s Hlen)
    as (out & e & b' & s' & HR & Hcons & Hout & Hz & Hrd' & Hle).
  pose proof (Read_length _ _ _ _ _ _ _ HR) as Hk.
  assert (Hh' : holds r (stored id b' sid s' w) id b' sid s').
  { eapply holds_stored; [exact Hh | congruence | rewrite Hz; exact Hle]. }
  assert (Hpre : out `prefix_of` unread r w).
  { rewrite (unread_holds _ _ _ _ _ _ Hh), Hcons. apply prefix_app_r. reflexivity. }
  unfold bufferedReader_Read. rewrite Hb. unfold bind at 1.
  rewrite (on_bufio_run w id (bufio.Read k) r b sid s _ b' s' Hh HR). cbn [snd].
  destruct (is_EOF e) eqn:He.
  - destruct e as [[]|]; try discriminate.
    destruct Hh' as (_ & Hl & _).
    unfold bind, bufio_Reset, Pool_Put, modify, ret. rewrite Hl. simpl.
    eexists out, (Some EOF), _, _. split; [reflexivity|].
    split; [exact Hk|]. split; [exact Hpre|]. split; [reflexivity | congruence].
  - unfold ret. exists out, e, r, (stored id b' sid s' w).
    split; [reflexivity|]. split; [exact Hk|]. split; [exact Hpre|].
    split; [intros ->; discriminate|].
    intros _. split; [reflexivity|]. split; [eapply holds_attached, Hh'|].
    rewrite (unread_holds _ _ _ _ _ _ Hh), (unread_holds _ _ _ _ _ _ Hh').
    exact Hcons.
Qed.

Lemma delivered_released (cs : list call) :
  delivered cs (map (fun _ => ([], Some EOF)) cs) = [].
Proof. induction cs as [| [k | n] cs IH]; simpl; auto. Qed.

Lemma fits_released (cs : list call) :
  Forall2 fits cs (map (fun _ => ([], Some EOF)) cs).
Proof.
  induction cs as [| [k | n] cs IH]; simpl; constructor; simpl; auto; lia.
Qed.

(** X9.  Over any run of [Read] and [Peek] calls on a reader, the bytes
    the [Read]s return, put end to end, are the head of what the reader
    had to deliver at the start, and no [Read] returns more bytes than
    it was given room for.  As long as no [Read] has reported
    end-of-data, what was returned followed by what is still unread is
    exactly what was unread at the start: no byte is lost, repeated or
    reordered, and a [Peek] consumes nothing. *)
Theorem reads_deliver_in_order (cs : list call) (r : bufferedReader) (w : World) :
  attached r w ->
  exists outs r' w',
    do_calls cs r w = Some ((outs, r'), w')
    /\ Forall2 fits cs outs
    /\ delivered cs outs `prefix_of` unread r w
    /\ (Forall2 (fun c res => read_eof c res = false) cs outs ->
        unread r w = delivered cs outs ++ unread r' w').
Proof.
  revert r w. induction cs as [| c cs IH]; intros r w Hatt.
  { exists [], r, w. split; [reflexivity|]. split; [constructor|].
    split; [apply prefix_nil | reflexivity]. }
  destruct (buf r) as [id|] eqn:Hb.
  2:{ exists (map (fun _ => ([], Some EOF)) (c :: cs)), r, w.
      split; [apply released_calls, Hb|].
      split; [apply fits_released|].
      rewrite delivered_released. split; [apply prefix_nil|].
      intros _. unfold unread. rewrite Hb. reflexivity. }
  destruct (attached_holds r w id Hatt Hb) as (b & sid & s & Hh).
  destruct c as [k | n].
  - destruct (Read_accounts r w k id b sid s Hh)
      as (out & e & r1 & w1 & HR & Hk & Hpre & Heof & Hgo).
    assert (He : e = Some EOF \/ e <> Some EOF)
      by (destruct e as [[]|]; auto; right; discriminate).
    destruct He as [-> | Hne].
    + specialize (Heof eq_refl).
      exists ((out, Some EOF) :: map (fun _ => ([], Some EOF)) cs), r1, w1.
      split; [eapply do_calls_cons; [exact HR | apply released_calls, Heof]|].
      split; [constructor; [exact Hk | apply fits_released]|].
      cbn [delivered fst]. rewrite delivered_released, app_nil_r.
      split; [exact Hpre|].
      intros HF. inversion HF as [| ? ? ? ? Hhd _]; subst. discriminate Hhd.
    + destruct (Hgo Hne) as (-> & Hatt1 & Hacc).
      destruct (IH r w1 Hatt1) as (outs & r2 & w2 & Hrun & Hfit & Hpre2 & Hall).
      exists ((out, e) :: outs), r2, w2.
      split; [eapply do_calls_cons; [exact HR | exact Hrun]|].
      split; [constructor; [exact Hk | exact Hfit]|].
      cbn [delivered fst]. rewrite Hacc. split.
      * apply prefix_app. exact Hpre2.
      * intros HF. inversion HF; subst. rewrite <- app_assoc. f_equal. auto.
  - destruct (Peek_holds r w n id b sid s Hh)
      as (e & b' & s' & HP & Hh' & Hun & _).
    destruct (IH r _ (holds_attached _ _ _ _ _ _ Hh'))
      as (outs & r2 & w2 & Hrun & Hfit & Hpre2 & Hall).
    eexists (_ :: outs), r2, w2.
    split.
    { eapply do_calls_cons; [| exact Hrun].
      unfold do_call, bind, ret. rewrite HP. reflexivity. }
    split; [constructor; [exact I | exact Hfit]|].
    cbn [delivered]. rewrite <- Hun. split; [exact Hpre2|].
    intros HF. inversion HF; subst. auto.
Qed.

End FlowFacts.

Module XzFacts.
Import PipeFacts DispatchFacts DetectFacts TidyFacts.

Section Xz.

Variable C : Codecs.
Variable env : Env.

Lemma read_to_end_pipe (p : Process) (k : N) (pid : nat) (c : Z)
    (cl : option (M (option error))) (n : nat) :
  (0 < k)%N ->
  forall seen B w,
    pipes w !! pid = Some B -> Inv p seen B ->
    (length (Pipe.pending B) < n)%nat ->
    exists w',
      read_to_end C n k (mkReadCloserWrapper (RdCloser (RcPipe pid)) c cl) w
      = Some ((Pipe.pending B, terminal p), w').
Proof.
  intros Hk. induction n as [| n IH]; intros seen B w Hl HI Hn; [lia|].
  destruct (Read_progress p k (2 + length (unsent B)) seen B Hk HI (le_n _))
    as (res & B' & HR & Hcase).
  pose proof HI as (_ & _ & _ & Hsum & _).
  cbn [read_to_end]. unfold bind at 1.
  unfold readCloserWrapper_Read. cbn [rcw_Reader]. unfold bind at 1.
  unfold PipeReader_Read. rewrite Hl, HR. unfold ret at 1.
  destruct Hcase as [(bs & -> & Hne & HI' & Hless) | (-> & Hseen & HI')].
  - cbn [snd fst].
    pose proof HI' as (_ & _ & _ & Hsum' & _).
    assert (Hp : Pipe.pending B = bs ++ Pipe.pending B').
    { apply (app_inv_head seen). rewrite Hsum, app_assoc, Hsum'. reflexivity. }
    destruct (IH (seen ++ bs) B' (set_pipes (<[pid := B']> (pipes w)) w))
      as (w' & Hrec); [apply lookup_insert_eq | exact HI' | lia |].
    unfold bind. rewrite Hrec. unfold ret. rewrite Hp. eexists. reflexivity.
  - cbn [snd fst]. unfold ret.
    assert (Hp : Pipe.pending B = []).
    { apply (app_inv_head seen). rewrite Hsum, app_nil_r. congruence. }
    rewrite Hp. eexists. reflexivity.
Qed.

Lemma switch_Xz_starts (peek_err : option error) (buf : bufferedReader) (w : World) :
  start_error (spawn env ["xz"; "-d"; "-c"; "-q"]%string) = None ->
  exists pid w1,
    DecompressStream_switch C env peek_err Xz buf w
    = Some (inl (mkReadCloserWrapper (RdCloser (RcPipe pid)) Xz
                   (Some (cancel (next_ctx w) ;; ReadCloser_Close C (RcPipe pid)))),
            w1)
    /\ pipes w1 !! pid = Some (started (spawn env ["xz"; "-d"; "-c"; "-q"]%string))
    /\ cancelled w1 = cancelled w.
Proof.
  intros Hs. unfold DecompressStream_switch. simpl.
  unfold bind at 1. unfold WithCancel. unfold bind at 1. unfold xzDecompress.
  unfold bind at 1.
  unfold cmdStream, bind, io_Pipe, cmd_Start, go_supervise, ret. simpl.
  rewrite Hs. simpl. rewrite lookup_insert_eq.
  eexists _, _. split; [reflexivity|]. simpl. rewrite lookup_insert_eq.
  split; reflexivity.
Qed.

(** X10.  A stream that reads cleanly and begins with the xz signature is
    opened as Xz whenever [xz -d -c -q] can be started, and reading the
    handle to its end gives exactly what that process writes to its
    standard output, followed by end-of-data when it exits with status
    zero and by the error made of its exit status and standard error
    otherwise. *)
Theorem xz_handle_delivers_process_output (w : World) (archive : nat) (s : Source) :
  srcs w !! archive = Some s -> pool_ok w -> clean s ->
  Detect.iteration_order (range_order env) ->
  Detect.xzMagic `prefix_of` src_bytes s ->
  start_error (spawn env ["xz"; "-d"; "-c"; "-q"]%string) = None ->
  let p := spawn env ["xz"; "-d"; "-c"; "-q"]%string in
  exists h w1,
    DecompressStream C env archive w = Some (inl h, w1)
    /\ GetCompression h = Xz
    /\ forall k, (0 < k)%N ->
       exists w2, read_to_end C (S (length (concat (stdout p)))) k h w1
                  = Some ((concat (stdout p), terminal p), w2).
Proof.
  intros Hs Hok Hc Hord [t Ht] Hstart p.
  destruct (DecompressStream_clean C env w archive s Hs Hok Hc)
    as (e & buf & w0 & id & b1 & s1 & Hopen & _).
  assert (HD : Detect.DetectCompression (range_order env) (take 10 (src_bytes s)) = Xz).
  { rewrite Ht.
    change (take 10 (Detect.xzMagic ++ t)) with (Detect.xzMagic ++ take 4 t).
    apply (DetectCompression_hit _ _ Xz (Detect.magicNumberMatcher Detect.xzMagic) Hord).
    - unfold Detect.literal_order.
      do 3 apply list_elem_of_further. apply list_elem_of_here.
    - apply magic_accepts. }
  rewrite HD in Hopen.
  destruct (switch_Xz_starts e buf w0 Hstart) as (pid & w1 & Hsw & Hl & _).
  rewrite Hsw in Hopen.
  eexists _, w1. split; [exact Hopen|]. split; [reflexivity|].
  intros k Hk.
  destruct (read_to_end_pipe p k pid Xz
              (Some (cancel (next_ctx w0) ;; ReadCloser_Close C (RcPipe pid)))
              (S (length (concat (stdout p)))) Hk [] (started p) w1 Hl (Inv_started p))
    as (w2 & Hrun).
  { unfold Pipe.pending, started. simpl. lia. }
  exists w2. rewrite Hrun. unfold Pipe.pending, started. simpl. reflexivity.
Qed.

(** X11.  Closing an Xz handle, at any point of its use, cancels the
    context the process was started with and closes the read side of the
    pipe; it returns nil.  Every [Read] after that returns no bytes and
    [io.ErrClosedPipe], whatever the process had still to deliver, and
    closing again returns nil as well. *)
Theorem closed_xz_handle_reads_ErrClosedPipe (peek_err : option error)
    (buf : bufferedReader) (w : World) :
  start_error (spawn env ["xz"; "-d"; "-c"; "-q"]%string) = None ->
  exists pid h w1,
    DecompressStream_switch C env peek_err Xz buf w = Some (inl h, w1)
    /\ rcw_Reader h = RdCloser (RcPipe pid)
    /\ forall w2 B, pipes w2 !! pid = Some B ->
       exists w3,
         readCloserWrapper_Close h w2 = Some (None, w3)
         /\ cancelled w3 = next_ctx w :: cancelled w2
         /\ pipes w3 !! pid = Some (Pipe.CloseReader B)
         /\ (forall k, readCloserWrapper_Read C h k w3
                       = Some ((([], Some ErrClosedPipe), h), w3))
         /\ (exists w4, readCloserWrapper_Close h w3 = Some (None, w4)
                        /\ pipes w4 !! pid = Some (Pipe.CloseReader B)).
Proof.
  intros Hstart.
  destruct (switch_Xz_starts peek_err buf w Hstart) as (pid & w1 & Hsw & _ & _).
  eexists pid, _, w1. split; [exact Hsw|]. split; [reflexivity|].
  intros w2 B HB.
  unfold readCloserWrapper_Close. cbn [closer].
  unfold bind, cancel, modify, ReadCloser_Close, PipeReader_Close. simpl.
  rewrite HB. eexists. split; [reflexivity|]. simpl.
  split; [reflexivity|]. rewrite lookup_insert_eq. split; [reflexivity|].
  split.
  - intros k. unfold readCloserWrapper_Read. cbn [rcw_Reader].
    unfold bind, PipeReader_Read, ret. simpl. rewrite lookup_insert_eq.
    simpl. rewrite insert_insert_eq. reflexivity.
  - eexists. split; [reflexivity|]. simpl. apply lookup_insert_eq.
Qed.

End Xz.

End XzFacts.

Module DecoderFacts.
Import PipeFacts DispatchFacts DetectFacts TidyFacts XzFacts ReaderFacts.

Section Decoders.

Variable C : Codecs.
Variable env : Env.

Lemma detect_prefix (order : list (Z * Detect.matcher)) (m t : list byte) (c : Z) :
  Detect.iteration_order order ->
  (c, Detect.magicNumberMatcher m) ∈ Detect.literal_order ->
  (length m <= 10)%nat ->
  Detect.DetectCompression order (take 10 (m ++ t)) = c.
Proof.
  intros Ho Hin Hlen.
  rewrite take_app_ge by exact Hlen.
  apply (DetectCompression_hit order _ c (Detect.magicNumberMatcher m) Ho Hin).
  apply magic_accepts.
Qed.

Lemma switch_Gzip_tool (peek_err : option error) (buf : bufferedReader) (w : World)
    (path : string) :
  gzip_once w = Some path -> path <> ""%string ->
  let p := spawn env [path; "-d"; "-c"]%string in
  (start_error p = None ->
   exists pid w1,
     DecompressStream_switch C env peek_err Gzip buf w
     = Some (inl (mkReadCloserWrapper (RdCloser (RcPipe pid)) Gzip
                    (Some (cancel (next_ctx w) ;; ReadCloser_Close C (RcPipe pid)))),
             w1)
     /\ pipes w1 !! pid = Some (started p))
  /\ (forall err, start_error p = Some err ->
      exists w1,
        DecompressStream_switch C env peek_err Gzip buf w = Some (inr err, w1)
        /\ cancelled w1 = next_ctx w :: cancelled w).
Proof.
  intros Honce Hpath p. subst p.
  split; [intros Hstart | intros err Hstart];
    unfold DecompressStream_switch; simpl;
    unfold bind at 1; unfold WithCancel; unfold bind at 1; unfold gzipDecompress;
    unfold bind at 1; unfold initGzip_Do; simpl gzip_once; rewrite Honce;
    (destruct (String.eqb_spec path "") as [-> | _]; [contradiction|]);
    unfold bind at 1;
    unfold cmdStream, bind, io_Pipe, cmd_Start, go_supervise, ret; simpl;
    rewrite Hstart; simpl.
  - rewrite lookup_insert_eq.
    eexists _, _. split; [reflexivity|]. simpl. rewrite lookup_insert_eq.
    reflexivity.
  - unfold cancel, modify. simpl. eexists. split; reflexivity.
Qed.

(** X12.  Once an accelerator has been found for gzip, a stream that
    reads cleanly and begins with the gzip signature is decoded by
    running [path -d -c], not by the built-in decoder.  If the process
    starts, the handle reports Gzip and reading it to its end gives what
    the process writes to its standard output, then its terminal error;
    if it does not, [DecompressStream] returns the start error with the
    context already cancelled. *)
Theorem gzip_stream_through_accelerator (w : World) (archive : nat) (s : Source)
    (path : string) :
  srcs w !! archive = Some s -> pool_ok w -> clean s ->
  Detect.iteration_order (range_order env) ->
  Detect.gzipMagic `prefix_of` src_bytes s ->
  gzip_once w = Some path -> path <> ""%string ->
  let p := spawn env [path; "-d"; "-c"]%string in
  (start_error p = None ->
   exists h w1,
     DecompressStream C env archive w = Some (inl h, w1)
     /\ GetCompression h = Gzip
     /\ forall k, (0 < k)%N ->
        exists w2, read_to_end C (S (length (concat (stdout p)))) k h w1
                   = Some ((concat (stdout p), terminal p), w2))
  /\ (forall err, start_error p = Some err ->
      exists w1,
        DecompressStream C env archive w = Some (inr err, w1)
        /\ cancelled w1 = next_ctx w :: cancelled w).
Proof.
  intros Hs Hok Hc Hord [t Ht] Honce Hpath p.
  destruct (DecompressStream_clean C env w archive s Hs Hok Hc)
    as (e & buf & w0 & id & b1 & s1 & Hopen & _ & _ & _ & _ & _ & Fg & Fn & Fc).
  rewrite Ht, (detect_prefix _ Detect.gzipMagic t Gzip Hord) in Hopen;
    [| apply list_elem_of_here | simpl; lia].
  rewrite <- Fg in Honce.
  destruct (switch_Gzip_tool e buf w0 path Honce Hpath) as [Hgo Hfail].
  fold p in Hgo, Hfail. split.
  - intros Hstart. destruct (Hgo Hstart) as (pid & w1 & Hsw & Hl).
    rewrite Hsw in Hopen.
    eexists _, w1. split; [exact Hopen|]. split; [reflexivity|].
    intros k Hk.
    destruct (read_to_end_pipe C p k pid Gzip
                (Some (cancel (next_ctx w0) ;; ReadCloser_Close C (RcPipe pid)))
                (S (length (concat (stdout p)))) Hk [] (started p) w1 Hl (Inv_started p))
      as (w2 & Hrun).
    { unfold Pipe.pending, started. simpl. lia. }
    exists w2. rewrite Hrun. unfold Pipe.pending, started. simpl. reflexivity.
  - intros err Hstart. destruct (Hfail err Hstart) as (w1 & Hsw & Hcan).
    exists w1. rewrite Hopen. split; [exact Hsw|]. rewrite Hcan, Fn, Fc. reflexivity.
Qed.

(** X13.  Detection leaves the whole stream for the decoder.  On a
    stream that reads cleanly the Zstd decoder, and the built-in gzip
    decoder when no accelerator is in use, are opened on a reader that
    still has every byte of the stream to deliver, signature included;
    what the decoder's constructor answers is what [DecompressStream]
    answers, a handle reporting the algorithm or the constructor's
    error. *)
Theorem decoder_opens_on_whole_stream (w : World) (archive : nat) (s : Source) :
  srcs w !! archive = Some s -> pool_ok w -> clean s ->
  Detect.iteration_order (range_order env) ->
  exists buf w1,
    unread buf w1 = src_bytes s /\ attached buf w1
    /\ (Detect.zstdMagic `prefix_of` src_bytes s ->
        DecompressStream C env archive w
        = match zstd_NewReader C buf w1 with
          | Some (inl z, w2) =>
              Some (inl (mkReadCloserWrapper (RdZstd z) Zstd
                           (Some (zstd_Close C z ;; ret None))), w2)
          | Some (inr err, w2) => Some (inr err, w2)
          | None => None
          end)
    /\ (Detect.gzipMagic `prefix_of` src_bytes s -> gzip_once w = Some ""%string ->
        exists w1',
          unread buf w1' = src_bytes s /\ attached buf w1'
          /\ DecompressStream C env archive w
             = match gzip_NewReader C buf w1' with
               | Some (inl z, w2) =>
                   Some (inl (mkReadCloserWrapper (RdCloser (RcGzip z)) Gzip
                                (Some (cancel (next_ctx w) ;; gzip_Close C z))), w2)
               | Some (inr err, w2) =>
                   Some (inr err, set_cancelled (next_ctx w :: cancelled w2) w2)
               | None => None
               end).
Proof.
  intros Hs Hok Hc Hord.
  destruct (DecompressStream_clean C env w archive s Hs Hok Hc)
    as (e & buf & w0 & id & b1 & s1 & Hopen & _ & Hh & _ & _ & Hun & Fg & Fn & Fc).
  exists buf, w0. split; [exact Hun|]. split; [eapply holds_attached, Hh|].
  split.
  - intros [t Ht]. rewrite Ht in Hopen.
    assert (HD : Detect.DetectCompression (range_order env)
                   (take 10 (Detect.zstdMagic ++ t)) = Zstd).
    { rewrite take_app_ge by (simpl; lia).
      apply (DetectCompression_hit _ _ Zstd Detect.zstdMatcher Hord).
      - apply list_elem_of_further, list_elem_of_here.
      - apply zstd_accepts_magic. }
    rewrite HD in Hopen. rewrite Hopen.
    unfold DecompressStream_switch. simpl. unfold bind.
    destruct (zstd_NewReader C buf w0) as [[[z | err] w2]|]; reflexivity.
  - intros [t Ht] Honce. rewrite Ht in Hopen.
    rewrite (detect_prefix _ Detect.gzipMagic t Gzip Hord) in Hopen;
      [| apply list_elem_of_here | simpl; lia].
    exists (set_next_ctx (S (next_ctx w0)) w0).
    split; [exact Hun|]. split; [eapply holds_attached, Hh|].
    rewrite Hopen. unfold DecompressStream_switch. simpl.
    unfold bind at 1. unfold WithCancel. unfold bind at 1. unfold gzipDecompress.
    unfold bind at 1. unfold initGzip_Do. simpl gzip_once. rewrite Fg, Honce.
    simpl. unfold bind at 1. rewrite Fn.
    destruct (gzip_NewReader C buf _) as [[[z | err] w2]|]; reflexivity.
Qed.

(** X14.  A Bzip2 stream needs ten bytes.  On a stream that reads
    cleanly and begins with the bzip2 signature, the decoder is made on
    a reader holding the whole stream; a handle reporting Bzip2 comes
    back when the stream has ten bytes or more, and when it has fewer
    [DecompressStream] returns [io.EOF], the error of its [Peek], and no
    handle. *)
Theorem bzip2_stream_needs_ten_bytes (w : World) (archive : nat) (s : Source) :
  srcs w !! archive = Some s -> pool_ok w -> clean s ->
  Detect.iteration_order (range_order env) ->
  Detect.bzip2Magic `prefix_of` src_bytes s ->
  exists buf w1,
    unread buf w1 = src_bytes s
    /\ forall z w2, bzip2_NewReader C buf w1 = Some (z, w2) ->
       ((10 <= length (src_bytes s))%nat ->
        DecompressStream C env archive w
        = Some (inl (mkReadCloserWrapper (RdBzip2 z) Bzip2 (Some (ret None))), w2))
       /\ ((length (src_bytes s) < 10)%nat ->
           DecompressStream C env archive w = Some (inr EOF, w2)).
Proof.
  intros Hs Hok Hc Hord [t Ht].
  destruct (DecompressStream_clean C env w archive s Hs Hok Hc)
    as (e & buf & w0 & id & b1 & s1 & Hopen & He & _ & _ & _ & Hun & _).
  exists buf, w0. split; [exact Hun|].
  intros z w2 Hz.
  rewrite Ht in Hopen.
  rewrite (detect_prefix _ Detect.bzip2Magic t Bzip2 Hord) in Hopen;
    [| do 2 apply list_elem_of_further; apply list_elem_of_here | simpl; lia].
  rewrite Hopen. unfold DecompressStream_switch. simpl. unfold bind. rewrite Hz.
  destruct He as [[-> Hl] | [-> Hl]]; split; intros Hlen; try lia; reflexivity.
Qed.

End Decoders.

End DecoderFacts.

Module PoolFacts.
Import BufioFacts ReaderFacts OpenFacts.



End PoolFacts.

Module MoreRuns.
Import DetectFacts BufioFacts ReaderFacts OpenFacts PipeFacts DispatchFacts.
Import ToolFacts TidyFacts PeekErrorFacts FlowFacts XzFacts DecoderFacts PoolFacts.

Lemma settled_pool_ok (s : Source) : pool_ok (Cases.settled s).
Proof. intros id Hin. simpl in Hin. apply elem_of_nil in Hin. contradiction. Qed.

Lemma sample_pool_ok (s : Source) : pool_ok (Sample.world s).
Proof. intros id Hin. simpl in Hin. apply elem_of_nil in Hin. contradiction. Qed.

Lemma sample_attached (s : Source) : attached Sample.reader (Sample.reading s).
Proof.
  exists (mkBufio 32768 (Some 0%nat) [] None), 0%nat, s.
  repeat split; try reflexivity. simpl. lia.
Qed.

Lemma text_clean : clean Cases.text.
Proof. repeat constructor; discriminate. Qed.

Lemma xz_stream_clean : clean Cases.xz_stream.
Proof. repeat constructor; discriminate. Qed.

Lemma gzip_stream_clean : clean Cases.gzip_stream.
Proof. repeat constructor; discriminate. Qed.

Lemma zstd_stream_clean : clean Cases.zstd_stream.
Proof. repeat constructor; discriminate. Qed.

Lemma bzip2_short_clean : clean Cases.bzip2_short.
Proof. repeat constructor; discriminate. Qed.

(** igzip switched off by [1]; unpigz kept, its variable holding [yes]. *)
Lemma detectCommand_toggle_witness :
  detectCommand Cases.tooled "igzip" disableIgzipEnv = ""%string
  /\ detectCommand Cases.tooled "unpigz" disablePigzEnv = "/usr/bin/unpigz"%string.
Proof.
  split.
  - apply (proj1 (detectCommand_toggle Cases.tooled "igzip" disableIgzipEnv)).
    left. reflexivity.
  - rewrite (proj2 (detectCommand_toggle Cases.tooled "unpigz" disablePigzEnv));
      [reflexivity|].
    intros H. vm_compute in H. repeat (destruct H as [H | H]; [discriminate H|]).
    exact H.
Defined.

(** The first search on that machine settles on unpigz. *)
Lemma gzip_tool_chosen_once_witness :
  exists w1,
    initGzip_Do Cases.tooled (Sample.world []) = Some ("/usr/bin/unpigz"%string, w1)
    /\ initGzip_Do Sample.bare w1 = Some ("/usr/bin/unpigz"%string, w1).
Proof.
  destruct (gzip_tool_chosen_once Sample.codecs Cases.tooled Sample.bare
              (Sample.world []) 0%nat Sample.reader eq_refl)
    as (gzipPath & w1 & Hdo & _ & _ & Hun & Hagain & _).
  assert (Hp : gzipPath = "/usr/bin/unpigz"%string) by (rewrite Hun; reflexivity).
  subst gzipPath. exists w1. split; assumption.
Defined.

(** Text goes through unchanged, three bytes at a time. *)
Lemma uncompressed_passes_through_witness :
  exists h w1 w2,
    DecompressStream Sample.codecs Sample.bare 0 (Sample.world Cases.text)
    = Some (inl h, w1)
    /\ read_to_end Sample.codecs 14 3 h w1 = Some ((src_bytes Cases.text, EOF), w2).
Proof.
  destruct (uncompressed_passes_through Sample.codecs Sample.bare
              (Sample.world Cases.text) 0%nat Cases.text
              eq_refl (sample_pool_ok _) text_clean eq_refl)
    as (h & w1 & Hopen & _ & Hread).
  destruct (Hread 3%N eq_refl) as (w2 & Hrun).
  exists h, w1, w2. split; assumption.
Defined.

(** The handle opened on the text reports Uncompressed. *)
Lemma handle_reports_detected_witness :
  exists h w1,
    DecompressStream Sample.codecs Sample.bare 0 (Sample.world Cases.text)
    = Some (inl h, w1)
    /\ GetCompression h = Uncompressed.
Proof.
  destruct (DecompressStream_clean Sample.codecs Sample.bare
              (Sample.world Cases.text) 0%nat Cases.text
              eq_refl (sample_pool_ok _) text_clean)
    as (e & buf & w1 & id & b1 & s1 & Hopen & _).
  change (DecompressStream Sample.codecs Sample.bare 0 (Sample.world Cases.text)
          = Some (inl (mkReadCloserWrapper (RdBuffered buf) Uncompressed None), w1))
    in Hopen.
  eexists _, w1. split; [exact Hopen|].
  exact (proj1 (handle_reports_detected Sample.codecs Sample.bare
                  (Sample.world Cases.text) 0%nat Cases.text _ w1
                  eq_refl (sample_pool_ok _) text_clean Hopen)).
Defined.

Lemma flaky_fails_early : fails_early Sample.flaky (ErrorString "i/o timeout").
Proof.
  exists [Chunk [x61; x62] None], [], [Chunk [x63; x64] None].
  split; [reflexivity|]. split; [repeat constructor; discriminate | simpl; lia].
Qed.

(** A read deadline hit after two bytes is what the caller gets. *)
Lemma early_read_error_is_returned_witness :
  Sample.opened Sample.bare Sample.flaky = Some (inr (ErrorString "i/o timeout")).
Proof.
  destruct (early_read_error_is_returned Sample.codecs Sample.bare
              (Sample.world Sample.flaky) 0%nat Sample.flaky
              (ErrorString "i/o timeout")
              eq_refl (sample_pool_ok _) flaky_fails_early ltac:(discriminate))
    as (w1 & Hopen).
  unfold Sample.opened. rewrite Hopen. reflexivity.
Defined.

(** Peek, two reads, peek, read, on the text. *)
Lemma reads_deliver_in_order_witness :
  exists outs r' w',
    do_calls [CallPeek 10; CallRead 4; CallRead 4; CallPeek 2; CallRead 2]
      Sample.reader (Sample.reading Cases.text)
    = Some ((outs, r'), w')
    /\ delivered [CallPeek 10; CallRead 4; CallRead 4; CallPeek 2; CallRead 2] outs
       `prefix_of` src_bytes Cases.text.
Proof.
  destruct (reads_deliver_in_order
              [CallPeek 10; CallRead 4; CallRead 4; CallPeek 2; CallRead 2]
              Sample.reader (Sample.reading Cases.text) (sample_attached _))
    as (outs & r' & w' & Hrun & _ & Hpre & _).
  exists outs, r', w'. split; [exact Hrun | exact Hpre].
Defined.

(** An xz stream on a machine whose [xz] writes three bytes and fails. *)
Lemma xz_handle_delivers_process_output_witness :
  exists h w1 w2,
    DecompressStream Sample.codecs Sample.with_xz 0 (Sample.world Cases.xz_stream)
    = Some (inl h, w1)
    /\ GetCompression h = Xz
    /\ read_to_end Sample.codecs 4 2 h w1
       = Some (([x61; x62; x63],
                ErrorString "exit status 1: xz: (stdin): File format not recognized"),
               w2).
Proof.
  destruct (xz_handle_delivers_process_output Sample.codecs Sample.with_xz
              (Sample.world Cases.xz_stream) 0%nat Cases.xz_stream
              eq_refl (sample_pool_ok _) xz_stream_clean rev_literal_is_order
              ltac:(eexists; reflexivity) eq_refl)
    as (h & w1 & Hopen & Hc & Hread).
  destruct (Hread 2%N eq_refl) as (w2 & Hrun).
  exists h, w1, w2. split; [exact Hopen|]. split; [exact Hc | exact Hrun].
Defined.

(** Closing the Xz handle right after it was opened. *)
Lemma closed_xz_handle_reads_ErrClosedPipe_witness :
  exists h w1 w3,
    DecompressStream_switch Sample.codecs Sample.with_xz None Xz Sample.reader
      (Sample.reading Cases.xz_stream) = Some (inl h, w1)
    /\ readCloserWrapper_Close h w1 = Some (None, w3)
    /\ readCloserWrapper_Read Sample.codecs h 8 w3
       = Some ((([], Some ErrClosedPipe), h), w3).
Proof.
  destruct (closed_xz_handle_reads_ErrClosedPipe Sample.codecs Sample.with_xz None
              Sample.reader (Sample.reading Cases.xz_stream) eq_refl)
    as (pid & h & w1 & Hsw & Hrd & Hclose).
  assert (Hl : exists B, pipes w1 !! pid = Some B).
  { destruct (switch_Xz_starts Sample.codecs Sample.with_xz None Sample.reader
                (Sample.reading Cases.xz_stream) eq_refl)
      as (pid' & w1' & Hsw' & Hl' & _).
    rewrite Hsw in Hsw'. injection Hsw' as Hh Hw. subst w1'.
    rewrite Hh in Hrd. injection Hrd as <-. eauto. }
  destruct Hl as (B & HB).
  destruct (Hclose w1 B HB) as (w3 & Hc & _ & _ & Hread & _).
  exists h, w1, w3. split; [exact Hsw|]. split; [exact Hc | apply Hread].
Defined.

(** A gzip stream in a program that has settled on unpigz. *)
Lemma gzip_stream_through_accelerator_witness :
  exists h w1 w2,
    DecompressStream Sample.codecs Cases.tooled 0 (Cases.settled Cases.gzip_stream)
    = Some (inl h, w1)
    /\ GetCompression h = Gzip
    /\ read_to_end Sample.codecs 4 1 h w1 = Some (([x68; x69; x0a], EOF), w2).
Proof.
  destruct (gzip_stream_through_accelerator Sample.codecs Cases.tooled
              (Cases.settled Cases.gzip_stream) 0%nat Cases.gzip_stream
              "/usr/bin/unpigz"
              eq_refl (settled_pool_ok _) gzip_stream_clean literal_is_order
              ltac:(eexists; reflexivity) eq_refl ltac:(discriminate))
    as [Hgo _].
  destruct (Hgo eq_refl) as (h & w1 & Hopen & Hc & Hread).
  destruct (Hread 1%N eq_refl) as (w2 & Hrun).
  exists h, w1, w2. split; [exact Hopen|]. split; [exact Hc | exact Hrun].
Defined.

(** The Zstd decoder is opened with the five bytes of the stream still
    to come. *)
Lemma decoder_opens_on_whole_stream_witness :
  exists buf w1,
    unread buf w1 = [x28; xb5; x2f; xfd; x04]
    /\ DecompressStream Sample.codecs Sample.bare 0 (Sample.world Cases.zstd_stream)
       = Some (inl (mkReadCloserWrapper (C := Sample.codecs)
                      (RdZstd (C := Sample.codecs) tt) Zstd
                      (Some (zstd_Close Sample.codecs tt ;; ret None))), w1).
Proof.
  destruct (decoder_opens_on_whole_stream Sample.codecs Sample.bare
              (Sample.world Cases.zstd_stream) 0%nat Cases.zstd_stream
              eq_refl (sample_pool_ok _) zstd_stream_clean literal_is_order)
    as (buf & w1 & Hun & _ & Hz & _).
  exists buf, w1. split; [exact Hun|].
  apply Hz. eexists. reflexivity.
Defined.

(** The three magic bytes of bzip2 alone are answered with [io.EOF]. *)
Lemma bzip2_stream_needs_ten_bytes_witness :
  Sample.opened Sample.bare Cases.bzip2_short = Some (inr EOF).
Proof.
  destruct (bzip2_stream_needs_ten_bytes Sample.codecs Sample.bare
              (Sample.world Cases.bzip2_short) 0%nat Cases.bzip2_short
              eq_refl (sample_pool_ok _) bzip2_short_clean literal_is_order
              ltac:(eexists; reflexivity))
    as (buf & w1 & _ & Hcases).
  destruct (Hcases tt w1 eq_refl) as [_ Hshort].
  unfold Sample.opened. rewrite Hshort; [reflexivity | simpl; lia].
Defined.

(** On a machine without [xz] the context of the failed open is
    cancelled. *)
Lemma failed_open_cancels_witness :
  exists w',
    DecompressStream_switch Sample.codecs Sample.bare None Xz Sample.reader
      (Sample.reading Cases.xz_stream)
    = Some (inr (ErrorString "exec: xz: executable file not found in $PATH"), w')
    /\ cancelled w' = [0%nat].
Proof.
  destruct (switch_Xz_fails Sample.codecs Sample.bare None Sample.reader
              (Sample.reading Cases.xz_stream)
              (ErrorString "exec: xz: executable file not found in $PATH") eq_refl)
    as (w' & Hsw).
  exists w'. split; [exact Hsw|].
  destruct (proj1 (CancelFacts.failed_open_cancels Sample.codecs Sample.bare None
                     Sample.reader (Sample.reading Cases.xz_stream))
              Xz _ w' (or_intror eq_refl) Hsw) as (rest & Hc).
  rewrite Hc. f_equal.
  unfold DecompressStream_switch, bind, WithCancel, xzDecompress, cmdStream, bind,
    io_Pipe, cmd_Start, cancel, modify, ret in Hsw.
  simpl in Hsw. injection Hsw as <-. simpl in Hc. injection Hc as <-. reflexivity.
Defined.


(** The runs above, evaluated. *)
Example text_read_back :
  match DecompressStream Sample.codecs Sample.bare 0 (Sample.world Cases.text) with
  | Some (inl h, w1) =>
      match read_to_end Sample.codecs 14 3 h w1 with
      | Some (res, w2) => Some (res, pool w2, pool_puts w2)
      | None => None
      end
  | _ => None
  end
  = Some ((src_bytes Cases.text, EOF), [0%nat], [0%nat]).
Proof. vm_compute. reflexivity. Qed.

Example calls_on_text :
  match do_calls [CallPeek 10; CallRead 4; CallRead 4; CallPeek 2; CallRead 2]
          Sample.reader (Sample.reading Cases.text) with
  | Some ((outs, r'), w') => Some (outs, unread r' w')
  | None => None
  end
  = Some ([([x68; x65; x6c; x6c; x6f; x20; x77; x6f; x72; x6c], None);
           ([x68; x65; x6c; x6c], None);
           ([x6f; x20; x77; x6f], None);
           ([x72; x6c], None);
           ([x72; x6c], None)],
          [x64; x21; x0a]).
Proof. vm_compute. reflexivity. Qed.

End MoreRuns.
